(** * tomato: template-to-view compiler

    A shallow embedding of the Go sources of the tomato compiler
    ([tomato.go] and the TypeScript generator with its visitor) and the
    properties of its specification.

    Go strings are byte strings: they are modelled by [string], whose
    characters are the 256 bytes.  Go's [int] is modelled by [Z] where a
    negative value can occur (the [-1] of [strings.LastIndex]) and by [nat]
    for the tree depth, which only ever counts up from [0]. *)

From Stdlib Require Import ZArith Ascii String.
From stdpp Require Import gmap strings list fin_maps sorting.

Local Open Scope Z_scope.

(** ** Byte strings *)

Definition len (s : string) : Z := Z.of_nat (String.length s).

Definition byte_of (c : ascii) : Z := Z.of_N (N_of_ascii c).

Fixpoint sdrop (n : nat) (s : string) : string :=
  match n, s with
  | O, _ => s
  | S n', String _ s' => sdrop n' s'
  | S _, EmptyString => EmptyString
  end.

Fixpoint stake (n : nat) (s : string) : string :=
  match n, s with
  | S n', String c s' => String c (stake n' s')
  | _, _ => EmptyString
  end.

(** [s[lo:hi]]: Go panics unless [0 <= lo <= hi <= len(s)]; [None] is the
    panic. *)
Definition slice (s : string) (lo hi : Z) : option string :=
  if (0 <=? lo) && (lo <=? hi) && (hi <=? len s)
  then Some (stake (Z.to_nat (hi - lo)) (sdrop (Z.to_nat lo) s))
  else None.

(** ** Package [strings] *)

Module GoStrings.

(** [strings.HasPrefix(s, prefix)]. *)
Definition HasPrefix (s pre : string) : bool := String.prefix pre s.

(** [strings.Index(s, substr)]: first position of [substr], else [-1]. *)
Fixpoint Index_from (i : Z) (s substr : string) : Z :=
  if HasPrefix s substr then i
  else match s with
       | EmptyString => -1
       | String _ s' => Index_from (i + 1) s' substr
       end.

Definition Index (s substr : string) : Z := Index_from 0 s substr.

(** [strings.LastIndex(s, substr)]: last position of [substr], else [-1].
    The scan keeps the most recent match in [acc]. *)
Fixpoint LastIndex_from (i acc : Z) (s substr : string) : Z :=
  let acc' := if HasPrefix s substr then i else acc in
  match s with
  | EmptyString => acc'
  | String _ s' => LastIndex_from (i + 1) acc' s' substr
  end.

Definition LastIndex (s substr : string) : Z := LastIndex_from 0 (-1) s substr.

(** [strings.Replace(s, old, new, n)] for a non-empty [old] (the program
    only passes the literals of a newline, a quote and the extension):
    the first [n] non-overlapping occurrences, all of them when [n < 0].
    [skip] counts the bytes of a matched [old] still to be dropped. *)
Fixpoint Replace_go (old new : string) (skip : nat) (n : Z) (s : string) : string :=
  match s with
  | EmptyString => EmptyString
  | String c s' =>
      match skip with
      | S k => Replace_go old new k n s'
      | O =>
          if negb (n =? 0) && HasPrefix s old
          then new +:+ Replace_go old new (String.length old - 1)
                         (if n <? 0 then n else n - 1) s'
          else String c (Replace_go old new 0 n s')
      end
  end.

Definition Replace (s old new : string) (n : Z) : string :=
  if String.eqb old new || (n =? 0) then s else Replace_go old new 0 n s.

(** [strings.HasSuffix(s, suffix)]:
  [len(s) >= len(suffix) && s[len(s)-len(suffix):] == suffix]. *)
Definition HasSuffix (s suffix : string) : bool :=
(len suffix <=? len s) &&
String.eqb (sdrop (String.length s - String.length suffix) s) suffix.

(** [strings.ToUpper] on a one-byte string, as [getViewName] applies it to
    [viewName[0:1]]: an ASCII lower-case letter is upper-cased, any other
    ASCII byte is kept, and a byte from [0x80] on is not valid UTF-8 by
    itself, so that [strings.Map] writes U+FFFD in its place. *)
Definition ToUpper1 (c : ascii) : string :=
  let b := byte_of c in
  if b <? 128 then
    if (97 <=? b) && (b <=? 122)
    then String (ascii_of_N (Z.to_N (b - 32))) EmptyString
    else String c EmptyString
  else String (ascii_of_N 239) (String (ascii_of_N 191) (String (ascii_of_N 189) EmptyString)).

End GoStrings.

(** ** Packages [unicode/utf8] and [unicode] *)

Definition rune := Z.

Module utf8.

Definition RuneError : rune := 65533.
Definition RuneSelf : Z := 128.
Definition UTFMax : Z := 4.

Definition byte_at (s : string) (i : nat) : Z :=
  match String.get i s with
  | Some c => byte_of c
  | None => 0
  end.

(** The table [first] with [acceptRanges]: for a leading byte, the size
    of the sequence and the range accepted for its second byte; [None]
    for the bytes that cannot start a multi-byte sequence. *)
Definition first (b : Z) : option (nat * Z * Z) :=
  if b <? 194 then None
  else if b <=? 223 then Some (2%nat, 128, 191)
  else if b =? 224 then Some (3%nat, 160, 191)
  else if b =? 237 then Some (3%nat, 128, 159)
  else if b <=? 239 then Some (3%nat, 128, 191)
  else if b =? 240 then Some (4%nat, 144, 191)
  else if b <=? 243 then Some (4%nat, 128, 191)
  else if b =? 244 then Some (4%nat, 128, 143)
  else None.

Definition cont (b : Z) : bool := (128 <=? b) && (b <=? 191).

(** [utf8.DecodeRuneInString]: the rune and its width in bytes; an
    invalid or short sequence is [(RuneError, 1)], the empty string
    [(RuneError, 0)]. *)
Definition DecodeRuneInString (s : string) : rune * nat :=
  match s with
  | EmptyString => (RuneError, 0%nat)
  | String c0 _ =>
      let s0 := byte_of c0 in
      if s0 <? RuneSelf then (s0, 1%nat)
      else match first s0 with
           | None => (RuneError, 1%nat)
           | Some (sz, lo, hi) =>
               if (String.length s <? sz)%nat then (RuneError, 1%nat)
               else
                 let s1 := byte_at s 1 in
                 if (s1 <? lo) || (hi <? s1) then (RuneError, 1%nat)
                 else if (sz <=? 2)%nat
                 then (Z.lor (Z.shiftl (Z.land s0 31) 6) (Z.land s1 63), 2%nat)
                 else
                   let s2 := byte_at s 2 in
                   if negb (cont s2) then (RuneError, 1%nat)
                   else if (sz <=? 3)%nat
                   then (Z.lor (Z.lor (Z.shiftl (Z.land s0 15) 12)
                                      (Z.shiftl (Z.land s1 63) 6))
                               (Z.land s2 63), 3%nat)
                   else
                     let s3 := byte_at s 3 in
                     if negb (cont s3) then (RuneError, 1%nat)
                     else (Z.lor (Z.lor (Z.lor (Z.shiftl (Z.land s0 7) 18)
                                               (Z.shiftl (Z.land s1 63) 12))
                                        (Z.shiftl (Z.land s2 63) 6))
                                 (Z.land s3 63), 4%nat)
           end
  end.

(** [utf8.RuneStart]: not a continuation byte. *)
Definition RuneStart (b : Z) : bool := negb (Z.land b 192 =? 128).

(** The backwards scan of [DecodeLastRuneInString]: from [start], go down
    to [lim] and stop at the first byte that can start a rune. *)
Fixpoint scan_start (s : string) (start : Z) (lim : Z) (fuel : nat) : Z :=
  match fuel with
  | O => start
  | S fuel' =>
      if start <? lim then start
      else if RuneStart (byte_at s (Z.to_nat start)) then start
      else scan_start s (start - 1) lim fuel'
  end.

(** [utf8.DecodeLastRuneInString]. The scan looks at no more than
    [UTFMax - 1] bytes, which bounds its loop. *)
Definition DecodeLastRuneInString (s : string) : rune * nat :=
  let e := len s in
  if e =? 0 then (RuneError, 0%nat)
  else
    let r := byte_at s (Z.to_nat (e - 1)) in
    if r <? RuneSelf then (r, 1%nat)
    else
      let lim := Z.max 0 (e - UTFMax) in
      let start := Z.max 0 (scan_start s (e - 2) lim 3) in
      let '(r', size) :=
        DecodeRuneInString (stake (Z.to_nat (e - start)) (sdrop (Z.to_nat start) s)) in
      if negb (start + Z.of_nat size =? e) then (RuneError, 1%nat)
      else (r', size).

End utf8.

Module unicode.

(** [unicode.IsSpace]: in Latin-1 the six ASCII controls and blanks, NEL
    and NBSP; beyond it the characters of the [White_Space] property. *)
Definition IsSpace (r : rune) : bool :=
  if r <=? 255 then
    (r =? 9) || (r =? 10) || (r =? 11) || (r =? 12) || (r =? 13) ||
    (r =? 32) || (r =? 133) || (r =? 160)
  else
    (r =? 5760) || ((8192 <=? r) && (r <=? 8202)) || (r =? 8232) ||
    (r =? 8233) || (r =? 8239) || (r =? 8287) || (r =? 12288).

End unicode.

(** [strings.TrimFunc] and the two searches it is built from. *)
Module GoTrim.

(** [indexFunc]: the byte index of the first rune [r] of [s], decoded as
    [range] does, with [f r = truth]; [-1] when there is none. [skip]
    counts the bytes of the current rune still to be passed over. *)
Fixpoint indexFunc_go (f : rune -> bool) (truth : bool) (skip : nat) (i : Z)
    (s : string) : Z :=
  match s with
  | EmptyString => -1
  | String _ s' =>
      match skip with
      | S k => indexFunc_go f truth k (i + 1) s'
      | O =>
          let '(r, size) := utf8.DecodeRuneInString s in
          if Bool.eqb (f r) truth then i
          else indexFunc_go f truth (size - 1) (i + 1) s'
      end
  end.

Definition indexFunc (s : string) (f : rune -> bool) (truth : bool) : Z :=
  indexFunc_go f truth 0 0 s.

(** [lastIndexFunc]: the loop [for i := len(s); i > 0; ] that decodes the
    last rune of [s[0:i]], steps [i] back by its size and returns [i] at
    the first rune with [f r = truth]. The recursion visits every [i]
    from [len(s)] down and passes over those inside a rune. *)
Fixpoint lastIndexFunc_go (f : rune -> bool) (truth : bool) (s : string)
    (skip : nat) (i : nat) : Z :=
  match i with
  | O => -1
  | S i' =>
      match skip with
      | S k => lastIndexFunc_go f truth s k i'
      | O =>
          let '(r, size) := utf8.DecodeLastRuneInString (stake i s) in
          if Bool.eqb (f r) truth then Z.of_nat i - Z.of_nat size
          else lastIndexFunc_go f truth s (size - 1) i'
      end
  end.

Definition lastIndexFunc (s : string) (f : rune -> bool) (truth : bool) : Z :=
  lastIndexFunc_go f truth s 0 (String.length s).

Definition TrimLeftFunc (s : string) (f : rune -> bool) : string :=
  let i := indexFunc s f false in
  if i =? -1 then EmptyString else sdrop (Z.to_nat i) s.

Definition TrimRightFunc (s : string) (f : rune -> bool) : string :=
  let i := lastIndexFunc s f false in
  let i' :=
    if (0 <=? i) && (utf8.RuneSelf <=? utf8.byte_at s (Z.to_nat i))
    then i + Z.of_nat (snd (utf8.DecodeRuneInString (sdrop (Z.to_nat i) s)))
    else i + 1 in
  stake (Z.to_nat i') s.

Definition TrimFunc (s : string) (f : rune -> bool) : string :=
  TrimRightFunc (TrimLeftFunc s f) f.

End GoTrim.

(** A few characters the program names. *)
Definition nl : string := String (ascii_of_N 10) EmptyString.
Definition tab : string := String (ascii_of_N 9) EmptyString.
Definition nbsp : string := String (ascii_of_N 194) (String (ascii_of_N 160) EmptyString).

(** ** Package [html]: the parsed tree *)

Module html.

Inductive NodeType : Set :=
| ErrorNode | TextNode | DocumentNode | ElementNode | CommentNode | DoctypeNode.

Global Instance NodeType_eq_dec : EqDecision NodeType.
Proof. solve_decision. Defined.

Record Attribute : Set := MkAttr { Namespace : string; Key : string; Val : string }.

(** A node with its children in sibling order ([FirstChild] and then
    [NextSibling]). *)
#[local] Unset Elimination Schemes.
Inductive Node : Set :=
| MkNode (type : NodeType) (data : string) (attr : list Attribute) (kids : list Node).
#[local] Set Elimination Schemes.

Definition Type_ (n : Node) : NodeType := let 'MkNode t _ _ _ := n in t.
Definition Data (n : Node) : string := let 'MkNode _ d _ _ := n in d.
Definition Attr (n : Node) : list Attribute := let 'MkNode _ _ a _ := n in a.
Definition Children (n : Node) : list Node := let 'MkNode _ _ _ k := n in k.
Definition FirstChild (n : Node) : option Node := hd_error (Children n).

End html.
Import html.

(** A [*html.Node] inside the tree that is traversed: the position of the
    node, as the list of child indices from the traversal root. Two
    pointers are equal exactly when they are the same node of the tree. *)
Definition ptr : Set := list nat.

(** Go's [error], by its message. *)
Definition error : Set := string.

(** What a call can come to: a value, a returned [error], or a run-time
    panic. *)
Inductive outcome (A : Type) : Type :=
| Ok (a : A)
| Err (e : error)
| Panic.
Global Arguments Ok {A} a.
Global Arguments Err {A} e.
Global Arguments Panic {A}.

(** What the program takes from its libraries and its environment:
    [strings.ToLower], [html.Parse] and the reading of a file
    ([os.Open] with [ioutil.ReadAll]). *)
Class Platform : Type := {
  ToLower : string -> string;
  Parse : string -> error + Node;
  ReadAll : string -> error + string
}.

(** ** The generator: constants and state *)

Definition FieldRefAttr : string := "_ref".
Definition MockAttr : string := "_ignorecontent".
Definition TunnelledIdAttr : string := "_id".
Definition IdAttr : string := "id".
Definition DebugIdAttr : string := "debug-id".
Definition StripMeAttr : string := "_stripme".

Definition blockedAttrs : list string := [FieldRefAttr; MockAttr].

Record View : Set := MkView { ViewText : string; CssText : string }.

Record GeneratorOptions : Set := MkOptions {
  ViewBaseClass : string;
  ViewFactory : string;
  ImportLocation : string
}.

Record visitorData : Set := MkVisitor {
  options : GeneratorOptions;
  cssText : string;
  viewName : string;
  output : string;
  domConstruction : string;
  ignoreSubtree : bool;
  forceDebugIds : bool;
  refs : list string;
  appendStack : list ptr
}.

Definition with_cssText (c : string) (v : visitorData) : visitorData :=
  MkVisitor (options v) c (viewName v) (output v) (domConstruction v)
    (ignoreSubtree v) (forceDebugIds v) (refs v) (appendStack v).
Definition with_output (o : string) (v : visitorData) : visitorData :=
  MkVisitor (options v) (cssText v) (viewName v) o (domConstruction v)
    (ignoreSubtree v) (forceDebugIds v) (refs v) (appendStack v).
Definition with_domConstruction (d : string) (v : visitorData) : visitorData :=
  MkVisitor (options v) (cssText v) (viewName v) (output v) d
    (ignoreSubtree v) (forceDebugIds v) (refs v) (appendStack v).
Definition with_ignoreSubtree (b : bool) (v : visitorData) : visitorData :=
  MkVisitor (options v) (cssText v) (viewName v) (output v) (domConstruction v)
    b (forceDebugIds v) (refs v) (appendStack v).
Definition with_refs (r : list string) (v : visitorData) : visitorData :=
  MkVisitor (options v) (cssText v) (viewName v) (output v) (domConstruction v)
    (ignoreSubtree v) (forceDebugIds v) r (appendStack v).
Definition with_appendStack (s : list ptr) (v : visitorData) : visitorData :=
  MkVisitor (options v) (cssText v) (viewName v) (output v) (domConstruction v)
    (ignoreSubtree v) (forceDebugIds v) (refs v) s.

(** [v.domConstruction.append(text)] and [v.output.append(text)]. *)
Definition dom_append (text : string) (v : visitorData) : visitorData :=
  with_domConstruction (domConstruction v +:+ text) v.
Definition out_append (text : string) (v : visitorData) : visitorData :=
  with_output (output v +:+ text) v.

(** ** Private functions of the generator *)

Definition escapeText (text : string) : string :=
  GoStrings.Replace text "'" "\'" (-1).

(** [emitAttr] writes into the construction buffer of the visitor, the
    only builder it is ever called with. *)
Definition emitAttr (namespace key val : string) (v : visitorData) : visitorData :=
  let key := if negb (String.eqb namespace "") then namespace +:+ ":" +:+ key else key in
  dom_append (".setAttr('" +:+ key +:+ "', '" +:+ escapeText val +:+ "')") v.

Fixpoint contains (arr : list string) (val : string) : bool :=
  match arr with
  | [] => false
  | item :: arr' => if String.eqb item val then true else contains arr' val
  end.

Fixpoint getAttr_go (attrs : list Attribute) (attr : string) : string :=
  match attrs with
  | [] => ""
  | item :: attrs' => if String.eqb (Key item) attr then Val item else getAttr_go attrs' attr
  end.

Definition getAttr (node : Node) (attr : string) : string := getAttr_go (Attr node) attr.

Definition hasAttr (node : Node) (attr : string) : bool :=
  negb (String.eqb (getAttr node attr) "").

Fixpoint indent_loop (depth : nat) (acc : string) : string :=
  match depth with
  | O => acc
  | S d => indent_loop d (acc +:+ "  ")
  end.

Definition indent (depth : nat) : string :=
  nl +:+ "  " +:+ indent_loop depth "  ".

(** [getViewName]. The two slices cannot go out of range: [slashStart] is
    at most [len(fileName)], and [viewName] ends in [View]. *)
Definition getViewName (fileName : string) : string :=
  let slashStart := GoStrings.LastIndex fileName "/" in
  let slashStart := if slashStart <? 0 then 0 else slashStart + 1 in
  let viewName := sdrop (Z.to_nat slashStart) fileName in
  let viewName := GoStrings.Replace viewName ".htmto" "" 1 +:+ "View" in
  match viewName with
  | String c rest => GoStrings.ToUpper1 c +:+ rest
  | EmptyString => EmptyString
  end.

(** [debugIdFromViewName]: [viewName[0 : len(viewName)-len("View")]]; it
    is only applied to a name made by [getViewName], of four bytes or
    more. *)
Definition debugIdFromViewName (viewName : string) : string :=
  stake (String.length viewName - 4) viewName.

(** ** The TypeScript visitor *)

Section Generator.
Context `{!Platform}.

(** [transferAttrs]: the loop over [node.Attr]. *)
Fixpoint transferAttrs_go (node : Node) (attrs : list Attribute)
    (v : visitorData) : visitorData :=
  match attrs with
  | [] => v
  | attr :: attrs' =>
      if contains blockedAttrs (Key attr) ||
         (String.eqb (ToLower (Data node)) "tomato" && String.eqb (Key attr) "src")
      then transferAttrs_go node attrs' v
      else
        let key := if String.eqb TunnelledIdAttr (Key attr) then IdAttr else Key attr in
        transferAttrs_go node attrs' (emitAttr (Namespace attr) key (Val attr) v)
  end.

Definition transferAttrs (node : Node) (v : visitorData) : visitorData :=
  transferAttrs_go node (Attr node) v.

(** The predicate that [head] hands to [strings.TrimFunc]. *)
Definition trimmable (r : rune) : bool :=
  if r =? 160 then false else unicode.IsSpace r.

(** [head]: going down. [p] is the pointer [node]; the result carries the
    visitor as the call leaves it and the error it returns, if any. *)
Definition head (node : Node) (p : ptr) (depth : nat) (v : visitorData)
    : visitorData * option error :=
  if ignoreSubtree v then (v, None)
  else
    match Type_ node with
    | ElementNode =>
        let tagName := ToLower (Data node) in
        let v := dom_append (indent depth) v in
        match depth with
        | O =>
            let v := dom_append "this" (dom_append (indent depth)
                       (dom_append ("'));" +:+ nl) (dom_append tagName
                         (dom_append "super(doc.createElement('" v)))) in
            let v :=
              if forceDebugIds v && negb (hasAttr node DebugIdAttr)
              then emitAttr "" DebugIdAttr (debugIdFromViewName (viewName v)) v
              else v in
            (transferAttrs node v, None)
        | S _ =>
            let v := with_appendStack (appendStack v ++ [p]) v in
            let v := dom_append ".append(" v in
            let fieldName := getAttr node FieldRefAttr in
            let hasFieldName := negb (String.eqb fieldName "") in
            let v :=
              if hasFieldName
              then dom_append " = " (dom_append fieldName (dom_append "this." v))
              else v in
            if String.eqb tagName "tomato" then
              let v := with_ignoreSubtree true v in
              let src := getAttr node "src" in
              if String.eqb src "" then
                (v, Some "Tomato element with no 'src' attribute!")
              else
                let viewName := getViewName src in
                let v := dom_append "(doc)" (dom_append viewName (dom_append ">new "
                           (dom_append viewName (dom_append "<" v)))) in
                let v :=
                  if hasFieldName
                  then with_refs (refs v ++ [fieldName +:+ ": " +:+ viewName]) v
                  else v in
                (transferAttrs node v, None)
            else
              let v := dom_append "', doc)" (dom_append tagName (dom_append "('"
                         (dom_append (ViewFactory (options v)) v))) in
              let v :=
                if hasFieldName
                then with_refs
                       (refs v ++ [fieldName +:+ ": " +:+ ViewBaseClass (options v)]) v
                else v in
              (transferAttrs node v, None)
        end
    | TextNode =>
        if negb (String.eqb "" (GoTrim.TrimFunc (Data node) trimmable)) then
          (dom_append "')"
             (dom_append (escapeText (GoStrings.Replace (Data node) nl "" (-1)))
                (dom_append ".appendText('" v)), None)
        else (v, None)
    | _ => (v, None)
    end.

(** [tail]: popping back up. *)
Definition tail (node : Node) (p : ptr) (depth : nat) (v : visitorData)
    : visitorData :=
  match last (appendStack v) with
  | Some q =>
      if decide (q = p) then
        with_ignoreSubtree false
          (dom_append ")" (with_appendStack (removelast (appendStack v)) v))
      else v
  | None => v
  end.

Definition setCss (css : string) (v : visitorData) : visitorData := with_cssText css v.
Definition getCss (v : visitorData) : string := cssText v.
Definition getView (v : visitorData) : string := output v.

Definition emitPreamble (v : visitorData) : visitorData :=
  out_append " {" (out_append (ViewBaseClass (options v)) (out_append " extends "
    (out_append (viewName v) (out_append (nl +:+ "export class ") v)))).

(** The loop of [emitElementRefs]; the element that is [refs.Back()] is
    the last one of the list. *)
Fixpoint emitElementRefs_go (l : list string) (v : visitorData) : visitorData :=
  match l with
  | [] => v
  | fieldDecl :: l' =>
      let v := out_append ";" (out_append fieldDecl (out_append (nl +:+ "  ") v)) in
      let v := match l' with [] => out_append nl v | _ => v end in
      emitElementRefs_go l' v
  end.

Definition emitElementRefs (v : visitorData) : visitorData :=
  emitElementRefs_go (refs v) v.

Definition emitDomConstruction (v : visitorData) : visitorData :=
  out_append (";" +:+ nl +:+ "  }")
    (out_append (domConstruction v)
       (out_append (nl +:+ "  constructor(doc: Document = document) {") v)).

Definition emitPostamble (v : visitorData) : visitorData :=
  out_append (nl +:+ "}" +:+ nl) v.

(** The private [generateView(v viewGenerator)]. *)
Definition generateView_of (v : visitorData) : string :=
  getView (emitPostamble (emitDomConstruction (emitElementRefs (emitPreamble v)))).

(** ** The loader: [walk] and its helpers *)

(** The closure [traverse] of [walk], on a node that is not [nil]. *)
Fixpoint traverse (n : Node) (p : ptr) (depth : nat) (v : visitorData)
    {struct n} : visitorData * option error :=
  match head n p depth v with
  | (v1, Some err) => (v1, Some err)
  | (v1, None) =>
      let '(v2, r) :=
        (fix children (cs : list Node) (i : nat) (v : visitorData)
           : visitorData * option error :=
           match cs with
           | [] => (v, None)
           | c :: cs' =>
               match traverse c (p ++ [i]) (S depth) v with
               | (v', Some err) => (v', Some err)
               | (v', None) => children cs' (S i) v'
               end
           end)
          (match n with MkNode _ _ _ k => k end) O v1 in
      match r with
      | Some err => (v2, Some err)
      | None => (tail n p depth v2, None)
      end
  end.

(** The loop over the children of a node, from the child of index [i]. *)
Fixpoint traverse_children (cs : list Node) (p : ptr) (i : nat) (depth : nat)
    (v : visitorData) : visitorData * option error :=
  match cs with
  | [] => (v, None)
  | c :: cs' =>
      match traverse c (p ++ [i]) (S depth) v with
      | (v', Some err) => (v', Some err)
      | (v', None) => traverse_children cs' p (S i) depth v'
      end
  end.

(** The closure [findRoot] of [walk]. *)
Fixpoint findRoot (n : Node) : option Node :=
  match n with
  | MkNode _ data _ kids =>
      if String.eqb data "body" then hd_error kids
      else
        (fix search (cs : list Node) : option Node :=
           match cs with
           | [] => None
           | c :: cs' =>
               match findRoot c with
               | Some rootElem => Some rootElem
               | None => search cs'
               end
           end) kids
  end.

Fixpoint firstElement (cs : list Node) : option Node :=
  match cs with
  | [] => None
  | c :: cs' => if decide (Type_ c = ElementNode) then Some c else firstElement cs'
  end.

Definition firstNonWhiteSpaceChild (n : Node) : Node :=
  match firstElement (Children n) with
  | Some c => c
  | None => n
  end.

Fixpoint strip_go (rootElem : Node) (attrs : list Attribute) : Node :=
  match attrs with
  | [] => rootElem
  | attr :: attrs' =>
      if String.eqb (Key attr) StripMeAttr then
        let c := firstNonWhiteSpaceChild rootElem in
        if String.eqb (Data c) "tbody" then firstNonWhiteSpaceChild c else c
      else strip_go rootElem attrs'
  end.

(** [strip], on a pointer that may be [nil]. *)
Definition strip (rootElem : option Node) : option Node :=
  match rootElem with
  | None => None
  | Some r => Some (strip_go r (Attr r))
  end.

(** The first step of [walk] on the text of the file: the style sheet
    that is split off, if any, and the markup that is left. *)
Definition slurpCss (contents : string) : outcome (option string * string) :=
  let start := GoStrings.LastIndex contents "<style>" in
  let end_ := GoStrings.LastIndex contents "</style>" in
  if (0 <=? start) && (0 <=? end_) then
    match slice contents (start + len "<style>") end_ with
    | None => Panic
    | Some css => Ok (Some css, stake (Z.to_nat start) contents)
    end
  else Ok (None, contents).

(** [traverse(rootElem, 0)], with its test for [nil]. *)
Definition traverse_root (fileName : string) (rootElem : option Node)
    (v : visitorData) : visitorData * option error :=
  match rootElem with
  | None => (v, Some ("Template cannot be empty: " +:+ fileName))
  | Some n => traverse n [] 0 v
  end.

(** The rest of [walk], from the parsed document. *)
Definition walk_doc (fileName : string) (doc : Node) (v : visitorData)
    : visitorData * option error :=
  traverse_root fileName (strip (findRoot doc)) v.

Definition walk (fileName : string) (v : visitorData) : outcome visitorData :=
  match ReadAll fileName with
  | inl err => Err err
  | inr contents =>
      match slurpCss contents with
      | Panic => Panic
      | Err err => Err err
      | Ok (css, contents) =>
          let v := match css with Some c => setCss c v | None => v end in
          match Parse contents with
          | inl err => Err err
          | inr doc =>
              match walk_doc fileName doc v with
              | (_, Some err) => Err err
              | (v', None) => Ok v'
              end
          end
      end
  end.

(** The visitor that [generateView] starts from. *)
Definition newVisitor (opts : GeneratorOptions) (fileName : string)
    (forceDebugIds : bool) : visitorData :=
  MkVisitor opts "" (getViewName fileName) "" "" false forceDebugIds [] [].

(** The method [generateView] of the TypeScript generator. *)
Definition generateView (opts : GeneratorOptions) (fileName : string)
    (forceDebugIds : bool) : outcome (string * string) :=
  match walk fileName (newVisitor opts fileName forceDebugIds) with
  | Ok v => Ok (generateView_of v, getCss v)
  | Err err => Err err
  | Panic => Panic
  end.

Fixpoint GenerateViews_go (opts : GeneratorOptions) (files : list string)
    (forceDebugIds : bool) (views : gmap string View) : outcome (gmap string View) :=
  match files with
  | [] => Ok views
  | file :: files' =>
      match generateView opts file forceDebugIds with
      | Ok (view, css) =>
          GenerateViews_go opts files' forceDebugIds (<[file := MkView view css]> views)
      | Err err => Err err
      | Panic => Panic
      end
  end.

Definition GenerateViews (opts : GeneratorOptions) (files : list string)
    (forceDebugIds : bool) : outcome (gmap string View) :=
  GenerateViews_go opts files forceDebugIds ∅.

End Generator.

(** ** The output aggregator ([tomato.go]) *)

(** The files the program writes to. [contents] holds the files that
    exist, with their bytes. The permissions are sets of paths, which no
    call of the program changes: [ReadFile] is refused on the paths in
    [unreadable], [WriteFile] on the paths in [locked] and [MkdirAll] on
    the directories in [nomkdir]. [written] is the record of the calls of
    [WriteFile] that went through, oldest first, each of which gives its
    file a new modification time. *)
Record FileSystem : Type := MkFS {
  contents : gmap string string;
  unreadable : gset string;
  locked : gset string;
  nomkdir : gset string;
  written : list string
}.

(** [ioutil.ReadFile]: fails on a file that does not exist and on one
    that the process may not read. *)
Definition ReadFile (fs : FileSystem) (filename : string) : option string :=
  if decide (filename ∈ unreadable fs) then None else contents fs !! filename.

(** [ioutil.WriteFile]: the file is created or truncated and receives
    the data. The mode of a file that exists is left as it is, and the
    mode argument of a new file goes through the mask of the process, so
    that the file is as readable afterwards as its path was before. *)
Definition WriteFile (fs : FileSystem) (filename data : string)
    : FileSystem * option error :=
  if decide (filename ∈ locked fs)
  then (fs, Some ("open " +:+ filename +:+ ": permission denied"))
  else (MkFS (<[filename := data]> (contents fs)) (unreadable fs) (locked fs) (nomkdir fs)
          (written fs ++ [filename]), None).

Definition MkdirAll (fs : FileSystem) (dir : string) : option error :=
  if decide (dir ∈ nomkdir fs)
  then Some ("mkdir " +:+ dir +:+ ": permission denied")
  else None.

(** [bytes.Compare]: [-1], [0] or [1] by the lexicographic order of the
    bytes. *)
Definition bytes_Compare (a b : string) : Z :=
  match String.compare a b with
  | Eq => 0
  | Lt => -1
  | Gt => 1
  end.

Definition existingFileContentMatches (fs : FileSystem) (filename expectedData : string)
    : bool :=
  match ReadFile fs filename with
  | None => false
  | Some actualData =>
      if negb (len expectedData =? len actualData) then false
      else bytes_Compare expectedData actualData =? 0
  end.

Definition writeFileIfChanged (fs : FileSystem) (filename data : string)
    : FileSystem * option error :=
  if existingFileContentMatches fs filename data then (fs, None)
  else WriteFile fs filename data.

(** [sort.Strings]. The order of Go's strings is the lexicographic order
    of their bytes, which is total and antisymmetric, so that a list has
    one sorted arrangement only, whatever the algorithm. *)
Definition sort_Strings (keys : list string) : list string :=
  merge_sort String.le keys.

Definition EmitPreamble (opts : GeneratorOptions) (buffer : string) : string :=
  buffer +:+ "import { " +:+ ViewBaseClass opts +:+ ", " +:+ ViewFactory opts +:+
  " } from '" +:+ ImportLocation opts +:+ "';".

Definition EmitPostamble (opts : GeneratorOptions) (buffer : string) : string := buffer.

(** The loop of [writeTomatoOutput] over the sorted keys, on the two
    buffers. [views[key]] on a key that the map does not hold is a [nil]
    pointer, whose field cannot be read. *)
Fixpoint concatViews (views : gmap string View) (keys : list string)
    (viewText cssText : string) : outcome (string * string) :=
  match keys with
  | [] => Ok (viewText, cssText)
  | key :: keys' =>
      match views !! key with
      | None => Panic
      | Some content =>
          let viewText := (viewText +:+ ViewText content) +:+ nl +:+ nl in
          let cssText :=
            if negb (String.eqb (CssText content) "")
            then (cssText +:+ CssText content) +:+ nl +:+ nl
            else cssText in
          concatViews views keys' viewText cssText
      end
  end.

(** The texts of the two output files. [enum] is the order in which
    [range views] happens to yield the keys of the map. *)
Definition aggregate (enum : list string) (views : gmap string View)
    (opts : GeneratorOptions) : outcome (string * string) :=
  let viewText := EmitPreamble opts "" in
  let keys := sort_Strings enum in
  match concatViews views keys viewText "" with
  | Ok (viewText, cssText) => Ok (EmitPostamble opts viewText, cssText)
  | Err e => Err e
  | Panic => Panic
  end.

Section Output.
(** [filepath.Dir], of package [path/filepath]. *)
Context (filepath_Dir : string -> string).

Definition writeTomatoOutput (enum : list string) (outFile : string)
    (views : gmap string View) (opts : GeneratorOptions) (fs : FileSystem)
    : FileSystem * outcome unit :=
  match aggregate enum views opts with
  | Panic => (fs, Panic)
  | Err e => (fs, Err e)
  | Ok (viewText, css) =>
      match MkdirAll fs (filepath_Dir outFile) with
      | Some err => (fs, Err err)
      | None =>
          match slice outFile 0 (GoStrings.LastIndex outFile ".") with
          | None => (fs, Panic)
          | Some stem =>
              let cssOutFile := stem +:+ ".scss" in
              match writeFileIfChanged fs cssOutFile css with
              | (fs1, Some err) => (fs1, Err err)
              | (fs1, None) =>
                  match writeFileIfChanged fs1 outFile viewText with
                  | (fs2, Some err) => (fs2, Err err)
                  | (fs2, None) => (fs2, Ok tt)
                  end
              end
          end
      end
  end.

End Output.

(** ** The slices of [getViewName] and [debugIdFromViewName], checked

    The two functions once more, with every slice expression as Go
    evaluates it: [None] is the panic of a slice out of range. *)

Definition getViewName_go (fileName : string) : option string :=
  let slashStart := GoStrings.LastIndex fileName "/" in
  let slashStart := if slashStart <? 0 then 0 else slashStart + 1 in
  match slice fileName slashStart (len fileName) with
  | None => None
  | Some viewName =>
      let viewName := GoStrings.Replace viewName ".htmto" "" 1 +:+ "View" in
      match slice viewName 0 1, slice viewName 1 (len viewName) with
      | Some (String c EmptyString), Some rest => Some (GoStrings.ToUpper1 c +:+ rest)
      | _, _ => None
      end
  end.

Definition debugIdFromViewName_go (viewName : string) : option string :=
  slice viewName 0 (len viewName - len "View").

(** ** The entry point ([tomato.go]) *)

Definition tomatoFileExtension : string := ".htmto".

Definition Language : Set := Z.
Definition TypeScript : Language := 0.

(** [MakeTomatoGenerator]: the generator is its options. *)
Definition MakeTomatoGenerator (language : Language) (opts : GeneratorOptions)
    : error + GeneratorOptions :=
  if language =? TypeScript then inr opts else inl "Language not supported".

(** [getLanguage] of the command: [log.Panic] on any language but [ts]. *)
Definition getLanguage (language : string) : outcome Language :=
  if negb (String.eqb "ts" language) then Panic else Ok TypeScript.

(** One call of the function that [collectTomatoFiles] hands to
    [filepath.Walk]: the path, what [info] reports (its name and whether
    it is a directory) and the error of the walk at this path, if any, in
    which case [info] is not looked at. *)
Record visit : Set := MkVisit {
  visit_path : string;
  visit_name : string;
  visit_isDir : bool;
  visit_err : option error
}.

(** The function literal of [collectTomatoFiles], on the list [l]. *)
Definition collect_visit (x : visit) (l : list string) : list string * option error :=
  match visit_err x with
  | Some err => (l, Some err)
  | None =>
      if negb (visit_isDir x) && GoStrings.HasSuffix (visit_name x) tomatoFileExtension
      then (l ++ [visit_path x], None)
      else (l, None)
  end.

(** [filepath.Walk] with that function, on the calls that the walk has to
    make, in its order: the walk ends at the first call that returns an
    error and returns it (the function returns no error but the one it is
    given, which is never [SkipDir]). *)
Fixpoint Walk_go (visits : list visit) (l : list string) : list string * option error :=
  match visits with
  | [] => (l, None)
  | x :: visits' =>
      match collect_visit x l with
      | (l', Some err) => (l', Some err)
      | (l', None) => Walk_go visits' l'
      end
  end.

Section Entry.
Context `{!Platform}.
(** The calls that [filepath.Walk] makes from a root, [filepath.Dir], and
  the order in which [range] yields the keys of a map. *)
Context (filepath_Walk : string -> list visit).
Context (filepath_Dir : string -> string).
Context (range_keys : gmap string View -> list string).

Definition collectTomatoFiles (root : string) : error + list string :=
match Walk_go (filepath_Walk root) [] with
| (_, Some err) => inl err
| (l, None) => inr l
end.

(** [GenerateTomatoes], with [opts] the options that the pointer refers
  to. *)
Definition GenerateTomatoes (viewDir outFile : string) (language : Language)
  (opts : GeneratorOptions) (forceDebugIds : bool) (fs : FileSystem)
  : FileSystem * outcome unit :=
match collectTomatoFiles viewDir with
| inl err => (fs, Err err)
| inr files =>
    match MakeTomatoGenerator language opts with
    | inl err => (fs, Err err)
    | inr generator =>
        match GenerateViews generator files forceDebugIds with
        | Err err => (fs, Err err)
        | Panic => (fs, Panic)
        | Ok views =>
            writeTomatoOutput filepath_Dir (range_keys views) outFile views generator fs
        end
    end
end.

(** The earlier [writeTomatoOutput] of the file, which writes both files
  with [ioutil.WriteFile], changed or not. *)
Definition writeTomatoOutput_unconditional (enum : list string) (outFile : string)
  (views : gmap string View) (opts : GeneratorOptions) (fs : FileSystem)
  : FileSystem * outcome unit :=
match aggregate enum views opts with
| Panic => (fs, Panic)
| Err e => (fs, Err e)
| Ok (viewText, css) =>
    match MkdirAll fs (filepath_Dir outFile) with
    | Some err => (fs, Err err)
    | None =>
        match slice outFile 0 (GoStrings.LastIndex outFile ".") with
        | None => (fs, Panic)
        | Some stem =>
            let cssOutFile := stem +:+ ".scss" in
            match WriteFile fs cssOutFile css with
            | (fs1, Some err) => (fs1, Err err)
            | (fs1, None) =>
                match WriteFile fs1 outFile viewText with
                | (fs2, Some err) => (fs2, Err err)
                | (fs2, None) => (fs2, Ok tt)
                end
            end
        end
    end
end.

End Entry.

(** ** The view library ([view.ts]): the classes of an element

    A JavaScript string is a sequence of 16-bit code units, here a list of
    numbers; the functions below compare, split and join strings and do
    nothing else with their units. *)

Module JS.

Definition jsstring : Type := list N.

Definition space : jsstring := [32%N].
Definition comma : jsstring := [44%N].

(** [s.split(' ')]: the pieces of [s] between the spaces; [cur] is the
  piece that is being read. The empty string gives one empty piece. *)
Fixpoint split_go (s cur : jsstring) : list jsstring :=
match s with
| [] => [cur]
| x :: s' => if (x =? 32)%N then cur :: split_go s' [] else split_go s' (cur ++ [x])
end.

Definition split (s : jsstring) : list jsstring := split_go s [].

(** [l.join(sep)]. *)
Fixpoint join (sep : jsstring) (l : list jsstring) : jsstring :=
match l with
| [] => []
| [x] => x
| x :: l' => x ++ sep ++ join sep l'
end.

(** [l.indexOf(x)]. *)
Fixpoint indexOf_from (i : Z) (l : list jsstring) (x : jsstring) : Z :=
match l with
| [] => -1
| y :: l' => if decide (y = x) then i else indexOf_from (i + 1) l' x
end.

Definition indexOf (l : list jsstring) (x : jsstring) : Z := indexOf_from 0 l x.

(** An element, as far as its classes go: whether it has a [classList],
  and its [className]. *)
Record Element : Type := MkElement { classList : bool; className : jsstring }.

Definition setClass (e : Element) (c : jsstring) : Element := MkElement (classList e) c.

Section Classes.
(** The methods of [classList], which a browser provides, on the class
  names of the element. *)
Context (classList_contains : jsstring -> jsstring -> bool).
Context (classList_add classList_remove : jsstring -> list jsstring -> jsstring).
Context (classList_toggle : jsstring -> jsstring -> jsstring).

Definition hasClass (e : Element) (c : jsstring) : bool :=
if classList e then classList_contains (className e) c
else if decide (className e = []) then false
else negb (indexOf (split (className e)) c =? -1).

(** The loop of [addClass]: [classes] is read once before the loop, and
  what is appended is a space and the array [c] itself, which
  JavaScript turns into its elements joined by commas. *)
Fixpoint addClass_go (classes : list jsstring) (c : list jsstring) (rest : list jsstring)
  (e : Element) : Element :=
match rest with
| [] => e
| cn :: rest' =>
    let e :=
      if indexOf classes cn =? -1
      then setClass e (className e ++ space ++ join comma c)
      else e in
    addClass_go classes c rest' e
end.

Definition addClass (e : Element) (c : list jsstring) : Element :=
if classList e then setClass e (classList_add (className e) c)
else if decide (className e = []) then setClass e (join space c)
else addClass_go (split (className e)) c c e.

(** The loop of [removeClass] on the array [list]; [list.splice(idx, 1)]
  takes the element at [idx] out. *)
Fixpoint removeClass_go (c : list jsstring) (list_ : list jsstring) : list jsstring :=
match c with
| [] => list_
| cn :: c' =>
    let idx := indexOf list_ cn in
    if idx =? -1 then removeClass_go c' list_
    else removeClass_go c' (delete (Z.to_nat idx) list_)
end.

Definition removeClass (e : Element) (c : list jsstring) : Element :=
if classList e then setClass e (classList_remove (className e) c)
else if decide (className e = []) then e
else setClass e (join space (removeClass_go c (split (className e)))).

Definition toggleClass (e : Element) (c : jsstring) : Element :=
if classList e then setClass e (classList_toggle (className e) c)
else if hasClass e c then removeClass e [c] else addClass e [c].

Definition switchClass (e : Element) (c : jsstring) (on : bool) : Element :=
if on then addClass e [c] else removeClass e [c].

End Classes.

End JS.

(** * The specification

    The definitions in which the properties are stated. *)

(** The concatenation of a list of texts. *)
Definition sconcat (l : list string) : string := foldr String.append "" l.

(** ** The output aggregator *)

(** The strict order of Go's strings. *)
Definition string_lt (a b : string) : Prop := String.ltb a b = true.

(** What one file contributes to the combined view text and to the
    combined style sheet. *)
Definition view_chunk (views : gmap string View) (p : string) : string :=
  match views !! p with
  | Some c => ViewText c +:+ nl +:+ nl
  | None => ""
  end.

Definition css_chunk (views : gmap string View) (p : string) : string :=
  match views !! p with
  | Some c => if negb (String.eqb (CssText c) "") then CssText c +:+ nl +:+ nl else ""
  | None => ""
  end.

Definition opts0 : GeneratorOptions := MkOptions "View" "createView" "../ts/src/view".
Definition fs0 : FileSystem := MkFS ∅ ∅ ∅ ∅ [].
Definition views0 : gmap string View :=
  <["b.htmto" := MkView "class BView {}" ".b {}"]>
    (<["a.htmto" := MkView "class AView {}" ""]> ∅).

(** A file system in which the output file exists and cannot be read. *)
Definition fs_hidden : FileSystem :=
  MkFS (<["gen/views.ts" := "old"]> ∅) {["gen/views.ts"]} ∅ ∅ [].

(** ** Escaping and trimming *)

Definition newline : ascii := ascii_of_N 10.
Definition quote : ascii := "'"%char.

(** The text with every newline removed. *)
Fixpoint remove_newlines (s : string) : string :=
  match s with
  | EmptyString => EmptyString
  | String c s' =>
      if decide (c = newline) then remove_newlines s' else String c (remove_newlines s')
  end.

(** The text with a backslash put before every single quote. *)
Fixpoint escape_quotes (s : string) : string :=
  match s with
  | EmptyString => EmptyString
  | String c s' =>
      if decide (c = quote) then "\'" +:+ escape_quotes s' else String c (escape_quotes s')
  end.

(** The blanks of ASCII: tab, newline, vertical tab, form feed, carriage
    return and space. *)
Definition ordinary_space (c : ascii) : bool :=
  let b := byte_of c in
  (b =? 9) || (b =? 10) || (b =? 11) || (b =? 12) || (b =? 13) || (b =? 32).

Fixpoint all_bytes (P : ascii → bool) (s : string) : bool :=
  match s with
  | EmptyString => true
  | String c s' => P c && all_bytes P s'
  end.

Section AttributesSpec.
Context `{!Platform}.

Definition is_tomato (node : Node) : bool := String.eqb (ToLower (Data node)) "tomato".

(** An attribute is kept unless its key is on the block-list, or is
    [src] on a [tomato] node. *)
Definition kept (node : Node) (a : Attribute) : bool :=
  negb (bool_decide (Key a = "_ref" ∨ Key a = "_ignorecontent")) &&
  negb (is_tomato node && bool_decide (Key a = "src")).

(** The key under which a kept attribute is set: [id] for [_id], and the
    name space in front when there is one. *)
Definition emitted_key (a : Attribute) : string :=
  let key := if decide (Key a = "_id") then "id" else Key a in
  if decide (Namespace a = "") then key else Namespace a +:+ ":" +:+ key.

(** The attribute-set calls of a node, as pairs of key and value. *)
Definition transferred (node : Node) : list (string * string) :=
  (λ a, (emitted_key a, Val a)) <$> filter (λ a, kept node a = true) (Attr node).

(** The text of one attribute-set call. *)
Definition setAttr_call (kv : string * string) : string :=
  ".setAttr('" +:+ kv.1 +:+ "', '" +:+ escape_quotes kv.2 +:+ "')".

End AttributesSpec.

(** What the visitor writes into the construction buffer, piece by
    piece. *)
Inductive piece : Set :=
| Plain (text : string)
| OpenAppend
| Assign (field : string)
| Close.

Definition piece_text (x : piece) : string :=
  match x with
  | Plain text => text
  | OpenAppend => ".append("
  | Assign field => "this." +:+ field +:+ " = "
  | Close => ")"
  end.

Definition pieces_text (l : list piece) : string := sconcat (piece_text <$> l).

(** The append calls of a list of pieces are matched when each closing
    piece closes an open call and none is left open: [depth_after k l] is
    the number of open calls after [l], from [k] of them. *)
Fixpoint depth_after (k : nat) (l : list piece) : option nat :=
  match l with
  | [] => Some k
  | OpenAppend :: l' => depth_after (S k) l'
  | Close :: l' => match k with O => None | S k' => depth_after k' l' end
  | _ :: l' => depth_after k l'
  end.

Definition matched (l : list piece) : Prop := depth_after 0 l = Some 0%nat.

Section StructureSpec.
Context `{!Platform}.

(** An element below the root: the nodes for which [head] opens an
    append call when it is not suppressed. *)
Definition nested (n : Node) (depth : nat) : bool :=
  bool_decide (Type_ n = ElementNode) && negb (depth =? 0)%nat.

(** A nested-template reference. *)
Definition reference (n : Node) (depth : nat) : bool := nested n depth && is_tomato n.

Definition marker (n : Node) : string := getAttr n FieldRefAttr.

Definition marked (n : Node) : bool := negb (String.eqb (marker n) "").

Definition class_name (n : Node) : string := getViewName (getAttr n "src").

Definition declared_type (opts : GeneratorOptions) (n : Node) : string :=
  if is_tomato n then class_name n else ViewBaseClass opts.

Definition field_decl (opts : GeneratorOptions) (n : Node) : string :=
  marker n +:+ ": " +:+ declared_type opts n.

(** The expression that makes the object of a nested element. *)
Definition construct_text (opts : GeneratorOptions) (n : Node) : string :=
  if is_tomato n
  then "<" +:+ class_name n +:+ ">new " +:+ class_name n +:+ "(doc)"
  else ViewFactory opts +:+ "('" +:+ ToLower (Data n) +:+ "', doc)".

Definition attrs_text (n : Node) : string := sconcat (setAttr_call <$> transferred n).

(** What the root element writes. *)
Definition root_text (v : visitorData) (n : Node) : string :=
  indent 0 +:+ "super(doc.createElement('" +:+ ToLower (Data n) +:+ "'));" +:+ nl +:+
  indent 0 +:+ "this" +:+
  (if forceDebugIds v && negb (hasAttr n DebugIdAttr)
   then setAttr_call (DebugIdAttr, debugIdFromViewName (viewName v)) else "") +:+
  attrs_text n.

Definition text_call (n : Node) : string :=
  if decide (GoTrim.TrimFunc (Data n) trimmable = "") then ""
  else ".appendText('" +:+ escape_quotes (remove_newlines (Data n)) +:+ "')".

(** The pieces [head] writes for a node that is not suppressed. *)
Definition head_pieces (v : visitorData) (n : Node) (depth : nat) : list piece :=
  match Type_ n with
  | ElementNode =>
      match depth with
      | O => [Plain (root_text v n)]
      | S _ =>
          [Plain (indent depth); OpenAppend] ++
          (if marked n then [Assign (marker n)] else []) ++
          [Plain (construct_text (options v) n +:+ attrs_text n)]
      end
  | TextNode => [Plain (text_call n)]
  | _ => []
  end.

(** The visitor after [head] on a node that is not suppressed and, if
    it is a reference, has its source. *)
Definition after_head (v : visitorData) (n : Node) (p : ptr) (depth : nat) : visitorData :=
  let v1 := dom_append (pieces_text (head_pieces v n depth)) v in
  if nested n depth then
    with_refs (refs v ++ (if marked n then [field_decl (options v) n] else []))
      (with_ignoreSubtree (is_tomato n) (with_appendStack (appendStack v ++ [p]) v1))
  else v1.

End StructureSpec.

Definition no_src : error := "Tomato element with no 'src' attribute!".

Section TreeSpec.
Context `{!Platform}.

(** The pieces a traversal writes for a node that is not suppressed:
    those of [head], those of the children unless the node is a
    reference, and the closing of the append call of a nested element. *)
Fixpoint tree_pieces (v : visitorData) (n : Node) (depth : nat) : list piece :=
  head_pieces v n depth ++
  (if reference n depth then []
   else flat_map (λ c, tree_pieces v c (S depth)) (let 'MkNode _ _ _ kids := n in kids)) ++
  (if nested n depth then [Close] else []).

(** The field declarations it queues, in the order of the visit. *)
Fixpoint tree_decls (opts : GeneratorOptions) (n : Node) (depth : nat) : list string :=
  (if nested n depth && marked n then [field_decl opts n] else []) ++
  (if reference n depth then []
   else flat_map (λ c, tree_decls opts c (S depth)) (let 'MkNode _ _ _ kids := n in kids)).

(** No reference that is visited lacks its source. *)
Fixpoint accepted (n : Node) (depth : nat) : bool :=
  if reference n depth then negb (String.eqb (getAttr n "src") "")
  else forallb (λ c, accepted c (S depth)) (let 'MkNode _ _ _ kids := n in kids).

(** The visitor after the traversal of an accepted tree. *)
Definition grown (v : visitorData) (n : Node) (depth : nat) : visitorData :=
  with_refs (refs v ++ tree_decls (options v) n depth)
    (dom_append (pieces_text (tree_pieces v n depth)) v).

Definition grown_children (v : visitorData) (cs : list Node) (depth : nat) : visitorData :=
  with_refs (refs v ++ flat_map (λ c, tree_decls (options v) c (S depth)) cs)
    (dom_append (pieces_text (flat_map (λ c, tree_pieces v c (S depth)) cs)) v).

(** The pieces depend on the visitor through its configuration only,
    which no step of the traversal changes. *)
Definition same_config (v v' : visitorData) : Prop :=
  options v' = options v ∧ forceDebugIds v' = forceDebugIds v ∧ viewName v' = viewName v.

End TreeSpec.

(** No pointer of the stack is inside the subtree at [p]. *)
Definition fresh (p : ptr) (st : list ptr) : Prop := Forall (λ q, ¬ p `prefix_of` q) st.

Section VisitsSpec.
Context `{!Platform}.

(** The nodes a traversal visits while it is not suppressed, in the
    order of the document, each with its pointer and its depth: a node
    comes before its children, a child before the next one, and the
    children of a reference are left out. *)
Fixpoint preorder (n : Node) (p : ptr) (depth : nat) : list (ptr * Node * nat) :=
  (p, n, depth) ::
  (if reference n depth then []
   else
     (fix children (cs : list Node) (i : nat) : list (ptr * Node * nat) :=
        match cs with
        | [] => []
        | c :: cs' => preorder c (p ++ [i]) (S depth) ++ children cs' (S i)
        end) (let 'MkNode _ _ _ kids := n in kids) O).

Fixpoint preorder_children (cs : list Node) (p : ptr) (i : nat) (depth : nat)
    : list (ptr * Node * nat) :=
  match cs with
  | [] => []
  | c :: cs' => preorder c (p ++ [i]) (S depth) ++ preorder_children cs' p (S i) depth
  end.

(** The nodes that get a field: the nested elements with a marker. *)
Definition is_field (x : ptr * Node * nat) : bool := nested x.1.2 x.2 && marked x.1.2.

Definition field_nodes (root : Node) : list (ptr * Node * nat) :=
  filter (λ x, is_field x = true) (preorder root [] 0).

(** The fields the constructor assigns to, in the order of its text. *)
Definition assigned (l : list piece) : list string :=
  omap (λ x, match x with Assign f => Some f | _ => None end) l.

(** The text of the field declarations of the class. *)
Definition decls_text (decls : list string) : string :=
  sconcat ((λ d, nl +:+ "  " +:+ d +:+ ";") <$> decls) +:+
  (match decls with [] => "" | _ => nl end).

(** A reference without a source that a traversal comes to. *)
Definition dangling (x : ptr * Node * nat) : bool :=
  reference x.1.2 x.2 && String.eqb (getAttr x.1.2 "src") "".

End VisitsSpec.

(** ** Class names *)

Definition slash : ascii := "/"%char.
Definition dot : ascii := "."%char.

(** An ASCII letter in upper case, any other byte as it is. *)
Definition upper (c : ascii) : ascii :=
  let b := byte_of c in
  if (97 <=? b) && (b <=? 122) then ascii_of_N (Z.to_N (b - 32)) else c.

(** U+FFFD in UTF-8, which [strings.ToUpper] writes for a byte that is
    not valid UTF-8 by itself. *)
Definition replacement : string :=
  String (ascii_of_N 239) (String (ascii_of_N 191) (String (ascii_of_N 189) "")).

(** A text with its first byte in upper case, as an ASCII byte; a first
    byte from [0x80] on, the first of the bytes of a character that is
    not ASCII, is replaced by U+FFFD and the other bytes of the character
    stay. *)
Definition capitalised (s : string) : string :=
  match s with
  | EmptyString => EmptyString
  | String c rest =>
      (if byte_of c <? 128 then String (upper c) "" else replacement) +:+ rest
  end.

(** A platform to run examples on: [strings.ToLower] on ASCII text, a
    parser that answers with a given document and a file with a given
    text. *)
Definition lower_byte (c : ascii) : ascii :=
  let b := byte_of c in
  if (65 <=? b) && (b <=? 90) then ascii_of_N (Z.to_N (b + 32)) else c.

Fixpoint lower (s : string) : string :=
  match s with
  | EmptyString => EmptyString
  | String c s' => String (lower_byte c) (lower s')
  end.

Definition demo (text : string) (doc : Node) : Platform :=
  {| ToLower := lower; Parse := λ _, inr doc; ReadAll := λ _, inr text |}.

Definition element (tag : string) (attrs : list Attribute) (kids : list Node) : Node :=
  MkNode ElementNode tag attrs kids.
Definition text_node (data : string) : Node := MkNode TextNode data [] [].
Definition document (body_kids : list Node) : Node :=
  MkNode DocumentNode "" []
    [element "html" [] [element "head" [] []; element "body" [] body_kids]].

(** A visitor at the start of a traversal, and a document with a
    reference below its root. *)
Definition v0 : visitorData := MkVisitor opts0 "" "DemoView" "" "" false false [] [].

Definition nested_doc : Node :=
  document [element "div" [] [element "tomato" [MkAttr "" "src" "widgets/button.htmto";
                                                 MkAttr "" "class" "big"] []]].

Section ClassSpec.
Context `{!Platform}.

(** The text of the class of a template with the root [root]. *)
Definition class_text (v : visitorData) (root : Node) : string :=
  nl +:+ "export class " +:+ viewName v +:+ " extends " +:+
  ViewBaseClass (options v) +:+ " {" +:+
  decls_text ((λ x, field_decl (options v) x.1.2) <$> field_nodes root) +:+
  nl +:+ "  constructor(doc: Document = document) {" +:+
  pieces_text (tree_pieces v root 0) +:+ ";" +:+ nl +:+ "  }" +:+
  nl +:+ "}" +:+ nl.

End ClassSpec.

(** Two elements with the same marker. *)
Definition two_fields : Node :=
  element "div" [] [element "span" [MkAttr "" "_ref" "x"] [];
                    element "span" [MkAttr "" "_ref" "x"] []].

(** ** The root of the traversal *)

(** All the nodes of a document, in its order. *)
Fixpoint all_nodes (n : Node) : list Node :=
  n :: flat_map all_nodes (let 'MkNode _ _ _ kids := n in kids).

(** A node named [body] that has a child. *)
Definition body_with_child (m : Node) : bool :=
  String.eqb (Data m) "body" && bool_decide (Children m ≠ []).

(** The body element of a document, and the root that the claim names:
    its first element child. *)
Definition body_element (doc : Node) : option Node :=
  List.find (λ m, bool_decide (Type_ m = ElementNode) && String.eqb (Data m) "body")
    (all_nodes doc).

Section RootSpec.
Context `{!Platform}.

Definition claimed_root (doc : Node) : option Node :=
  body_element doc ≫= λ b, firstElement (Children b).

End RootSpec.

(** ** The traversal, call by call *)

(** The calls of the visitor: [head] when a node is entered, [tail] when
    it is left. *)
Inductive event : Set :=
| Enter (p : ptr) (n : Node) (depth : nat)
| Exit (p : ptr) (n : Node) (depth : nat).

Definition ptr_of (e : event) : ptr :=
  match e with Enter p _ _ | Exit p _ _ => p end.

(** The calls of the traversal of a tree, in their order. *)
Fixpoint events (n : Node) (p : ptr) (depth : nat) : list event :=
  Enter p n depth ::
  (fix children (cs : list Node) (i : nat) : list event :=
     match cs with
     | [] => []
     | c :: cs' => events c (p ++ [i]) (S depth) ++ children cs' (S i)
     end) (let 'MkNode _ _ _ kids := n in kids) O ++
  [Exit p n depth].

Fixpoint events_children (cs : list Node) (p : ptr) (i : nat) (depth : nat) : list event :=
  match cs with
  | [] => []
  | c :: cs' => events c (p ++ [i]) (S depth) ++ events_children cs' p (S i) depth
  end.

(** The node at [q] has been left in [l]. *)
Definition exited (q : ptr) (l : list event) : bool :=
  existsb (λ e, match e with Exit q' _ _ => bool_decide (q' = q) | _ => false end) l.

(** The event enters a nested element that is not suppressed ([U] tells
    which pointers are not) and has not been left in [ctx]. *)
Definition opens (U : ptr → bool) (ctx : list event) (e : event) : bool :=
  match e with
  | Enter q m dm => nested m dm && U q && negb (exited q ctx)
  | Exit _ _ _ => false
  end.

(** The nested elements, not suppressed, that [l] enters and [ctx] does
    not leave, in the order in which they are entered. *)
Definition open_in (U : ptr → bool) (ctx l : list event) : list ptr :=
  ptr_of <$> filter (λ e, opens U ctx e = true) l.

Section RunSpec.
Context `{!Platform}.

Definition exec (e : event) (v : visitorData) : visitorData * option error :=
  match e with
  | Enter p n depth => head n p depth v
  | Exit p n depth => (tail n p depth v, None)
  end.

Fixpoint run (l : list event) (v : visitorData) : visitorData * option error :=
  match l with
  | [] => (v, None)
  | e :: l' =>
      match exec e v with
      | (v', Some err) => (v', Some err)
      | (v', None) => run l' v'
      end
  end.

(** The pointers of the nodes of a tree that a traversal visits without
    being suppressed. *)
Definition unsuppressed (root : Node) (q : ptr) : bool :=
  bool_decide (q ∈ (preorder root [] 0).*1.*1).

End RunSpec.

Section WrittenSpec.
Context `{!Platform}.

(** The pieces that one call writes: those of [head] on entering a
    node that is not suppressed, the closing piece on leaving a nested
    element that is not suppressed. *)
Definition event_pieces (v : visitorData) (U : ptr → bool) (e : event) : list piece :=
  match e with
  | Enter q m dm => if U q then head_pieces v m dm else []
  | Exit q m dm => if U q && nested m dm then [Close] else []
  end.

(** The pieces that a sequence of calls writes. *)
Definition events_pieces (v : visitorData) (U : ptr → bool) (l : list event) : list piece :=
  flat_map (event_pieces v U) l.

End WrittenSpec.

Section InvariantSpec.
Context `{!Platform}.

(** No event of [l] is on a node of the subtree at [p]. *)
Definition outside (p : ptr) (l : list event) : Prop :=
  ∀ e, e ∈ l → ¬ p `prefix_of` ptr_of e.

(** What the claim says of the state after the calls [pre], run from
    [v], with [before] the calls already made: the stack has grown by
    the open nodes of [pre]; a last call that leaves a nested element
    finds it on top of the stack; the buffer has grown by the pieces
    that the calls write; and as many append calls are open in these
    pieces as there are open nodes. *)
Definition stack_follows (U : ptr → bool) (before pre : list event)
    (v v' : visitorData) : Prop :=
  appendStack v' = appendStack v ++ open_in U (before ++ pre) pre ∧
  (∀ pre0 q m dm v1,
     pre = pre0 ++ [Exit q m dm] → run pre0 v = (v1, None) →
     nested m dm = true → U q = true → last (appendStack v1) = Some q) ∧
  domConstruction v' = domConstruction v +:+ pieces_text (events_pieces v U pre) ∧
  (∀ k, depth_after k (events_pieces v U pre) =
        Some (k + length (open_in U (before ++ pre) pre))%nat).

End InvariantSpec.

Section Invariant2Spec.
Context `{!Platform}.

(** The invariant along the traversal of the subtree [n], entered
    without suppression. *)
Definition follows_at (n : Node) : Prop :=
  ∀ (p : ptr) (depth : nat) (v : visitorData) (U : ptr → bool) (before : list event),
    ignoreSubtree v = false → fresh p (appendStack v) → outside p before →
    (∀ q, p `prefix_of` q → (U q = true ↔ q ∈ (preorder n p depth).*1.*1)) →
    ∀ pre v', pre `prefix_of` events n p depth → run pre v = (v', None) →
      stack_follows U before pre v v'.

End Invariant2Spec.

(** ** Names of classes and their slices *)

(** A run of [n] spaces. *)
Fixpoint spaces (n : nat) : string :=
  match n with
  | O => EmptyString
  | S n' => String " " (spaces n')
  end.

(** ** What a traversal leaves alone *)

(** From [v] to [v'] the options, the style text, the name of the view,
    the output and the debug switch are the same, and the construction
    buffer and the queue of fields have only grown at their ends. *)
Definition extends (v v' : visitorData) : Prop :=
  options v' = options v ∧ cssText v' = cssText v ∧ viewName v' = viewName v ∧
  output v' = output v ∧ forceDebugIds v' = forceDebugIds v ∧
  (∃ text, domConstruction v' = domConstruction v +:+ text) ∧
  (∃ decls, refs v' = refs v ++ decls).

(** ** The entry point *)

(** The test of [collectTomatoFiles] on what [info] reports. *)
Definition is_template (x : visit) : bool :=
  negb (visit_isDir x) && GoStrings.HasSuffix (visit_name x) tomatoFileExtension.

Section LayoutSpec.
Context `{!Platform}.

(** The call that a text node writes. *)
Definition appendText_call (k : Node) : string :=
  if String.eqb "" (GoTrim.TrimFunc (Data k) trimmable) then ""
  else ".appendText('" +:+ escapeText (GoStrings.Replace (Data k) nl "" (-1)) +:+ "')".

End LayoutSpec.

(** ** The classes of an element, without [classList] *)

(** A class name without a space in it. *)
Definition spaceless (t : JS.jsstring) : Prop := Forall (λ x, x ≠ 32%N) t.

(** ** Sample templates *)

(** The platform on which the examples run. *)
Definition demo0 : Platform := demo "" nested_doc.


Definition row : Node :=
  element "tr" [MkAttr "" "class" "r"] [element "td" [] [text_node "x"]].

(** A root with a reference, which has a child of its own, and a
    paragraph. *)
Definition panel : Node :=
  element "div" []
    [element "tomato" [MkAttr "" "src" "a.htmto"] [element "b" [] []];
     element "p" [] [text_node "x"]].

(** ** More samples *)

(** A reference with a source and a child, and a comment. *)
Definition button_ref (kids : list Node) : Node :=
  MkNode ElementNode "tomato" [MkAttr "" "src" "widgets/button.htmto"] kids.

Definition comment : Node := MkNode CommentNode " a note " [] [].

(** A table with the unwrap marker, as in [row_doc]. *)
Definition marked_table : Node :=
  element "table" [MkAttr "" "_stripme" ""]
    [text_node " "; element "tbody" [] [row]].

(** The code units of a text of bytes, and an element that has the
    class [a] twice. *)
Definition js (s : string) : JS.jsstring :=
  (λ c, N_of_ascii c) <$> list_ascii_of_string s.

Definition twice : JS.Element := JS.MkElement false (js "a b a").

(** A file system that refuses the style sheet file. *)
Definition fs_locked : FileSystem := MkFS ∅ ∅ {["gen/views.scss"]} ∅ [].

(** * Properties *)

#[local] Set Warnings "-clear-no-such-hyp".

Local Arguments GoStrings.HasPrefix : simpl never.
Local Arguments String.eqb : simpl never.

(** ** Byte strings *)

Lemma sapp_assoc (a b c : string) : (a +:+ b) +:+ c = a +:+ (b +:+ c).
Proof.
  induction a as [|x a IH]; [done|].
  unfold String.app in *; simpl. by rewrite IH.
Qed.

Lemma sapp_nil_r (a : string) : a +:+ "" = a.
Proof.
  induction a as [|x a IH]; [done|].
  unfold String.app in *; simpl. by rewrite IH.
Qed.

Lemma sapp_cons (x : ascii) (a b : string) : String x a +:+ b = String x (a +:+ b).
Proof. done. Qed.

Lemma sconcat_app (l1 l2 : list string) :
  sconcat (l1 ++ l2) = sconcat l1 +:+ sconcat l2.
Proof.
  induction l1 as [|a l1 IH]; [done|].
  simpl. rewrite IH. by rewrite <- sapp_assoc.
Qed.

Lemma string_lt_le (a b : string) : string_lt a b → String.le a b ∧ a ≠ b.
Proof.
  unfold string_lt, String.le, String.ltb, String.leb.
  destruct (a ?= b)%string eqn:E; try done.
  intros _. split; [done|]. intros ->.
  pose proof (String.compare_antisym b b) as Hb. rewrite E in Hb. done.
Qed.

Lemma concatViews_ok (views : gmap string View) (keys : list string) (vt ct : string) :
  Forall (λ k, is_Some (views !! k)) keys →
  concatViews views keys vt ct =
    Ok (vt +:+ sconcat (view_chunk views <$> keys),
        ct +:+ sconcat (css_chunk views <$> keys)).
Proof.
  intros Hall. revert vt ct.
  induction Hall as [|k keys [c Hc] _ IH]; intros vt ct; simpl.
  - by rewrite !sapp_nil_r.
  - rewrite Hc, IH. unfold view_chunk, css_chunk. rewrite Hc.
    f_equal. f_equal.
    + by rewrite !sapp_assoc.
    + destruct (negb (CssText c =? "")%string); [by rewrite !sapp_assoc|done].
Qed.

Lemma sort_Strings_perm (l : list string) : sort_Strings l ≡ₚ l.
Proof. apply merge_sort_Permutation. Qed.

Lemma sort_Strings_sorted (l : list string) : StronglySorted String.le (sort_Strings l).
Proof. apply StronglySorted_merge_sort; apply _. Qed.

Lemma sort_Strings_enum (l1 l2 : list string) :
  l1 ≡ₚ l2 → sort_Strings l1 = sort_Strings l2.
Proof.
  intros Hp. apply (Sorted_unique String.le).
  - apply Sorted_merge_sort, _.
  - apply Sorted_merge_sort, _.
  - by rewrite !sort_Strings_perm.
Qed.

Lemma sorted_before (keys : list string) (p1 p2 : string) :
  StronglySorted String.le keys → p1 ∈ keys → p2 ∈ keys → string_lt p1 p2 →
  ∃ l1 l2 l3, keys = l1 ++ p1 :: l2 ++ p2 :: l3.
Proof.
  intros Hs H1 H2 Hlt. apply string_lt_le in Hlt as [Hle Hne].
  apply list_elem_of_split in H2 as (l1 & l3 & ->).
  apply elem_of_app in H1 as [H1|H1].
  - apply list_elem_of_split in H1 as (la & lb & ->).
    exists la, lb, l3. by rewrite <- app_assoc.
  - apply elem_of_cons in H1 as [->|H1]; [done|].
    apply StronglySorted_app_1_r, StronglySorted_cons in Hs as [Hall _].
    rewrite Forall_forall in Hall. specialize (Hall _ H1).
    destruct Hne. by apply (anti_symm String.le).
Qed.

(** C7. The combined view text is the preamble followed by the units of
    the files in ascending order of their paths, whatever the order in
    which the map yields its keys: the keys are visited in one strictly
    ascending arrangement, a path [p1] below a path [p2] comes before it
    there (so that its text comes first in the output), any two
    enumerations of the same map give the same output, and the map itself
    does not depend on the order of its insertions. *)
Theorem aggregate_in_path_order (views : gmap string View) (opts : GeneratorOptions)
    (enum : list string) :
  enum ≡ₚ (map_to_list views).*1 →
  ∃ keys : list string,
    aggregate enum views opts =
      Ok (EmitPreamble opts "" +:+ sconcat (view_chunk views <$> keys),
          sconcat (css_chunk views <$> keys)) ∧
    keys ≡ₚ enum ∧
    StronglySorted String.le keys ∧ NoDup keys ∧
    (∀ p1 p2, is_Some (views !! p1) → is_Some (views !! p2) → string_lt p1 p2 →
       ∃ l1 l2 l3, keys = l1 ++ p1 :: l2 ++ p2 :: l3 ∧
         aggregate enum views opts =
           Ok ((EmitPreamble opts "" +:+ sconcat (view_chunk views <$> l1)) +:+
               view_chunk views p1 +:+ sconcat (view_chunk views <$> l2) +:+
               view_chunk views p2 +:+ sconcat (view_chunk views <$> l3),
               sconcat (css_chunk views <$> keys))) ∧
    (∀ enum', enum' ≡ₚ (map_to_list views).*1 →
       aggregate enum' views opts = aggregate enum views opts) ∧
    (∀ units units' : list (string * View),
       NoDup units.*1 → units ≡ₚ units' →
       (list_to_map units : gmap string View) = list_to_map units').
Proof.
  intros Henum.
  assert (Hin : ∀ k, k ∈ enum ↔ is_Some (views !! k)).
  { intros k. rewrite Henum, list_elem_of_fmap. split.
    - intros ([k' c] & -> & Hk). apply elem_of_map_to_list in Hk. by eexists.
    - intros [c Hc]. exists (k, c). split; [done|]. by apply elem_of_map_to_list. }
  assert (Hagg : aggregate enum views opts =
      Ok (EmitPreamble opts "" +:+ sconcat (view_chunk views <$> sort_Strings enum),
          sconcat (css_chunk views <$> sort_Strings enum))).
  { unfold aggregate. rewrite concatViews_ok; [done|].
    apply Forall_forall. intros k Hk. apply Hin. by rewrite <- (sort_Strings_perm enum). }
  exists (sort_Strings enum). split_and!.
  - done.
  - apply sort_Strings_perm.
  - apply sort_Strings_sorted.
  - rewrite sort_Strings_perm, Henum. apply NoDup_fst_map_to_list.
  - intros p1 p2 H1 H2 Hlt.
    destruct (sorted_before (sort_Strings enum) p1 p2) as (l1 & l2 & l3 & Hk); auto.
    { apply sort_Strings_sorted. }
    { rewrite sort_Strings_perm. by apply Hin. }
    { rewrite sort_Strings_perm. by apply Hin. }
    exists l1, l2, l3. split; [done|].
    rewrite Hagg, Hk. f_equal. f_equal.
    rewrite fmap_app, sconcat_app, fmap_cons. simpl.
    rewrite fmap_app, sconcat_app, fmap_cons. simpl.
    by rewrite !sapp_assoc.
  - intros enum' Henum'. unfold aggregate.
    rewrite (sort_Strings_enum enum' enum); [done|]. by rewrite Henum, Henum'.
  - intros units units' Hnd Hp. by apply list_to_map_proper.
Qed.

Lemma string_compare_refl (a : string) : (a ?= a)%string = Eq.
Proof.
  pose proof (String.compare_antisym a a) as Hb.
  by destruct (a ?= a)%string.
Qed.

Lemma existingFileContentMatches_iff (fs : FileSystem) (filename data : string) :
  existingFileContentMatches fs filename data = true ↔ ReadFile fs filename = Some data.
Proof.
  unfold existingFileContentMatches. destruct (ReadFile fs filename) as [actual|]; [|done].
  split.
  - destruct (negb _); [done|]. unfold bytes_Compare.
    destruct (data ?= actual)%string eqn:E; try done.
    intros _. f_equal. symmetry. by apply String.compare_eq_iff.
  - intros [= ->]. rewrite Z.eqb_refl. simpl.
    unfold bytes_Compare. by rewrite string_compare_refl.
Qed.

Lemma writeFileIfChanged_same (fs : FileSystem) (filename data : string) :
  ReadFile fs filename = Some data → writeFileIfChanged fs filename data = (fs, None).
Proof.
  intros Hr. unfold writeFileIfChanged.
  by rewrite (proj2 (existingFileContentMatches_iff fs filename data) Hr).
Qed.

Lemma writeFileIfChanged_differs (fs : FileSystem) (filename data : string) :
  ReadFile fs filename ≠ Some data →
  writeFileIfChanged fs filename data = WriteFile fs filename data.
Proof.
  intros Hr. unfold writeFileIfChanged.
  destruct (existingFileContentMatches fs filename data) eqn:E; [|done].
  by apply existingFileContentMatches_iff in E.
Qed.

Lemma ReadFile_contents (fs : FileSystem) (filename data : string) :
  ReadFile fs filename = Some data → contents fs !! filename = Some data.
Proof. unfold ReadFile. by case_decide. Qed.

Lemma ReadFile_readable (fs : FileSystem) (filename : string) :
  filename ∉ unreadable fs → ReadFile fs filename = contents fs !! filename.
Proof. intros Hr. unfold ReadFile. by rewrite decide_False. Qed.

Lemma ReadFile_unreadable (fs : FileSystem) (filename : string) :
  filename ∈ unreadable fs → ReadFile fs filename = None.
Proof. intros Hr. unfold ReadFile. by rewrite decide_True. Qed.

(** What [writeFileIfChanged] leaves as it is: the permissions, and the
    record of the writes but for at most one write of the file. *)
Lemma writeFileIfChanged_frame (fs fs' : FileSystem) (filename data : string) r :
  writeFileIfChanged fs filename data = (fs', r) →
  unreadable fs' = unreadable fs ∧ locked fs' = locked fs ∧ nomkdir fs' = nomkdir fs ∧
  (written fs' = written fs ∨ written fs' = written fs ++ [filename]).
Proof.
  unfold writeFileIfChanged, WriteFile.
  destruct (existingFileContentMatches fs filename data); [intros [= <- _]; by auto|].
  case_decide; intros [= <- _]; cbn [unreadable locked nomkdir written]; by auto.
Qed.

Lemma writeFileIfChanged_nomkdir (fs fs' : FileSystem) (filename data : string) r :
  writeFileIfChanged fs filename data = (fs', r) → nomkdir fs' = nomkdir fs.
Proof. intros Hw. by destruct (writeFileIfChanged_frame _ _ _ _ _ Hw) as (_ & _ & ? & _). Qed.

(** After a call that returns no error the file holds the data. *)
Lemma writeFileIfChanged_holds (fs fs' : FileSystem) (filename data : string) :
  writeFileIfChanged fs filename data = (fs', None) → contents fs' !! filename = Some data.
Proof.
  unfold writeFileIfChanged.
  destruct (existingFileContentMatches fs filename data) eqn:E.
  - intros [= <-]. by apply ReadFile_contents, existingFileContentMatches_iff.
  - unfold WriteFile. case_decide; [done|]. intros [= <-].
    cbn [contents]. by rewrite lookup_insert_eq.
Qed.

Lemma writeFileIfChanged_other (fs fs' : FileSystem) (filename data other : string) r :
  writeFileIfChanged fs filename data = (fs', r) → other ≠ filename →
  contents fs' !! other = contents fs !! other.
Proof.
  unfold writeFileIfChanged.
  destruct (existingFileContentMatches fs filename data) eqn:E.
  - by intros [= <- _].
  - unfold WriteFile. case_decide; intros [= <- _] Hne; [done|].
    cbn [contents]. by rewrite lookup_insert_ne.
Qed.

(** A file that cannot be read is written by every call, so that a call
    that returns no error has found it writable. *)
Lemma writeFileIfChanged_unreadable (fs fs' : FileSystem) (filename data : string) :
  filename ∈ unreadable fs →
  writeFileIfChanged fs filename data = (fs', None) →
  (filename ∉ locked fs) ∧ written fs' = written fs ++ [filename].
Proof.
  intros Hu. rewrite writeFileIfChanged_differs by (by rewrite ReadFile_unreadable).
  unfold WriteFile. case_decide; [done|]. by intros [= <-].
Qed.

(** A call that returned no error returns none when it is made again, on
    a file system of the same permissions in which the file, if it can
    be read, holds the data. *)
Lemma writeFileIfChanged_again (fs fs' fs2 : FileSystem) (filename data : string) :
  writeFileIfChanged fs filename data = (fs', None) →
  unreadable fs2 = unreadable fs → locked fs2 = locked fs →
  (filename ∉ unreadable fs → contents fs2 !! filename = Some data) →
  ∃ fs3, writeFileIfChanged fs2 filename data = (fs3, None).
Proof.
  intros Hw Hu Hl Hc. destruct (decide (filename ∈ unreadable fs)) as [Hin|Hout].
  - destruct (writeFileIfChanged_unreadable _ _ _ _ Hin Hw) as [Hnl _].
    rewrite writeFileIfChanged_differs by (rewrite ReadFile_unreadable; [done|by rewrite Hu]).
    unfold WriteFile. rewrite decide_False by (by rewrite Hl). by eexists.
  - exists fs2. apply writeFileIfChanged_same.
    rewrite ReadFile_readable by (by rewrite Hu). by apply Hc.
Qed.

(** The two calls of a run of [writeTomatoOutput] that returns no
    error. *)
Lemma writeTomatoOutput_ok (Dir : string → string) (enum : list string)
    (outFile stem : string) (views : gmap string View) (opts : GeneratorOptions)
    (fs fs1 : FileSystem) :
  slice outFile 0 (GoStrings.LastIndex outFile ".") = Some stem →
  writeTomatoOutput Dir enum outFile views opts fs = (fs1, Ok tt) →
  ∃ viewText css fsa,
    aggregate enum views opts = Ok (viewText, css) ∧
    (Dir outFile ∉ nomkdir fs) ∧
    writeFileIfChanged fs (stem +:+ ".scss") css = (fsa, None) ∧
    writeFileIfChanged fsa outFile viewText = (fs1, None).
Proof.
  intros Hstem. unfold writeTomatoOutput.
  destruct (aggregate enum views opts) as [[viewText css]| |]; [|done..].
  unfold MkdirAll. case_decide as Hd; [done|]. rewrite Hstem.
  destruct (writeFileIfChanged fs (stem +:+ ".scss") css) as [fsa [e|]] eqn:Ha; [done|].
  destruct (writeFileIfChanged fsa outFile viewText) as [fsb [e|]] eqn:Hb; [done|].
  intros [= <-]. by exists viewText, css, fsa.
Qed.

Lemma writeTomatoOutput_run (Dir : string → string) (enum : list string)
    (outFile stem viewText css : string) (views : gmap string View) (opts : GeneratorOptions)
    (fs fsa fs1 : FileSystem) :
  slice outFile 0 (GoStrings.LastIndex outFile ".") = Some stem →
  aggregate enum views opts = Ok (viewText, css) →
  Dir outFile ∉ nomkdir fs →
  writeFileIfChanged fs (stem +:+ ".scss") css = (fsa, None) →
  writeFileIfChanged fsa outFile viewText = (fs1, None) →
  writeTomatoOutput Dir enum outFile views opts fs = (fs1, Ok tt).
Proof.
  intros Hstem Hagg Hd Ha Hb. unfold writeTomatoOutput. rewrite Hagg.
  unfold MkdirAll. rewrite decide_False by done. by rewrite Hstem, Ha, Hb.
Qed.

(** A run that follows a run without error, on a style sheet or an
    output file that cannot be read: it returns no error and writes that
    file again. *)
Lemma writeTomatoOutput_unreadable (Dir : string → string) (enum enum' : list string)
    (outFile stem : string) (views : gmap string View) (opts : GeneratorOptions)
    (fs fs1 : FileSystem) :
  slice outFile 0 (GoStrings.LastIndex outFile ".") = Some stem →
  enum' ≡ₚ enum →
  writeTomatoOutput Dir enum outFile views opts fs = (fs1, Ok tt) →
  (outFile ∈ unreadable fs →
     ∃ fs2 ws, writeTomatoOutput Dir enum' outFile views opts fs1 = (fs2, Ok tt) ∧
               written fs2 = written fs1 ++ ws ++ [outFile]) ∧
  (stem +:+ ".scss" ∈ unreadable fs →
     ∃ fs2 ws, writeTomatoOutput Dir enum' outFile views opts fs1 = (fs2, Ok tt) ∧
               written fs2 = written fs1 ++ (stem +:+ ".scss") :: ws).
Proof.
  intros Hstem Henum Hrun.
  destruct (writeTomatoOutput_ok _ _ _ _ _ _ _ _ Hstem Hrun)
    as (viewText & css & fsa & Hagg & Hd & Ha & Hb).
  assert (Hagg' : aggregate enum' views opts = Ok (viewText, css)).
  { rewrite <- Hagg. unfold aggregate. by rewrite (sort_Strings_enum enum' enum). }
  destruct (writeFileIfChanged_frame _ _ _ _ _ Ha) as (Hua & Hla & Hna & _).
  destruct (writeFileIfChanged_frame _ _ _ _ _ Hb) as (Hub & Hlb & Hnb & _).
  assert (Hd1 : Dir outFile ∉ nomkdir fs1) by (by rewrite Hnb, Hna).
  split.
  - intros Hout.
    destruct (writeFileIfChanged_again fs fsa fs1 (stem +:+ ".scss") css Ha)
      as [fsc Hc]; [by rewrite Hub, Hua|by rewrite Hlb, Hla| |].
    { intros Hr. assert (Hne : stem +:+ ".scss" ≠ outFile).
      { intros Heq. by rewrite Heq in Hr. }
      rewrite (writeFileIfChanged_other _ _ _ _ _ _ Hb Hne).
      by apply (writeFileIfChanged_holds fs). }
    destruct (writeFileIfChanged_frame _ _ _ _ _ Hc) as (Huc & Hlc & _ & Hwc).
    destruct (writeFileIfChanged_again fsa fs1 fsc outFile viewText Hb)
      as [fs2 H2]; [by rewrite Huc, Hub|by rewrite Hlc, Hlb| |].
    { intros Hr. by rewrite Hua in Hr. }
    destruct (writeFileIfChanged_unreadable fsc fs2 outFile viewText) as [_ Hw2];
      [by rewrite Huc, Hub, Hua|done|].
    exists fs2. destruct Hwc as [Hwc|Hwc].
    + exists []. split; [by apply (writeTomatoOutput_run _ _ _ stem viewText css _ _ _ fsc)|].
      by rewrite Hw2, Hwc.
    + exists [stem +:+ ".scss"].
      split; [by apply (writeTomatoOutput_run _ _ _ stem viewText css _ _ _ fsc)|].
      by rewrite Hw2, Hwc, <- app_assoc.
  - intros Hcss.
    destruct (writeFileIfChanged_again fs fsa fs1 (stem +:+ ".scss") css Ha)
      as [fsc Hc]; [by rewrite Hub, Hua|by rewrite Hlb, Hla|done|].
    destruct (writeFileIfChanged_frame _ _ _ _ _ Hc) as (Huc & Hlc & _ & _).
    destruct (writeFileIfChanged_unreadable fs1 fsc (stem +:+ ".scss") css) as [_ Hwc];
      [by rewrite Hub, Hua|done|].
    destruct (writeFileIfChanged_again fsa fs1 fsc outFile viewText Hb)
      as [fs2 H2]; [by rewrite Huc, Hub|by rewrite Hlc, Hlb| |].
    { intros Hr. assert (Hne : outFile ≠ stem +:+ ".scss").
      { intros Heq. by rewrite Heq, Hua in Hr. }
      rewrite (writeFileIfChanged_other _ _ _ _ _ _ Hc Hne).
      by apply (writeFileIfChanged_holds fsa). }
    destruct (writeFileIfChanged_frame _ _ _ _ _ H2) as (_ & _ & _ & Hw2).
    exists fs2. destruct Hw2 as [Hw2|Hw2].
    + exists []. split; [by apply (writeTomatoOutput_run _ _ _ stem viewText css _ _ _ fsc)|].
      by rewrite Hw2, Hwc.
    + exists [outFile].
      split; [by apply (writeTomatoOutput_run _ _ _ stem viewText css _ _ _ fsc)|].
      by rewrite Hw2, Hwc, <- app_assoc.
Qed.

(** C6, as amended. [writeFileIfChanged] leaves the file system as it is
    exactly when the file already reads as the new content, and calls
    [WriteFile] with the new content otherwise, also when the file cannot
    be read; where that write is not refused, the file then holds the
    new content and one write is recorded. When the style sheet is not
    written to the path of the output file itself and the process can
    read both files, a run of the aggregation that follows a run without
    error on the same units leaves the file system as it found it: it
    writes nothing. A file of the two that the process cannot read is
    written again by every such run. *)
Theorem writeFileIfChanged_writes_only_changes (fs : FileSystem) (filename data : string) :
  (writeFileIfChanged fs filename data = (fs, None) ↔ ReadFile fs filename = Some data) ∧
  (ReadFile fs filename ≠ Some data →
     writeFileIfChanged fs filename data = WriteFile fs filename data) ∧
  (ReadFile fs filename ≠ Some data → filename ∉ locked fs →
     ∃ fs', writeFileIfChanged fs filename data = (fs', None) ∧
            contents fs' !! filename = Some data ∧
            (filename ∉ unreadable fs → ReadFile fs' filename = Some data) ∧
            written fs' = written fs ++ [filename]) ∧
  (∀ (Dir : string → string) (enum enum' : list string) (outFile stem : string)
     (views : gmap string View) (opts : GeneratorOptions) (fs1 : FileSystem),
     slice outFile 0 (GoStrings.LastIndex outFile ".") = Some stem →
     stem +:+ ".scss" ≠ outFile →
     stem +:+ ".scss" ∉ unreadable fs → outFile ∉ unreadable fs →
     enum' ≡ₚ enum →
     writeTomatoOutput Dir enum outFile views opts fs = (fs1, Ok tt) →
     writeTomatoOutput Dir enum' outFile views opts fs1 = (fs1, Ok tt)) ∧
  (∀ (Dir : string → string) (enum enum' : list string) (outFile stem : string)
     (views : gmap string View) (opts : GeneratorOptions) (fs1 : FileSystem),
     slice outFile 0 (GoStrings.LastIndex outFile ".") = Some stem →
     enum' ≡ₚ enum →
     writeTomatoOutput Dir enum outFile views opts fs = (fs1, Ok tt) →
     (outFile ∈ unreadable fs →
        ∃ fs2 ws, writeTomatoOutput Dir enum' outFile views opts fs1 = (fs2, Ok tt) ∧
                  written fs2 = written fs1 ++ ws ++ [outFile]) ∧
     (stem +:+ ".scss" ∈ unreadable fs →
        ∃ fs2 ws, writeTomatoOutput Dir enum' outFile views opts fs1 = (fs2, Ok tt) ∧
                  written fs2 = written fs1 ++ (stem +:+ ".scss") :: ws)).
Proof.
  split_and!.
  - split; [|apply writeFileIfChanged_same].
    intros Hw. destruct (decide (ReadFile fs filename = Some data)) as [|Hne]; [done|].
    rewrite (writeFileIfChanged_differs _ _ _ Hne) in Hw.
    unfold WriteFile in Hw. case_decide; [done|].
    injection Hw as Hw. apply (f_equal written) in Hw. simpl in Hw.
    apply (f_equal length) in Hw. rewrite length_app in Hw. simpl in Hw. lia.
  - apply writeFileIfChanged_differs.
  - intros Hne Hl. rewrite (writeFileIfChanged_differs _ _ _ Hne).
    unfold WriteFile. case_decide; [done|].
    eexists. split; [done|]. cbn [contents written]. rewrite lookup_insert_eq.
    split_and!; [done| |done].
    intros Hr. unfold ReadFile. cbn [unreadable contents].
    by rewrite decide_False, lookup_insert_eq.
  - intros Dir enum enum' outFile stem views opts fs1 Hstem Hpath Hrc Hro Henum Hrun.
    destruct (writeTomatoOutput_ok _ _ _ _ _ _ _ _ Hstem Hrun)
      as (viewText & css & fsa & Hagg & Hd & Ha & Hb).
    destruct (writeFileIfChanged_frame _ _ _ _ _ Ha) as (Hua & _ & Hna & _).
    destruct (writeFileIfChanged_frame _ _ _ _ _ Hb) as (Hub & _ & Hnb & _).
    apply (writeTomatoOutput_run _ _ _ stem viewText css _ _ _ fs1); try done.
    + rewrite <- Hagg. unfold aggregate. by rewrite (sort_Strings_enum enum' enum).
    + by rewrite Hnb, Hna.
    + apply writeFileIfChanged_same.
      rewrite ReadFile_readable by (by rewrite Hub, Hua).
      rewrite (writeFileIfChanged_other _ _ _ _ _ _ Hb Hpath).
      by apply (writeFileIfChanged_holds fs).
    + apply writeFileIfChanged_same.
      rewrite ReadFile_readable by (by rewrite Hub, Hua).
      by apply (writeFileIfChanged_holds fsa).
  - intros Dir enum enum' outFile stem views opts fs1 Hstem Henum Hrun.
    by apply (writeTomatoOutput_unreadable Dir enum enum').
Qed.

Lemma writeFileIfChanged_writes_only_changes_witness :
  let run1 fs := fst (writeTomatoOutput (λ _, "gen") ["b.htmto"; "a.htmto"] "gen/views.ts"
                        views0 opts0 fs) in
  writeTomatoOutput (λ _, "gen") ["a.htmto"; "b.htmto"] "gen/views.ts" views0 opts0 (run1 fs0)
  = (run1 fs0, Ok tt) ∧
  ∃ fs2 ws,
    writeTomatoOutput (λ _, "gen") ["a.htmto"; "b.htmto"] "gen/views.ts" views0 opts0
      (run1 fs_hidden) = (fs2, Ok tt) ∧
    written fs2 = written (run1 fs_hidden) ++ ws ++ ["gen/views.ts"].
Proof.
  intros run1. split.
  - apply (proj1 (proj2 (proj2 (proj2 (writeFileIfChanged_writes_only_changes fs0 "" ""))))
             (λ _, "gen") ["b.htmto"; "a.htmto"] ["a.htmto"; "b.htmto"] "gen/views.ts"
             "gen/views").
    + reflexivity.
    + discriminate.
    + by vm_compute.
    + by vm_compute.
    + apply perm_swap.
    + vm_compute. reflexivity.
  - apply (proj2 (proj2 (proj2 (proj2 (writeFileIfChanged_writes_only_changes fs_hidden "" ""))))
             (λ _, "gen") ["b.htmto"; "a.htmto"] ["a.htmto"; "b.htmto"] "gen/views.ts"
             "gen/views").
    + reflexivity.
    + apply perm_swap.
    + vm_compute. reflexivity.
    + by vm_compute.
Defined.

(** C6, the claim as stated fails when the output file is itself named
    [.scss]: the style sheet and the view text then go to one path, and
    every run writes both again. *)
Lemma second_run_writes_counterexample :
  let views : gmap string View := <["a.htmto" := MkView "class AView {}" ""]> ∅ in
  let run1 := writeTomatoOutput (λ _, ".") ["a.htmto"] "out.scss" views opts0 fs0 in
  let run2 := writeTomatoOutput (λ _, ".") ["a.htmto"] "out.scss" views opts0 (fst run1) in
  snd run1 = Ok tt ∧ snd run2 = Ok tt ∧
  written (fst run1) = ["out.scss"; "out.scss"] ∧
  written (fst run2) = ["out.scss"; "out.scss"; "out.scss"; "out.scss"].
Proof. vm_compute. done. Qed.

(** ** The style block *)

Lemma LastIndex_from_range (i acc : Z) (s substr : string) :
  GoStrings.LastIndex_from i acc s substr = acc ∨
  i ≤ GoStrings.LastIndex_from i acc s substr ≤ i + len s.
Proof.
  revert i acc. induction s as [|c s IH]; intros i acc; simpl.
  - destruct (GoStrings.HasPrefix "" substr); [right|by left]. unfold len; simpl; lia.
  - destruct (GoStrings.HasPrefix (String c s) substr).
    + destruct (IH (i + 1) i) as [->|H]; right; unfold len in *; simpl in *; lia.
    + destruct (IH (i + 1) acc) as [->|H]; [by left|right].
      unfold len in *; simpl in *; lia.
Qed.

Lemma LastIndex_le_len (s substr : string) : GoStrings.LastIndex s substr ≤ len s.
Proof.
  unfold GoStrings.LastIndex.
  destruct (LastIndex_from_range 0 (-1) s substr) as [->|H]; unfold len in *; lia.
Qed.

(** The extraction goes through exactly when one of the delimiters is
    missing or the last closing one starts after the end of the last
    opening one. *)
Lemma slurpCss_cases (text : string) :
  let start := GoStrings.LastIndex text "<style>" in
  let end_ := GoStrings.LastIndex text "</style>" in
  (start < 0 ∨ end_ < 0 → slurpCss text = Ok (None, text)) ∧
  (0 ≤ start → start + 7 ≤ end_ →
     slurpCss text =
       Ok (Some (stake (Z.to_nat (end_ - (start + 7))) (sdrop (Z.to_nat (start + 7)) text)),
           stake (Z.to_nat start) text)) ∧
  (0 ≤ start → 0 ≤ end_ → end_ < start + 7 → slurpCss text = Panic).
Proof.
  intros start end_. unfold slurpCss. fold start end_.
  pose proof (LastIndex_le_len text "</style>") as Hle. fold end_ in Hle.
  change (len "<style>") with 7. unfold slice.
  split_and!.
  - intros [H|H].
    + by replace (0 <=? start) with false by lia.
    + replace (0 <=? end_) with false by lia. by rewrite andb_false_r.
  - intros H1 H2.
    replace (0 <=? start) with true by lia. replace (0 <=? end_) with true by lia.
    replace (0 <=? start + 7) with true by lia.
    replace (start + 7 <=? end_) with true by lia.
    replace (end_ <=? len text) with true by lia. done.
  - intros H1 H2 H3.
    replace (0 <=? start) with true by lia. replace (0 <=? end_) with true by lia.
    replace (start + 7 <=? end_) with false by lia.
    simpl. by rewrite andb_false_r.
Qed.

(** C4. The extraction does fail: when the last closing delimiter does
    not come after the last opening one, the slice
    [contents[start+len("<style>") : end]] is out of range and the
    program panics. *)
Theorem slurpCss_panics_on_reversed_delimiters :
  GoStrings.LastIndex "</style><style>" "<style>" = 8 ∧
  GoStrings.LastIndex "</style><style>" "</style>" = 0 ∧
  slurpCss "</style><style>" = Panic.
Proof. by vm_compute. Qed.

Lemma HasPrefix_char (c x : ascii) (s : string) :
  GoStrings.HasPrefix (String x s) (String c "") = bool_decide (x = c).
Proof.
  unfold GoStrings.HasPrefix; simpl.
  destruct (ascii_dec c x) as [->|Hne].
  - rewrite bool_decide_eq_true_2 by done. by destruct s.
  - by rewrite bool_decide_eq_false_2 by congruence.
Qed.

Lemma Replace_newlines (s : string) : GoStrings.Replace s nl "" (-1) = remove_newlines s.
Proof.
  unfold GoStrings.Replace. change (String.eqb nl "" || (-1 =? 0)) with false; cbv iota.
  induction s as [|x s IH]; [done|].
  cbn [GoStrings.Replace_go remove_newlines]. unfold nl at 1. rewrite HasPrefix_char.
  change (negb (-1 =? 0)) with true. change (-1 <? 0) with true. cbv iota.
  change (String.length nl - 1)%nat with 0%nat. rewrite andb_true_l.
  unfold newline. case_bool_decide; case_decide; try done; by rewrite IH.
Qed.

Lemma escapeText_escape_quotes (s : string) : escapeText s = escape_quotes s.
Proof.
  unfold escapeText, GoStrings.Replace.
  change (String.eqb "'" "\'" || (-1 =? 0)) with false; cbv iota.
  induction s as [|x s IH]; [done|].
  cbn [GoStrings.Replace_go escape_quotes]. rewrite HasPrefix_char.
  change (negb (-1 =? 0)) with true. change (-1 <? 0) with true. cbv iota.
  change (String.length "'" - 1)%nat with 0%nat. rewrite andb_true_l.
  unfold quote. case_bool_decide; case_decide; try done; by rewrite IH.
Qed.

Section Trim.
Context `{!Platform}.

Lemma ordinary_space_trimmable (c : ascii) (s : string) :
  ordinary_space c = true →
  ∃ r, utf8.DecodeRuneInString (String c s) = (r, 1%nat) ∧ trimmable r = true.
Proof.
  unfold ordinary_space, utf8.DecodeRuneInString. intros Hc. exists (byte_of c).
  assert (byte_of c = 9 ∨ byte_of c = 10 ∨ byte_of c = 11 ∨ byte_of c = 12 ∨
          byte_of c = 13 ∨ byte_of c = 32) as Hb by lia.
  destruct Hb as [-> | [-> | [-> | [-> | [-> | ->]]]]]; done.
Qed.

Lemma indexFunc_ordinary (s : string) (i : Z) :
  all_bytes ordinary_space s = true →
  GoTrim.indexFunc_go trimmable false 0 i s = -1.
Proof.
  revert i. induction s as [|c s IH]; intros i Hs; [done|].
  simpl in Hs. apply andb_true_iff in Hs as [Hc Hs].
  destruct (ordinary_space_trimmable c s Hc) as (r & Hd & Hr).
  cbn [GoTrim.indexFunc_go]. rewrite Hd, Hr. simpl. by apply IH.
Qed.

Lemma TrimFunc_ordinary (s : string) :
  all_bytes ordinary_space s = true → GoTrim.TrimFunc s trimmable = "".
Proof.
  intros Hs. unfold GoTrim.TrimFunc, GoTrim.TrimLeftFunc, GoTrim.indexFunc.
  by rewrite indexFunc_ordinary.
Qed.

Lemma dom_append_append (a b : string) (v : visitorData) :
  dom_append b (dom_append a v) = dom_append (a +:+ b) v.
Proof. unfold dom_append, with_domConstruction; simpl. by rewrite sapp_assoc. Qed.

Lemma dom_append_nil (v : visitorData) : dom_append "" v = v.
Proof. destruct v. unfold dom_append, with_domConstruction; simpl. by rewrite sapp_nil_r. Qed.

(** C2. A text node that is visited with the suppression flag clear
    emits nothing when trimming the white space that is not a
    non-breaking space leaves nothing of its content, and otherwise one
    [appendText] call whose literal is the content without its newlines
    and with its single quotes escaped; nothing else of the visitor
    changes and no error is returned. A non-breaking space alone is
    kept, a run of ordinary blanks is dropped. *)
Theorem head_text_node (node : Node) (p : ptr) (depth : nat) (v : visitorData) :
  Type_ node = TextNode → ignoreSubtree v = false →
  head node p depth v =
    (if decide (GoTrim.TrimFunc (Data node) trimmable = "") then v
     else dom_append
            (".appendText('" +:+ escape_quotes (remove_newlines (Data node)) +:+ "')") v,
     None) ∧
  (Data node = nbsp →
     head node p depth v = (dom_append (".appendText('" +:+ nbsp +:+ "')") v, None)) ∧
  (all_bytes ordinary_space (Data node) = true → head node p depth v = (v, None)).
Proof.
  intros Ht Hi.
  assert (Hhead : head node p depth v =
    (if decide (GoTrim.TrimFunc (Data node) trimmable = "") then v
     else dom_append
            (".appendText('" +:+ escape_quotes (remove_newlines (Data node)) +:+ "')") v,
     None)).
  { unfold head. rewrite Hi, Ht.
    destruct (String.eqb_spec "" (GoTrim.TrimFunc (Data node) trimmable)) as [He|Hne].
    - simpl. by rewrite decide_True.
    - simpl. rewrite decide_False by done.
      by rewrite !dom_append_append, Replace_newlines, escapeText_escape_quotes. }
  split_and!; [done|..].
  - intros Hd. rewrite Hhead, Hd. done.
  - intros Hd. rewrite Hhead, decide_True; [done|]. by apply TrimFunc_ordinary.
Qed.

End Trim.

(** ** Attribute transfer *)

Lemma eqb_bool_decide (x y : string) : String.eqb x y = bool_decide (x = y).
Proof.
  destruct (String.eqb_spec x y).
  - by rewrite bool_decide_eq_true_2.
  - by rewrite bool_decide_eq_false_2.
Qed.

Section Attributes.
Context `{!Platform}.

Lemma emitAttr_call (a : Attribute) (v : visitorData) :
  emitAttr (Namespace a) (if String.eqb TunnelledIdAttr (Key a) then IdAttr else Key a)
    (Val a) v = dom_append (setAttr_call (emitted_key a, Val a)) v.
Proof.
  unfold emitAttr, setAttr_call, emitted_key. simpl.
  rewrite escapeText_escape_quotes. f_equal. f_equal.
  destruct (String.eqb_spec TunnelledIdAttr (Key a)) as [He|Hne];
    destruct (String.eqb_spec (Namespace a) "") as [Hn|Hn]; simpl;
    repeat case_decide; try done; unfold TunnelledIdAttr in *; congruence.
Qed.

Lemma blocked_or_src (node : Node) (a : Attribute) :
  contains blockedAttrs (Key a) ||
    (String.eqb (ToLower (Data node)) "tomato" && String.eqb (Key a) "src")
  = negb (kept node a).
Proof.
  unfold kept, is_tomato. rewrite negb_andb, !negb_involutive.
  rewrite (eqb_bool_decide (Key a) "src"). f_equal.
  unfold blockedAttrs, contains, FieldRefAttr, MockAttr. rewrite !eqb_bool_decide.
  repeat case_bool_decide; naive_solver.
Qed.

Lemma transferAttrs_go_calls (node : Node) (attrs : list Attribute) (v : visitorData) :
  transferAttrs_go node attrs v =
    dom_append
      (sconcat (setAttr_call <$>
         ((λ a, (emitted_key a, Val a)) <$> filter (λ a, kept node a = true) attrs))) v.
Proof.
  revert v. induction attrs as [|a attrs IH]; intros v.
  - by rewrite dom_append_nil.
  - cbn [transferAttrs_go]. rewrite blocked_or_src, filter_cons.
    case_decide as Hk.
    + rewrite Hk. cbn [negb]. rewrite IH, emitAttr_call, dom_append_append. done.
    + apply not_true_is_false in Hk. rewrite Hk. cbn [negb]. apply IH.
Qed.

Lemma emitted_key_not_src (node : Node) (a : Attribute) :
  is_tomato node = true → kept node a = true → emitted_key a ≠ "src".
Proof.
  unfold kept, emitted_key. intros -> Hk.
  apply andb_true_iff in Hk as [_ Hk]. simpl in Hk.
  apply negb_true_iff, bool_decide_eq_false in Hk.
  repeat case_decide; try done.
  - destruct (Namespace a) as [|c1 [|c2 [|c3 [|c4 s]]]]; try done.
    all: unfold String.app; simpl; intros [=]; done.
  - intros He.
    assert (∀ (ns k : string), ns +:+ ":" +:+ k = "src" → False) as Hno.
    { intros [|c1 [|c2 [|c3 [|c4 s]]]] k; unfold String.app; simpl; try done;
        intros [=]; subst; try done.
      all: destruct s; done. }
    by eapply Hno.
Qed.

(** C3. Attribute transfer appends to the construction buffer one
    attribute-set call for each attribute of the node, in the order of
    the node: the attributes on the block-list are left out, and [src]
    on a [tomato] node; [_id] is set as [id]; a name space comes in
    front of the key, with a colon; the value is escaped as the content
    of a text node is. Nothing else of the visitor changes. *)
Theorem transferAttrs_calls (node : Node) (v : visitorData) :
  transferAttrs node v = dom_append (sconcat (setAttr_call <$> transferred node)) v ∧
  (∀ kv, kv ∈ transferred node ↔
     ∃ a, a ∈ Attr node ∧ Key a ≠ "_ref" ∧ Key a ≠ "_ignorecontent" ∧
          ¬ (ToLower (Data node) = "tomato" ∧ Key a = "src") ∧
          kv = ((if decide (Namespace a = "") then "" else Namespace a +:+ ":") +:+
                (if decide (Key a = "_id") then "id" else Key a), Val a)) ∧
  (∃ keep : list Attribute, keep `sublist_of` Attr node ∧
     transferred node = (λ a, (emitted_key a, Val a)) <$> keep).
Proof.
  split_and!.
  - apply transferAttrs_go_calls.
  - intros kv. unfold transferred. rewrite list_elem_of_fmap.
    assert (Hkept : ∀ a, kept node a = true ↔
      Key a ≠ "_ref" ∧ Key a ≠ "_ignorecontent" ∧
      ¬ (ToLower (Data node) = "tomato" ∧ Key a = "src")).
    { intros a. unfold kept, is_tomato.
      destruct (String.eqb_spec (ToLower (Data node)) "tomato");
        repeat case_bool_decide; simpl; naive_solver. }
    assert (Hkey : ∀ a, emitted_key a =
      (if decide (Namespace a = "") then "" else Namespace a +:+ ":") +:+
      (if decide (Key a = "_id") then "id" else Key a)).
    { intros a. unfold emitted_key. case_decide; [done|]. by rewrite sapp_assoc. }
    split.
    + intros (a & -> & Ha). apply list_elem_of_filter in Ha as [Hk Ha].
      exists a. rewrite <- Hkey. apply Hkept in Hk. naive_solver.
    + intros (a & Ha & H1 & H2 & H3 & ->). exists a. rewrite <- Hkey. split; [done|].
      apply list_elem_of_filter. split; [|done]. apply Hkept. done.
  - exists (filter (λ a, kept node a = true) (Attr node)). split; [|done].
    apply sublist_filter.
Qed.

End Attributes.

(** ** The tree *)

Lemma Node_ind (P : Node → Prop) :
  (∀ t d a kids, Forall P kids → P (MkNode t d a kids)) → ∀ n, P n.
Proof.
  intros Hstep. fix IH 1. intros [t d a kids]. apply Hstep.
  induction kids as [|c kids IHk]; constructor; [apply IH|apply IHk].
Qed.

Lemma sapp_nil_l (a : string) : "" +:+ a = a.
Proof. done. Qed.

Lemma visitor_ext (v v' : visitorData) :
  options v = options v' → cssText v = cssText v' → viewName v = viewName v' →
  output v = output v' → domConstruction v = domConstruction v' →
  ignoreSubtree v = ignoreSubtree v' → forceDebugIds v = forceDebugIds v' →
  refs v = refs v' → appendStack v = appendStack v' → v = v'.
Proof. destruct v, v'; simpl; congruence. Qed.

(** An equation between visitors, field by field, with the texts
    associated to the right. *)
Ltac state_fields :=
  cbn [options cssText viewName output domConstruction ignoreSubtree forceDebugIds
       refs appendStack dom_append out_append with_cssText with_output
       with_domConstruction with_ignoreSubtree with_refs with_appendStack].

Ltac state_norm :=
  try (apply (f_equal (λ x, (x, @None error))));
  apply visitor_ext; state_fields;
  cbn [sconcat foldr fmap list_fmap piece_text app fst snd];
  rewrite ?sapp_assoc, ?sapp_nil_r, ?app_nil_r;
  repeat match goal with
         | |- context [String.append EmptyString ?x] =>
             change (String.append EmptyString x) with x
         end;
  try reflexivity.

Section Head.
Context `{!Platform}.

Lemma transferAttrs_text (n : Node) (v : visitorData) :
  transferAttrs n v = dom_append (attrs_text n) v.
Proof. apply transferAttrs_go_calls. Qed.

Lemma emitAttr_plain (k val : string) (v : visitorData) :
  emitAttr "" k val v = dom_append (setAttr_call (k, val)) v.
Proof.
  unfold emitAttr, setAttr_call. by rewrite escapeText_escape_quotes.
Qed.

Lemma head_suppressed (n : Node) (p : ptr) (depth : nat) (v : visitorData) :
  ignoreSubtree v = true → head n p depth v = (v, None).
Proof. intros Hi. unfold head. by rewrite Hi. Qed.

Lemma head_no_src (n : Node) (p : ptr) (depth : nat) (v : visitorData) :
  ignoreSubtree v = false → reference n depth = true → getAttr n "src" = "" →
  ∃ v', head n p depth v = (v', Some no_src).
Proof.
  intros Hi Hr Hs. unfold reference, nested, is_tomato in Hr.
  apply andb_true_iff in Hr as [Hr Ht]. apply andb_true_iff in Hr as [Hty Hd].
  apply bool_decide_eq_true in Hty.
  unfold head. rewrite Hi, Hty, Ht, Hs.
  destruct depth as [|d]; [discriminate|]. eexists. reflexivity.
Qed.

Lemma head_after (n : Node) (p : ptr) (depth : nat) (v : visitorData) :
  ignoreSubtree v = false →
  (reference n depth = true → getAttr n "src" ≠ "") →
  head n p depth v = (after_head v n p depth, None).
Proof.
  intros Hi Hsrc. unfold head, after_head, head_pieces, nested. rewrite Hi.
  destruct (Type_ n) eqn:Hty; cbn [bool_decide decide_rel andb negb];
    rewrite ?bool_decide_eq_false_2 by done; cbn [andb];
    try (unfold pieces_text; cbn [fmap list_fmap sconcat foldr];
         by rewrite dom_append_nil).
  - (* a text node *)
    unfold text_call, pieces_text. cbn [fmap list_fmap sconcat foldr piece_text].
    destruct (String.eqb_spec "" (GoTrim.TrimFunc (Data n) trimmable)) as [He|Hne];
      cbn [negb].
    + rewrite decide_True by done. by rewrite sapp_nil_r, dom_append_nil.
    + rewrite decide_False by done.
      rewrite !dom_append_append, Replace_newlines, escapeText_escape_quotes.
      by rewrite !sapp_assoc, sapp_nil_r.
  - (* an element *)
    rewrite bool_decide_eq_true_2 by done. cbn [andb].
    destruct depth as [|d]; cbn [Nat.eqb negb].
    + rewrite transferAttrs_text. unfold root_text, pieces_text.
      state_fields.
      destruct (forceDebugIds v && negb (hasAttr n DebugIdAttr)) eqn:Hdbg;
        rewrite ?emitAttr_plain; state_norm.
    + assert (Href : reference n (S d) = is_tomato n).
      { unfold reference, nested. rewrite Hty. by rewrite bool_decide_eq_true_2. }
      rewrite Href in Hsrc. unfold is_tomato in *.
      unfold marked, marker, field_decl, declared_type, construct_text, class_name,
        marker, is_tomato, pieces_text.
      rewrite !transferAttrs_text.
      destruct (String.eqb (ToLower (Data n)) "tomato") eqn:Htom.
      * destruct (String.eqb_spec (getAttr n "src") "") as [He|Hne]; [by destruct Hsrc|].
        destruct (String.eqb (getAttr n FieldRefAttr) "");
          cbn [negb]; state_norm.
      * destruct (String.eqb (getAttr n FieldRefAttr) "");
          cbn [negb]; state_norm; exact Hi.
Qed.

End Head.

Section Tree.
Context `{!Platform}.

Lemma traverse_unfold (n : Node) (p : ptr) (depth : nat) (v : visitorData) :
  traverse n p depth v =
    match head n p depth v with
    | (v1, Some err) => (v1, Some err)
    | (v1, None) =>
        match traverse_children (Children n) p 0 depth v1 with
        | (v2, Some err) => (v2, Some err)
        | (v2, None) => (tail n p depth v2, None)
        end
    end.
Proof.
  destruct n as [t d a kids]. cbn [traverse Children].
  destruct (head (MkNode t d a kids) p depth v) as [v1 [e|]]; [done|].
  generalize 0%nat. revert v1.
  induction kids as [|c kids IH]; intros v1 i; [done|].
  cbn [traverse_children].
  destruct (traverse c (p ++ [i]) (S depth) v1) as [v' [e|]]; [done|].
  apply IH.
Qed.

Lemma tree_pieces_unfold (v : visitorData) (n : Node) (depth : nat) :
  tree_pieces v n depth =
    head_pieces v n depth ++
    (if reference n depth then []
     else flat_map (λ c, tree_pieces v c (S depth)) (Children n)) ++
    (if nested n depth then [Close] else []).
Proof. by destruct n. Qed.

Lemma tree_decls_unfold (opts : GeneratorOptions) (n : Node) (depth : nat) :
  tree_decls opts n depth =
    (if nested n depth && marked n then [field_decl opts n] else []) ++
    (if reference n depth then []
     else flat_map (λ c, tree_decls opts c (S depth)) (Children n)).
Proof. by destruct n. Qed.

Lemma accepted_unfold (n : Node) (depth : nat) :
  accepted n depth =
    if reference n depth then negb (String.eqb (getAttr n "src") "")
    else forallb (λ c, accepted c (S depth)) (Children n).
Proof. by destruct n. Qed.

Lemma head_pieces_config (v v' : visitorData) (n : Node) (depth : nat) :
  same_config v v' → head_pieces v' n depth = head_pieces v n depth.
Proof.
  intros (Ho & Hf & Hn). unfold head_pieces, root_text. by rewrite Ho, Hf, Hn.
Qed.

Lemma tree_pieces_config (v v' : visitorData) (n : Node) (depth : nat) :
  same_config v v' → tree_pieces v' n depth = tree_pieces v n depth.
Proof.
  intros Hc. revert depth. induction n as [t d a kids IH] using Node_ind. intros depth.
  rewrite !tree_pieces_unfold, (head_pieces_config v v') by done.
  f_equal. f_equal. destruct (reference _ _); [done|]. cbn [Children].
  induction IH as [|c kids Hc' _ IHk]; [done|]. simpl. by rewrite Hc', IHk.
Qed.

Lemma pieces_text_app (l1 l2 : list piece) :
  pieces_text (l1 ++ l2) = pieces_text l1 +:+ pieces_text l2.
Proof. unfold pieces_text. by rewrite fmap_app, sconcat_app. Qed.

End Tree.

Lemma fresh_child (p : ptr) (i : nat) (st : list ptr) : fresh p st → fresh (p ++ [i]) st.
Proof.
  intros Hf. eapply Forall_impl; [exact Hf|]. intros q Hq Hp. apply Hq.
  destruct Hp as [k ->]. exists ([i] ++ k). by rewrite app_assoc.
Qed.

Lemma fresh_child_pushed (p : ptr) (i : nat) (st : list ptr) :
  fresh p st → fresh (p ++ [i]) (st ++ [p]).
Proof.
  intros Hf. apply Forall_app. split; [by apply fresh_child|].
  constructor; [|constructor]. intros [k Hk].
  apply (f_equal length) in Hk. rewrite !length_app in Hk. simpl in Hk. lia.
Qed.

Lemma fresh_last (p q : ptr) (st : list ptr) : fresh p st → last st = Some q → q ≠ p.
Proof.
  intros Hf Hl ->. apply last_Some in Hl as [st' ->].
  apply Forall_app in Hf as [_ Hf]. apply Forall_cons in Hf as [Hf _]. by apply Hf.
Qed.

Section Traversal.
Context `{!Platform}.

Lemma tail_pop (n : Node) (p : ptr) (depth : nat) (v : visitorData) (st : list ptr) :
  appendStack v = st ++ [p] →
  tail n p depth v = with_ignoreSubtree false (dom_append ")" (with_appendStack st v)).
Proof.
  intros Hs. unfold tail. rewrite Hs, last_snoc, decide_True by done.
  by rewrite removelast_last.
Qed.

Lemma tail_keep (n : Node) (p : ptr) (depth : nat) (v : visitorData) :
  (∀ q, last (appendStack v) = Some q → q ≠ p) → tail n p depth v = v.
Proof.
  intros Hq. unfold tail. destruct (last (appendStack v)) as [q|]; [|done].
  by rewrite decide_False by by apply Hq.
Qed.

(** Below a reference nothing happens: [head] returns at once and
    [tail] finds the reference on top of the stack, not its node. *)
Lemma traverse_suppressed (n : Node) :
  ∀ (p : ptr) (depth : nat) (v : visitorData),
    ignoreSubtree v = true →
    (∀ q, last (appendStack v) = Some q → ¬ p `prefix_of` q) →
    traverse n p depth v = (v, None).
Proof.
  induction n as [t dt a kids IH] using Node_ind. intros p depth v Hi Hl.
  rewrite traverse_unfold, head_suppressed by done. cbn [Children].
  assert (Hkids : ∀ i, traverse_children kids p i depth v = (v, None)).
  { induction IH as [|c kids Hc _ IHk]; intros i; [done|].
    cbn [traverse_children]. rewrite Hc; [apply IHk|done|].
    intros q Hq [k Hk]. apply (Hl q Hq). exists ([i] ++ k). by rewrite app_assoc. }
  rewrite Hkids, tail_keep; [done|].
  intros q Hq ->. by apply (Hl p Hq).
Qed.

Lemma grown_config (v : visitorData) (n : Node) (depth : nat) :
  same_config v (grown v n depth).
Proof. done. Qed.

Lemma after_head_config (v : visitorData) (n : Node) (p : ptr) (depth : nat) :
  same_config v (after_head v n p depth).
Proof. unfold after_head. by destruct (nested n depth). Qed.

(** The children of a node that is not suppressed, one after the
    other. *)
Lemma traverse_children_grown (cs : list Node) (p : ptr) (depth : nat) :
  Forall (λ c, ∀ (p : ptr) (depth : nat) (v : visitorData),
            ignoreSubtree v = false → fresh p (appendStack v) →
            (accepted c depth = true → traverse c p depth v = (grown v c depth, None)) ∧
            (accepted c depth = false → ∃ v', traverse c p depth v = (v', Some no_src))) cs →
  ∀ (i : nat) (v : visitorData),
    ignoreSubtree v = false → (∀ j, fresh (p ++ [j]) (appendStack v)) →
    (forallb (λ c, accepted c (S depth)) cs = true →
       traverse_children cs p i depth v = (grown_children v cs depth, None)) ∧
    (forallb (λ c, accepted c (S depth)) cs = false →
       ∃ v', traverse_children cs p i depth v = (v', Some no_src)).
Proof.
  induction 1 as [|c cs Hc _ IH]; intros i v Hi Hf.
  - split; [|done]. intros _. cbn [traverse_children]. f_equal.
    unfold grown_children. apply visitor_ext; state_fields; try done.
    + by rewrite sapp_nil_r.
    + by rewrite app_nil_r.
  - cbn [forallb traverse_children].
    destruct (Hc (p ++ [i]) (S depth) v Hi (Hf i)) as [Hok Hbad].
    destruct (accepted c (S depth)) eqn:Hacc.
    + rewrite (Hok eq_refl). cbn [andb].
      destruct (IH (S i) (grown v c (S depth))) as [IHok IHbad]; [done|done|].
      split; [|done]. intros Hall. rewrite (IHok Hall). f_equal.
      unfold grown_children, grown. apply visitor_ext; state_fields; try done.
      * cbn [flat_map]. rewrite pieces_text_app, sapp_assoc. f_equal. f_equal.
        f_equal. apply flat_map_ext. intros c'.
        by apply (tree_pieces_config v).
      * cbn [flat_map]. by rewrite app_assoc.
    + destruct (Hbad eq_refl) as [v' Hv']. rewrite Hv'. split; [done|]. by exists v'.
Qed.

(** The traversal of a node that is not suppressed: it fails on the
    first reference without a source, and otherwise writes the pieces
    of the tree, queues its declarations and leaves the stack and the
    flag as they were. *)
Lemma traverse_grown (n : Node) :
  ∀ (p : ptr) (depth : nat) (v : visitorData),
    ignoreSubtree v = false → fresh p (appendStack v) →
    (accepted n depth = true → traverse n p depth v = (grown v n depth, None)) ∧
    (accepted n depth = false → ∃ v', traverse n p depth v = (v', Some no_src)).
Proof.
  induction n as [t dt a kids IH] using Node_ind. intros p depth v Hi Hf.
  set (n := MkNode t dt a kids) in *.
  rewrite traverse_unfold, accepted_unfold. change (Children n) with kids.
  destruct (reference n depth) eqn:Href.
  - (* a reference *)
    destruct (String.eqb_spec (getAttr n "src") "") as [Hs|Hs]; cbn [negb].
    + split; [done|]. intros _.
      destruct (head_no_src n p depth v Hi Href Hs) as [v' Hv']. rewrite Hv'. by exists v'.
    + split; [|done]. intros _. rewrite head_after by done.
      assert (Hn : nested n depth = true ∧ is_tomato n = true).
      { unfold reference in Href. by apply andb_true_iff in Href. }
      destruct Hn as [Hn Ht].
      assert (Hkids : ∀ cs i, traverse_children cs p i depth (after_head v n p depth)
                              = (after_head v n p depth, None)).
      { intros cs. induction cs as [|c cs IHk]; intros i; [done|].
        cbn [traverse_children]. rewrite traverse_suppressed; [apply IHk| |].
        - unfold after_head. rewrite Hn. state_fields. done.
        - unfold after_head. rewrite Hn. state_fields. rewrite last_snoc.
          intros q [= <-] [k Hk]. apply (f_equal length) in Hk.
          rewrite !length_app in Hk. simpl in Hk. lia. }
      rewrite Hkids. rewrite (tail_pop _ _ _ _ (appendStack v)).
      2:{ unfold after_head. rewrite Hn. by state_fields. }
      f_equal. unfold grown, after_head. rewrite Hn, Ht.
      rewrite tree_pieces_unfold, tree_decls_unfold, Href, Hn.
      apply visitor_ext; state_fields; try done.
      * rewrite !pieces_text_app, sapp_assoc. done.
      * cbn [andb]. by rewrite app_nil_r.
  - (* any other node *)
    rewrite head_after by (intros; congruence).
    assert (Hflag : ignoreSubtree (after_head v n p depth) = false).
    { unfold after_head. destruct (nested n depth) eqn:Hn; state_fields; [|done].
      unfold reference in Href. by rewrite Hn in Href. }
    assert (Hfresh : ∀ j, fresh (p ++ [j]) (appendStack (after_head v n p depth))).
    { intros j. unfold after_head. destruct (nested n depth); state_fields.
      - by apply fresh_child_pushed.
      - by apply fresh_child. }
    destruct (traverse_children_grown kids p depth IH 0 _ Hflag Hfresh) as [Hok Hbad].
    split.
    + intros Hall. rewrite (Hok Hall). f_equal.
      unfold grown, grown_children.
      rewrite tree_pieces_unfold, tree_decls_unfold, Href. change (Children n) with kids.
      rewrite (flat_map_ext (λ c, tree_pieces (after_head v n p depth) c (S depth))
                 (λ c, tree_pieces v c (S depth)))
        by (intros; by apply tree_pieces_config, after_head_config).
      unfold after_head. destruct (nested n depth) eqn:Hn.
      * rewrite (tail_pop _ _ _ _ (appendStack v)) by by state_fields.
        apply visitor_ext; state_fields; try done.
        -- by rewrite !pieces_text_app, !sapp_assoc.
        -- cbn [andb]. by rewrite app_assoc.
      * rewrite tail_keep.
        2:{ state_fields. intros q Hq. by apply (fresh_last p q (appendStack v)). }
        apply visitor_ext; state_fields; try done.
        -- by rewrite app_nil_r, !pieces_text_app, !sapp_assoc.
    + intros Hall. destruct (Hbad Hall) as [v' Hv']. rewrite Hv'. by exists v'.
Qed.

End Traversal.

Lemma depth_after_app (k : nat) (l1 l2 : list piece) :
  depth_after k (l1 ++ l2) = depth_after k l1 ≫= λ k', depth_after k' l2.
Proof.
  revert k. induction l1 as [|x l1 IH]; intros k; [done|].
  destruct x; simpl; try apply IH. destruct k; [done|apply IH].
Qed.

Section Preorder.
Context `{!Platform}.

Lemma preorder_unfold (n : Node) (p : ptr) (depth : nat) :
  preorder n p depth =
    (p, n, depth) ::
    (if reference n depth then [] else preorder_children (Children n) p 0 depth).
Proof.
  destruct n as [t d a kids]. cbn [preorder Children]. f_equal.
  destruct (reference _ _); [done|]. generalize 0%nat.
  induction kids as [|c kids IH]; intros i; [done|].
  cbn [preorder_children]. by rewrite IH.
Qed.

(** A property of every visited node of a tree, from the same property
    of the children. *)
Lemma preorder_ind (P : Node → ptr → nat → Prop) :
  (∀ n p depth,
     (reference n depth = false →
      ∀ i c, Children n !! i = Some c → P c (p ++ [i]) (S depth)) →
     P n p depth) →
  ∀ n p depth, P n p depth.
Proof.
  intros Hstep n. induction n as [t d a kids IH] using Node_ind.
  intros p depth. apply Hstep. intros _ i c Hc. cbn [Children] in Hc.
  rewrite Forall_lookup in IH. by apply (IH i c).
Qed.

Lemma preorder_children_lookup (cs : list Node) (p : ptr) (i : nat) (depth : nat) x :
  x ∈ preorder_children cs p i depth ↔
  ∃ j c, cs !! j = Some c ∧ x ∈ preorder c (p ++ [i + j]%nat) (S depth).
Proof.
  revert i. induction cs as [|c cs IH]; intros i; cbn [preorder_children].
  - split; [by intros ?%elem_of_nil|]. by intros (j & c & Hc & _).
  - rewrite elem_of_app, IH. split.
    + intros [Hx|(j & c' & Hc & Hx)].
      * exists 0%nat, c. by rewrite Nat.add_0_r.
      * exists (S j), c'. split; [done|]. by replace (i + S j)%nat with (S i + j)%nat by lia.
    + intros ([|j] & c' & Hc & Hx).
      * left. simpl in Hc. injection Hc as ->. by rewrite Nat.add_0_r in Hx.
      * right. exists j, c'. split; [done|].
        by replace (S i + j)%nat with (i + S j)%nat by lia.
Qed.

Lemma preorder_prefix (n : Node) (p : ptr) (depth : nat) x :
  x ∈ preorder n p depth → p `prefix_of` x.1.1.
Proof.
  revert x. induction n, p, depth using preorder_ind. intros x.
  rewrite preorder_unfold, elem_of_cons. intros [->|Hx]; [done|].
  destruct (reference n depth); [by apply elem_of_nil in Hx|].
  apply preorder_children_lookup in Hx as (j & c & Hc & Hx).
  apply (H0 eq_refl _ _ Hc) in Hx. etrans; [|exact Hx]. by apply prefix_app_r.
Qed.

Lemma preorder_children_NoDup (cs : list Node) (p : ptr) (depth : nat) :
  (∀ i c, cs !! i = Some c → ∀ q, NoDup (preorder c q (S depth)).*1.*1) →
  ∀ i, NoDup (preorder_children cs p i depth).*1.*1.
Proof.
  induction cs as [|c cs IH]; intros Hcs i; cbn [preorder_children].
  - constructor.
  - rewrite !fmap_app. apply NoDup_app. split_and!.
    + apply (Hcs 0%nat c eq_refl).
    + intros q Hq Hq'.
      apply list_elem_of_fmap in Hq as ([q1 d1] & -> & Hq).
      apply list_elem_of_fmap in Hq as ([[q2 n2] d2] & [= -> ->] & Hq).
      apply list_elem_of_fmap in Hq' as ([q1' d1'] & Heq & Hq').
      apply list_elem_of_fmap in Hq' as ([[q2' n2'] d2'] & [= -> ->] & Hq').
      simpl in Heq. subst q2'.
      apply preorder_prefix in Hq as [k Hk]. simpl in Hk.
      apply preorder_children_lookup in Hq' as (j & c' & _ & Hq').
      apply preorder_prefix in Hq' as [k' Hk']. simpl in Hk'.
      rewrite Hk, <- !app_assoc in Hk'. apply app_inv_head in Hk'.
      simpl in Hk'. injection Hk' as Hij _. lia.
    + apply IH. intros j c' Hc'. apply (Hcs (S j) c' Hc').
Qed.

(** A pointer stands for one node: no two visited nodes share it. *)
Lemma preorder_NoDup (n : Node) (p : ptr) (depth : nat) :
  NoDup (preorder n p depth).*1.*1.
Proof.
  revert p. revert depth.
  induction n as [t d a kids IH] using Node_ind. intros depth p.
  rewrite preorder_unfold. cbn [fmap list_fmap fst]. apply NoDup_cons. split.
  - intros Hp. destruct (reference _ _); [by apply elem_of_nil in Hp|].
    apply list_elem_of_fmap in Hp as ([q1 d1] & Heq & Hp).
    apply list_elem_of_fmap in Hp as ([[q2 n2] d2] & [= -> ->] & Hp).
    simpl in Heq. subst q2.
    apply preorder_children_lookup in Hp as (j & c' & _ & Hp).
    apply preorder_prefix in Hp as [k Hk]. simpl in Hk.
    apply (f_equal length) in Hk. rewrite !length_app in Hk. simpl in Hk. lia.
  - destruct (reference _ _); [constructor|]. cbn [Children].
    apply preorder_children_NoDup. intros i c Hc q.
    rewrite Forall_lookup in IH. apply (IH i c Hc).
Qed.

End Preorder.

Section Fields.
Context `{!Platform}.

(** What is gathered node by node along a traversal is gathered along
    the list of the visited nodes. *)
Lemma preorder_gather {A} (f : Node → nat → list A) (g : ptr * Node * nat → list A) :
  (∀ n p depth,
     f n depth = g (p, n, depth) ++
       if reference n depth then []
       else flat_map (λ c, f c (S depth)) (Children n)) →
  ∀ n p depth, f n depth = flat_map g (preorder n p depth).
Proof.
  intros Hf n. induction n as [t d a kids IH] using Node_ind. intros p depth.
  rewrite (Hf _ p), preorder_unfold. cbn [flat_map]. f_equal.
  destruct (reference _ _); [done|]. cbn [Children]. generalize 0%nat.
  induction IH as [|c kids Hc _ IHk]; intros i; [done|].
  cbn [flat_map preorder_children]. rewrite flat_map_app. f_equal; [apply Hc|apply IHk].
Qed.

Lemma flat_map_filter {A B} (P : A → bool) (h : A → B) (l : list A) :
  flat_map (λ x, if P x then [h x] else []) l = h <$> filter (λ x, P x = true) l.
Proof.
  induction l as [|x l IH]; [done|]. cbn [flat_map]. rewrite filter_cons.
  destruct (P x) eqn:E.
  - rewrite decide_True by done. simpl. by rewrite IH.
  - rewrite decide_False by congruence. by rewrite IH.
Qed.

Lemma tree_decls_preorder (opts : GeneratorOptions) (n : Node) (p : ptr) (depth : nat) :
  tree_decls opts n depth =
    (λ x, field_decl opts x.1.2) <$> filter (λ x, is_field x = true) (preorder n p depth).
Proof.
  rewrite <- (flat_map_filter is_field).
  apply (preorder_gather (tree_decls opts)
           (λ x, if is_field x then [field_decl opts x.1.2] else [])).
  intros n' p' d'. by rewrite tree_decls_unfold.
Qed.

Lemma assigned_app (l1 l2 : list piece) : assigned (l1 ++ l2) = assigned l1 ++ assigned l2.
Proof. apply omap_app. Qed.

Lemma assigned_head_pieces (v : visitorData) (n : Node) (depth : nat) :
  assigned (head_pieces v n depth) = if nested n depth && marked n then [marker n] else [].
Proof.
  unfold head_pieces, nested. destruct (Type_ n); try done.
  rewrite bool_decide_eq_true_2 by done.
  destruct depth; [done|]. cbn [Nat.eqb negb andb]. by destruct (marked n).
Qed.

Lemma assigned_flat_map {A} (f : A → list piece) (l : list A) :
  assigned (flat_map f l) = flat_map (λ x, assigned (f x)) l.
Proof.
  induction l as [|x l IH]; [done|]. cbn [flat_map]. by rewrite assigned_app, IH.
Qed.

Lemma assigned_preorder (v : visitorData) (n : Node) (p : ptr) (depth : nat) :
  assigned (tree_pieces v n depth) =
    (λ x, marker x.1.2) <$> filter (λ x, is_field x = true) (preorder n p depth).
Proof.
  rewrite <- (flat_map_filter is_field).
  apply (preorder_gather (λ n d, assigned (tree_pieces v n d))
           (λ x, if is_field x then [marker x.1.2] else [])).
  intros n' p' d'. rewrite tree_pieces_unfold, !assigned_app, assigned_head_pieces.
  unfold is_field. cbn [fst snd]. f_equal.
  destruct (reference n' d').
  - by destruct (nested n' d').
  - rewrite assigned_flat_map. by destruct (nested n' d'); rewrite ?app_nil_r.
Qed.

Lemma accepted_preorder (n : Node) (p : ptr) (depth : nat) :
  accepted n depth = forallb (λ x, negb (dangling x)) (preorder n p depth).
Proof.
  revert p depth. induction n as [t d a kids IH] using Node_ind. intros p depth.
  rewrite accepted_unfold, preorder_unfold. cbn [forallb]. unfold dangling at 1.
  cbn [fst snd Children].
  assert (Hkids : ∀ i, forallb (λ c, accepted c (S depth)) kids =
                       forallb (λ x, negb (dangling x)) (preorder_children kids p i depth)).
  { induction IH as [|c kids Hc _ IHk]; intros i; [done|].
    cbn [forallb preorder_children]. rewrite forallb_app. f_equal; [apply Hc|apply IHk]. }
  destruct (reference _ _) eqn:Href; cbn [andb forallb negb].
  - by rewrite andb_true_r.
  - apply Hkids.
Qed.

Lemma depth_after_head_pieces (k : nat) (v : visitorData) (n : Node) (depth : nat) :
  depth_after k (head_pieces v n depth) = Some (if nested n depth then S k else k).
Proof.
  unfold head_pieces, nested. destruct (Type_ n); try done.
  rewrite bool_decide_eq_true_2 by done.
  destruct depth; [done|]. cbn [Nat.eqb negb andb]. by destruct (marked n).
Qed.

(** Every append call that a traversal opens it closes. *)
Lemma tree_pieces_matched (v : visitorData) (n : Node) :
  ∀ depth k, depth_after k (tree_pieces v n depth) = Some k.
Proof.
  induction n as [t d a kids IH] using Node_ind. intros depth k.
  assert (Hkids : ∀ k', depth_after k' (flat_map (λ c, tree_pieces v c (S depth)) kids)
                        = Some k').
  { intros k'. induction IH as [|c kids Hc _ IHk]; [done|].
    cbn [flat_map]. rewrite depth_after_app, Hc. apply IHk. }
  rewrite tree_pieces_unfold, depth_after_app, depth_after_head_pieces.
  cbn [mbind option_bind Children]. rewrite depth_after_app.
  destruct (reference _ _) eqn:Href.
  - unfold reference in Href. apply andb_true_iff in Href as [-> _]. done.
  - rewrite Hkids. cbn [mbind option_bind]. by destruct (nested _ _).
Qed.

End Fields.

Lemma HasPrefix_other (x c : ascii) (s pat : string) :
  x ≠ c → GoStrings.HasPrefix (String x s) (String c pat) = false.
Proof.
  intros Hne. unfold GoStrings.HasPrefix; simpl.
  destruct (ascii_dec c x) as [->|_]; [done|done].
Qed.

Lemma LastIndex_from_char_step (i acc : Z) (x c : ascii) (s : string) :
  GoStrings.LastIndex_from i acc (String x s) (String c "") =
  GoStrings.LastIndex_from (i + 1) (if decide (x = c) then i else acc) s (String c "").
Proof.
  cbn [GoStrings.LastIndex_from]. rewrite HasPrefix_char.
  by destruct (decide (x = c)); [rewrite bool_decide_eq_true_2|rewrite bool_decide_eq_false_2].
Qed.

Lemma LastIndex_from_absent (i acc : Z) (c : ascii) (s : string) :
  all_bytes (λ x, negb (bool_decide (x = c))) s = true →
  GoStrings.LastIndex_from i acc s (String c "") = acc.
Proof.
  revert i. induction s as [|x s IH]; intros i Hs; [done|].
  simpl in Hs. apply andb_true_iff in Hs as [Hx Hs].
  apply negb_true_iff, bool_decide_eq_false in Hx.
  rewrite LastIndex_from_char_step, decide_False by done. by apply IH.
Qed.

Lemma LastIndex_from_last (i acc : Z) (c : ascii) (d s : string) :
  all_bytes (λ x, negb (bool_decide (x = c))) s = true →
  GoStrings.LastIndex_from i acc (d +:+ String c s) (String c "") = i + len d.
Proof.
  revert i acc. induction d as [|x d IH]; intros i acc Hs.
  - change ("" +:+ String c s) with (String c s).
    rewrite LastIndex_from_char_step, decide_True by done.
    rewrite LastIndex_from_absent by done. unfold len; simpl; lia.
  - rewrite sapp_cons, LastIndex_from_char_step, IH by done.
    unfold len; simpl; lia.
Qed.

Lemma sdrop_app (d s : string) : sdrop (String.length d) (d +:+ s) = s.
Proof. induction d as [|x d IH]; [done|]. by rewrite sapp_cons. Qed.

Lemma all_bytes_app (P : ascii → bool) (a b : string) :
  all_bytes P (a +:+ b) = all_bytes P a && all_bytes P b.
Proof.
  induction a as [|x a IH]; [done|]. rewrite sapp_cons. simpl. by rewrite IH, andb_assoc.
Qed.

Lemma Replace_extension (base : string) :
  all_bytes (λ x, negb (bool_decide (x = dot))) base = true →
  GoStrings.Replace (base +:+ ".htmto") ".htmto" "" 1 = base.
Proof.
  intros Hb. unfold GoStrings.Replace.
  change (String.eqb ".htmto" "" || (1 =? 0)) with false. cbv iota.
  induction base as [|x base IH].
  - reflexivity.
  - simpl in Hb. apply andb_true_iff in Hb as [Hx Hb].
    apply negb_true_iff, bool_decide_eq_false in Hx.
    rewrite sapp_cons. cbn [GoStrings.Replace_go].
    rewrite (HasPrefix_other x dot) by done. rewrite andb_false_r. by rewrite IH.
Qed.

(** The class name of a file [base.htmto] in any directory, where [base]
    has neither a slash nor a dot and begins with an ASCII byte: [base]
    with [View] after it and its first letter in upper case. *)
Lemma getViewName_base (dir : string) (c : ascii) (rest : string) :
  (dir = "" ∨ ∃ d, dir = d +:+ "/") →
  all_bytes (λ x, negb (bool_decide (x = slash)) && negb (bool_decide (x = dot)))
    (String c rest) = true →
  byte_of c < 128 →
  getViewName (dir +:+ String c rest +:+ ".htmto") = String (upper c) (rest +:+ "View").
Proof.
  intros Hdir Hb Hc.
  assert (Hs : all_bytes (λ x, negb (bool_decide (x = slash))) (String c rest +:+ ".htmto")
               = true).
  { rewrite all_bytes_app. apply andb_true_iff. split; [|done].
    clear -Hb. induction (String c rest) as [|x s IH]; [done|].
    simpl in *. apply andb_true_iff in Hb as [Hx Hb].
    apply andb_true_iff in Hx as [-> _]. by rewrite IH. }
  assert (Hd : all_bytes (λ x, negb (bool_decide (x = dot))) (String c rest) = true).
  { clear -Hb. induction (String c rest) as [|x s IH]; [done|].
    simpl in *. apply andb_true_iff in Hb as [Hx Hb].
    apply andb_true_iff in Hx as [_ ->]. by rewrite IH. }
  assert (Hsl : sdrop (Z.to_nat (let i := GoStrings.LastIndex
                         (dir +:+ String c rest +:+ ".htmto") "/" in
                       if i <? 0 then 0 else i + 1))
                  (dir +:+ String c rest +:+ ".htmto") = String c rest +:+ ".htmto").
  { destruct Hdir as [->|[d ->]].
    - unfold GoStrings.LastIndex.
      change ("" +:+ String c rest +:+ ".htmto") with (String c rest +:+ ".htmto").
      change "/"%string with (String slash "").
      by rewrite LastIndex_from_absent by done.
    - unfold GoStrings.LastIndex. rewrite sapp_assoc.
      change ("/" +:+ String c rest +:+ ".htmto")
        with (String slash (String c rest +:+ ".htmto")).
      change "/"%string with (String slash "").
      rewrite LastIndex_from_last by done. cbn zeta.
      replace (0 + len d <? 0) with false by (symmetry; apply Z.ltb_ge; unfold len; lia).
      replace (Z.to_nat (0 + len d + 1)) with (String.length (d +:+ "/")).
      + change (String slash (String c rest +:+ ".htmto"))
          with ("/" +:+ String c rest +:+ ".htmto").
        rewrite <- sapp_assoc. apply sdrop_app.
      + clear. unfold len. induction d as [|x d IH]; [done|].
        rewrite sapp_cons. simpl String.length. lia. }
  unfold getViewName. cbn zeta in Hsl. rewrite Hsl, Replace_extension by done.
  rewrite sapp_cons. unfold GoStrings.ToUpper1, upper.
  replace (byte_of c <? 128) with true by lia.
  by destruct ((97 <=? byte_of c) && (byte_of c <=? 122)).
Qed.

(** The text after the last slash. *)
Lemma after_last_slash (dir base : string) :
  (dir = "" ∨ ∃ d, dir = d +:+ "/") →
  all_bytes (λ x, negb (bool_decide (x = slash))) base = true →
  sdrop (Z.to_nat (let i := GoStrings.LastIndex (dir +:+ base) "/" in
                   if i <? 0 then 0 else i + 1)) (dir +:+ base) = base.
Proof.
  intros Hdir Hs. destruct Hdir as [->|[d ->]].
  - unfold GoStrings.LastIndex. change ("" +:+ base) with base.
    change "/"%string with (String slash "").
    by rewrite LastIndex_from_absent by done.
  - unfold GoStrings.LastIndex. rewrite sapp_assoc.
    change ("/" +:+ base) with (String slash base).
    change "/"%string with (String slash "").
    rewrite LastIndex_from_last by done. cbn zeta.
    replace (0 + len d <? 0) with false by (symmetry; apply Z.ltb_ge; unfold len; lia).
    replace (Z.to_nat (0 + len d + 1)) with (String.length (d +:+ "/")).
    + change (String slash base) with ("/" +:+ base).
      rewrite <- sapp_assoc. apply sdrop_app.
    + clear. unfold len. induction d as [|x d IH]; [done|].
      rewrite sapp_cons. simpl String.length. lia.
Qed.

Lemma ToUpper1_capitalised (c : ascii) (rest : string) :
  GoStrings.ToUpper1 c +:+ rest = capitalised (String c rest).
Proof.
  unfold GoStrings.ToUpper1, capitalised, upper, replacement. cbn zeta.
  destruct (byte_of c <? 128); [|done].
  by destruct ((97 <=? byte_of c) && (byte_of c <=? 122)).
Qed.

(** Once the count of [strings.Replace] is used up, the rest of the text
    is copied, but for what is left of the last match. *)
Lemma Replace_go_rest (old new : string) (k : nat) (s : string) :
  GoStrings.Replace_go old new k 0 s = sdrop k s.
Proof.
  revert k. induction s as [|x s IH]; intros k; [by destruct k|].
  cbn [GoStrings.Replace_go]. destruct k as [|k]; [|apply IH].
  change (negb (0 =? 0)) with false. cbn [andb sdrop]. by rewrite IH.
Qed.

(** [strings.Replace] leaves a text without the pattern as it is. *)
Lemma Replace_go_absent (old new : string) (n i : Z) (s : string) :
  0 ≤ i → GoStrings.Index_from i s old = -1 → GoStrings.Replace_go old new 0 n s = s.
Proof.
  revert i. induction s as [|x s IH]; intros i Hi; [done|].
  cbn [GoStrings.Index_from GoStrings.Replace_go].
  destruct (GoStrings.HasPrefix (String x s) old); [lia|].
  intros Hs. rewrite andb_false_r. f_equal. apply (IH (i + 1)); [lia|done].
Qed.

Lemma HasPrefix_app (pat s : string) : GoStrings.HasPrefix (pat +:+ s) pat = true.
Proof.
  unfold GoStrings.HasPrefix. induction pat as [|x pat IH]; [by destruct s|].
  rewrite sapp_cons. simpl. by destruct (ascii_dec x x).
Qed.

(** [strings.Replace] with the count [1] and nothing to put in takes the
    first occurrence of the pattern away. *)
Lemma Replace_go_first (o : ascii) (old' pre post : string) (i : Z) :
  GoStrings.Index_from i (pre +:+ String o old' +:+ post) (String o old') = i + len pre →
  GoStrings.Replace_go (String o old') "" 0 1 (pre +:+ String o old' +:+ post) = pre +:+ post.
Proof.
  revert i. induction pre as [|x pre IH]; intros i.
  - intros _. change ("" +:+ String o old' +:+ post) with (String o old' +:+ post).
    pose proof (HasPrefix_app (String o old') post) as Hp.
    rewrite sapp_cons in Hp |- *. cbn [GoStrings.Replace_go]. rewrite Hp.
    change (negb (1 =? 0) && true) with true. cbv iota.
    change (if 1 <? 0 then 1 else 1 - 1) with 0. rewrite Replace_go_rest.
    replace (String.length (String o old') - 1)%nat with (String.length old')
      by (simpl; lia).
    rewrite sdrop_app. done.
  - change (String x pre +:+ String o old' +:+ post)
      with (String x (pre +:+ String o old' +:+ post)).
    change (String x pre +:+ post) with (String x (pre +:+ post)).
    cbn [GoStrings.Index_from GoStrings.Replace_go].
    destruct (GoStrings.HasPrefix _ (String o old')).
    + unfold len. simpl String.length. lia.
    + intros Hs. rewrite andb_false_r. f_equal. apply (IH (i + 1)).
      rewrite Hs. unfold len. simpl String.length. lia.
Qed.

(** The class name of a file: the part of the path after its last
    slash, without the first occurrence of the extension if there is one,
    with [View] after it and its first byte in upper case. *)
Lemma getViewName_parts (dir base : string) :
  (dir = "" ∨ ∃ d, dir = d +:+ "/") →
  all_bytes (λ x, negb (bool_decide (x = slash))) base = true →
  (GoStrings.Index base ".htmto" = -1 →
     getViewName (dir +:+ base) = capitalised (base +:+ "View")) ∧
  (∀ pre post, base = pre +:+ ".htmto" +:+ post →
     GoStrings.Index base ".htmto" = len pre →
     getViewName (dir +:+ base) = capitalised (pre +:+ post +:+ "View")).
Proof.
  intros Hdir Hs.
  assert (Hn : getViewName (dir +:+ base) =
               capitalised (GoStrings.Replace base ".htmto" "" 1 +:+ "View")).
  { unfold getViewName. pose proof (after_last_slash dir base Hdir Hs) as Hsl.
    cbn zeta in Hsl |- *. rewrite Hsl.
    destruct (GoStrings.Replace base ".htmto" "" 1 +:+ "View") as [|c rest]; [done|].
    apply ToUpper1_capitalised. }
  rewrite Hn. unfold GoStrings.Replace.
  change (String.eqb ".htmto" "" || (1 =? 0)) with false. cbv iota. split.
  - intros Hi. by rewrite (Replace_go_absent _ _ _ 0 base) by done.
  - intros pre post -> Hi. unfold GoStrings.Index in Hi.
    rewrite (Replace_go_first "."%char "htmto" pre post 0) by (rewrite Hi; lia).
    by rewrite sapp_assoc.
Qed.

Section Reference.
Context `{!Platform}.

Lemma getAttr_go_absent (attrs : list Attribute) (k : string) :
  (∀ a, a ∈ attrs → Key a ≠ k) → getAttr_go attrs k = "".
Proof.
  induction attrs as [|a attrs IH]; intros Hk; [done|].
  cbn [getAttr_go]. rewrite eqb_bool_decide, bool_decide_eq_false_2.
  - apply IH. intros a' Ha'. apply Hk. by right.
  - apply Hk. by left.
Qed.

Lemma dangling_not_accepted (root : Node) (p : ptr) (depth : nat) x :
  x ∈ preorder root p depth → dangling x = true → accepted root depth = false.
Proof.
  intros Hx Hd. rewrite (accepted_preorder root p).
  apply not_true_is_false. intros Hall.
  rewrite forallb_forall in Hall. apply list_elem_of_In, Hall in Hx.
  by rewrite Hd in Hx.
Qed.

Lemma newVisitor_css_flag (opts : GeneratorOptions) (fileName : string) (fdi : bool)
    (css : option string) :
  let v := match css with
           | Some c => setCss c (newVisitor opts fileName fdi)
           | None => newVisitor opts fileName fdi
           end in
  ignoreSubtree v = false ∧ appendStack v = [] ∧ refs v = [] ∧ domConstruction v = "" ∧
  options v = opts ∧ output v = "" ∧ viewName v = getViewName fileName ∧
  forceDebugIds v = fdi.
Proof. by destruct css. Qed.

(** A traversal that comes to a reference without a source fails, and
    the compilation of the file with it. *)
Lemma generateView_dangling (opts : GeneratorOptions) (fileName : string) (fdi : bool)
    (text markup : string) (css : option string) (doc root : Node) x :
  ReadAll fileName = inr text → slurpCss text = Ok (css, markup) →
  Parse markup = inr doc → strip (findRoot doc) = Some root →
  x ∈ preorder root [] 0 → dangling x = true →
  generateView opts fileName fdi = Err no_src.
Proof.
  intros Hr Hs Hp Hroot Hx Hd. unfold generateView, walk. rewrite Hr, Hs, Hp.
  unfold walk_doc. rewrite Hroot. cbn [traverse_root].
  destruct (newVisitor_css_flag opts fileName fdi css) as (Hi & Hst & _).
  set (v := match css with Some c => _ | None => _ end) in *.
  destruct (traverse_grown root [] 0 v Hi) as [_ Hbad].
  { rewrite Hst. constructor. }
  destruct (Hbad (dangling_not_accepted root [] 0 x Hx Hd)) as [v' ->]. done.
Qed.

(** C1, as amended. On a [tomato] element below the root that is not
    suppressed, [head] reads the value of the first [src] attribute: when
    there is none, or its value is empty, [head] returns the error and
    the compilation of the file fails; otherwise the construction buffer
    receives the append call with the instantiation of the class named
    after the source, followed by the attribute-set calls of the node,
    none of which is for [src]. The class name is made from the part
    of the source after its last slash: the first occurrence of
    [.htmto] in it, if there is one, is taken away, [View] is put after
    it and its first byte is put in upper case, where a first byte that
    is not ASCII becomes U+FFFD. So the class name of a source
    [base.htmto] in any directory, where [base] has no dot and begins
    with an ASCII byte, is [base] with [View] after it and its first
    letter in upper case. *)
Theorem reference_needs_source (n : Node) (p : ptr) (d : nat) (v : visitorData) :
  Type_ n = ElementNode → ToLower (Data n) = "tomato" → ignoreSubtree v = false →
  ((∀ a, a ∈ Attr n → Key a ≠ "src") → getAttr n "src" = "") ∧
  (getAttr n "src" = "" →
     (∃ v', head n p (S d) v = (v', Some no_src)) ∧
     (∀ opts fileName fdi text markup css doc root q,
        ReadAll fileName = inr text → slurpCss text = Ok (css, markup) →
        Parse markup = inr doc → strip (findRoot doc) = Some root →
        (q, n, S d) ∈ preorder root [] 0 →
        generateView opts fileName fdi = Err no_src)) ∧
  (getAttr n "src" ≠ "" →
     (∃ v', head n p (S d) v = (v', None) ∧
        domConstruction v' =
          domConstruction v +:+ indent (S d) +:+ ".append(" +:+
          (if marked n then "this." +:+ marker n +:+ " = " else "") +:+
          "<" +:+ getViewName (getAttr n "src") +:+ ">new " +:+
          getViewName (getAttr n "src") +:+ "(doc)" +:+
          sconcat (setAttr_call <$> transferred n)) ∧
     (∀ kv, kv ∈ transferred n → kv.1 ≠ "src") ∧
     (∀ dir base,
        getAttr n "src" = dir +:+ base →
        (dir = "" ∨ ∃ d', dir = d' +:+ "/") →
        all_bytes (λ x, negb (bool_decide (x = slash))) base = true →
        (GoStrings.Index base ".htmto" = -1 →
           getViewName (getAttr n "src") = capitalised (base +:+ "View")) ∧
        (∀ pre post, base = pre +:+ ".htmto" +:+ post →
           GoStrings.Index base ".htmto" = len pre →
           getViewName (getAttr n "src") = capitalised (pre +:+ post +:+ "View"))) ∧
     (∀ dir c rest,
        getAttr n "src" = dir +:+ String c rest +:+ ".htmto" →
        (dir = "" ∨ ∃ d', dir = d' +:+ "/") →
        all_bytes (λ x, negb (bool_decide (x = slash)) && negb (bool_decide (x = dot)))
          (String c rest) = true →
        byte_of c < 128 →
        getViewName (getAttr n "src") = String (upper c) (rest +:+ "View"))).
Proof.
  intros Hty Htag Hi.
  assert (Htom : is_tomato n = true).
  { unfold is_tomato. rewrite Htag. done. }
  assert (Href : reference n (S d) = true).
  { unfold reference, nested. by rewrite Hty, Htom, bool_decide_eq_true_2. }
  split_and!.
  - apply getAttr_go_absent.
  - intros Hs. split; [by apply head_no_src|].
    intros opts fileName fdi text markup css doc root q Hr Hsl Hp Hroot Hq.
    apply (generateView_dangling opts fileName fdi text markup css doc root (q, n, S d));
      try done.
    unfold dangling. cbn [fst snd]. rewrite Href, Hs. done.
  - intros Hs. split_and!.
    + exists (after_head v n p (S d)). split; [by apply head_after|].
      unfold after_head, head_pieces, nested, construct_text, class_name, attrs_text.
      rewrite Hty, Htom, bool_decide_eq_true_2 by done.
      cbn [andb Nat.eqb negb]. state_fields. unfold pieces_text.
      destruct (marked n);
        cbn [sconcat foldr fmap list_fmap piece_text app];
        by rewrite ?sapp_assoc, ?sapp_nil_r.
    + intros kv Hkv. unfold transferred in Hkv.
      apply list_elem_of_fmap in Hkv as (a & -> & Ha).
      apply list_elem_of_filter in Ha as [Hk _]. cbn [fst].
      by apply (emitted_key_not_src n).
    + intros dir base -> Hdir Hb. by apply getViewName_parts.
    + intros dir c rest -> Hdir Hb Hc. by apply getViewName_base.
Qed.

End Reference.

Lemma reference_needs_source_witness :
  let n := element "tomato" [MkAttr "" "src" "widgets/button.htmto"; MkAttr "" "class" "big"] [] in
  let n2 := element "tomato" [MkAttr "" "src" "widgets/a.htmto.b.htmto"] [] in
  (∃ v', @head (demo "" nested_doc) n [0%nat] 1 v0 = (v', None) ∧
         domConstruction v' =
           domConstruction v0 +:+ indent 1 +:+ ".append(" +:+ "" +:+
           "<" +:+ "ButtonView" +:+ ">new " +:+ "ButtonView" +:+ "(doc)" +:+
           ".setAttr('class', 'big')") ∧
  getViewName (@getAttr n2 "src") = "A.b.htmtoView".
Proof.
  intros n n2. split.
  - destruct (@reference_needs_source (demo "" nested_doc) n [0%nat] 0 v0)
      as (_ & _ & Hpresent); [reflexivity..|].
    destruct Hpresent as ((v' & Hhead & Hdom) & _); [discriminate|].
    exists v'. split; [exact Hhead|]. rewrite Hdom. reflexivity.
  - destruct (@reference_needs_source (demo "" nested_doc) n2 [0%nat] 0 v0)
      as (_ & _ & Hpresent); [reflexivity..|].
    destruct Hpresent as (_ & _ & Hname & _); [discriminate|].
    destruct (Hname "widgets/" "a.htmto.b.htmto") as [_ Hfirst];
      [reflexivity|right; by exists "widgets"|reflexivity|].
    apply (Hfirst "a" ".b.htmto"); reflexivity.
Defined.

(** C1, the claim as stated fails on a [src] attribute that is present
    with an empty value: [head] returns the error there too. The class
    name is not always the file name without its extension with the
    first letter in upper case either: of a name in which [.htmto] occurs
    twice the first occurrence goes, not the extension, and a first
    letter that is not ASCII (here U+00E9, the bytes [0xC3 0xA9]) is
    broken, its first byte giving way to U+FFFD. *)
Lemma empty_src_counterexample :
  let n := element "tomato" [MkAttr "" "src" ""] [] in
  ((∃ a, a ∈ Attr n ∧ Key a = "src") ∧
   snd (@head (demo "" nested_doc) n [0%nat] 1 v0) = Some no_src) ∧
  getViewName "a.htmto.b.htmto" = "A.b.htmtoView" ∧
  getViewName (String (ascii_of_N 195) (String (ascii_of_N 169) "t.htmto")) =
    String (ascii_of_N 239) (String (ascii_of_N 191) (String (ascii_of_N 189)
      (String (ascii_of_N 169) "tView"))).
Proof.
  split_and!; [|reflexivity..]. eexists. split; [by left|done].
Qed.

Section Class.
Context `{!Platform}.

Lemma out_append_append (a b : string) (v : visitorData) :
  out_append b (out_append a v) = out_append (a +:+ b) v.
Proof. unfold out_append, with_output; simpl. by rewrite sapp_assoc. Qed.

Lemma emitElementRefs_go_text (l : list string) (v : visitorData) :
  emitElementRefs_go l v = out_append (decls_text l) v.
Proof.
  revert v. induction l as [|d l IH]; intros v.
  - destruct v. unfold out_append, with_output; simpl. by rewrite sapp_nil_r.
  - cbn [emitElementRefs_go]. rewrite IH. clear IH.
    destruct l as [|d' l]; rewrite !out_append_append; f_equal;
      unfold decls_text; cbn [fmap list_fmap sconcat foldr];
      by rewrite ?sapp_assoc, ?sapp_nil_r.
Qed.

Lemma generateView_of_text (v : visitorData) :
  generateView_of v =
    output v +:+ nl +:+ "export class " +:+ viewName v +:+ " extends " +:+
    ViewBaseClass (options v) +:+ " {" +:+ decls_text (refs v) +:+
    nl +:+ "  constructor(doc: Document = document) {" +:+
    domConstruction v +:+ ";" +:+ nl +:+ "  }" +:+ nl +:+ "}" +:+ nl.
Proof.
  unfold generateView_of, getView, emitPostamble, emitDomConstruction,
    emitElementRefs, emitPreamble.
  rewrite emitElementRefs_go_text. state_fields. by rewrite !sapp_assoc.
Qed.

Lemma traverse_root_grown (root : Node) (v : visitorData) :
  ignoreSubtree v = false → appendStack v = [] → accepted root 0 = true →
  traverse root [] 0 v = (grown v root 0, None).
Proof.
  intros Hi Hs Hacc. apply traverse_grown; [done| |done]. rewrite Hs. constructor.
Qed.

(** The unit of a file whose traversal is accepted. *)
Lemma generateView_accepted (opts : GeneratorOptions) (fileName : string) (fdi : bool)
    (text markup : string) (css : option string) (doc root : Node) :
  ReadAll fileName = inr text → slurpCss text = Ok (css, markup) →
  Parse markup = inr doc → strip (findRoot doc) = Some root →
  accepted root 0 = true →
  generateView opts fileName fdi =
    Ok (class_text (newVisitor opts fileName fdi) root, default "" css).
Proof.
  intros Hr Hs Hp Hroot Hacc. unfold generateView, walk. rewrite Hr, Hs, Hp.
  unfold walk_doc. rewrite Hroot. cbn [traverse_root].
  destruct (newVisitor_css_flag opts fileName fdi css)
    as (Hi & Hst & Hrefs & Hdom & Hopts & Hout & Hname & Hfdi).
  set (v := match css with Some c => _ | None => _ end) in *.
  rewrite traverse_root_grown by done. f_equal. f_equal.
  - rewrite generateView_of_text. unfold grown. state_fields.
    rewrite Hout, Hname, Hopts, Hrefs, Hdom. unfold class_text.
    rewrite (tree_decls_preorder opts root [] 0).
    rewrite (tree_pieces_config (newVisitor opts fileName fdi) v) by done.
    cbn [newVisitor options viewName]. by rewrite !sapp_assoc.
  - unfold getCss, grown. state_fields. unfold v. by destruct css.
Qed.

(** C8, as amended. In a traversal that succeeds, each nested element
    that is visited with a marker queues one field declaration, named by
    its marker and typed by the class of the source for a reference and
    by the base class otherwise, and writes one assignment to that
    field; declarations and assignments come in the order of the
    document; the class text lists these declarations. The same name is
    declared once for each node that carries it. *)
Theorem fields_follow_marked_nodes (root : Node) (v : visitorData) :
  ignoreSubtree v = false → appendStack v = [] → accepted root 0 = true →
  ∃ v',
    traverse root [] 0 v = (v', None) ∧
    refs v' = refs v ++ ((λ x, field_decl (options v) x.1.2) <$> field_nodes root) ∧
    domConstruction v' = domConstruction v +:+ pieces_text (tree_pieces v root 0) ∧
    assigned (tree_pieces v root 0) = (λ x, marker x.1.2) <$> field_nodes root ∧
    field_nodes root `sublist_of` preorder root [] 0 ∧
    NoDup (field_nodes root).*1.*1 ∧
    (∀ q n d, (q, n, d) ∈ field_nodes root ↔
       (q, n, d) ∈ preorder root [] 0 ∧ Type_ n = ElementNode ∧ d ≠ 0%nat ∧
       getAttr n "_ref" ≠ "") ∧
    (∀ n, field_decl (options v) n =
       getAttr n "_ref" +:+ ": " +:+
       (if String.eqb (ToLower (Data n)) "tomato" then getViewName (getAttr n "src")
        else ViewBaseClass (options v))) ∧
    (refs v = [] → output v = "" → domConstruction v = "" →
     generateView_of v' = class_text v root).
Proof.
  intros Hi Hs Hacc. exists (grown v root 0). split_and!.
  - by apply traverse_root_grown.
  - unfold grown. state_fields. by rewrite (tree_decls_preorder _ root [] 0).
  - done.
  - apply assigned_preorder.
  - apply sublist_filter.
  - unfold field_nodes.
    eapply (sublist_NoDup _ (preorder root [] 0).*1.*1); [apply preorder_NoDup|].
    apply fmap_sublist, fmap_sublist, sublist_filter.
  - intros q n d. unfold field_nodes. rewrite list_elem_of_filter.
    unfold is_field, nested, marked, marker, FieldRefAttr. cbn [fst snd].
    rewrite !andb_true_iff, !negb_true_iff, bool_decide_eq_true, Nat.eqb_neq.
    rewrite eqb_bool_decide, bool_decide_eq_false. naive_solver.
  - done.
  - intros Hr Ho Hd. rewrite generateView_of_text. unfold grown. state_fields.
    rewrite Hr, Ho, Hd. unfold class_text.
    rewrite (tree_decls_preorder _ root [] 0). by rewrite !sapp_assoc.
Qed.

End Class.

Lemma fields_follow_marked_nodes_witness :
  ∃ v',
    @traverse (demo "" nested_doc) two_fields [] 0 v0 = (v', None) ∧
    refs v' = ["x: View"; "x: View"] ∧
    domConstruction v' = pieces_text (@tree_pieces (demo "" nested_doc) v0 two_fields 0) ∧
    assigned (@tree_pieces (demo "" nested_doc) v0 two_fields 0) = ["x"; "x"].
Proof.
  destruct (@fields_follow_marked_nodes (demo "" nested_doc) two_fields v0)
    as (v' & Ht & Hr & Hd & Ha & _); [reflexivity..|].
  exists v'. split_and!; [exact Ht|exact Hr|exact Hd|exact Ha].
Defined.

(** C8, the claim as stated fails when two nodes carry the same marker:
    the class then declares two fields of that name and the constructor
    assigns to it twice. *)
Lemma repeated_marker_counterexample :
  let v' := fst (@traverse (demo "" nested_doc) two_fields [] 0 v0) in
  snd (@traverse (demo "" nested_doc) two_fields [] 0 v0) = None ∧
  refs v' = ["x: View"; "x: View"] ∧
  @generateView_of v' =
    nl +:+ "export class DemoView extends View {" +:+
    nl +:+ "  x: View;" +:+ nl +:+ "  x: View;" +:+ nl +:+
    nl +:+ "  constructor(doc: Document = document) {" +:+
    nl +:+ "    super(doc.createElement('div'));" +:+ nl +:+
    nl +:+ "    this" +:+
    nl +:+ "      .append(this.x = createView('span', doc))" +:+
    nl +:+ "      .append(this.x = createView('span', doc));" +:+
    nl +:+ "  }" +:+ nl +:+ "}" +:+ nl.
Proof. vm_compute. done. Qed.

Section Root.
Context `{!Platform}.

Lemma all_nodes_unfold (n : Node) : all_nodes n = n :: flat_map all_nodes (Children n).
Proof. by destruct n. Qed.

Lemma find_app {A} (P : A → bool) (l1 l2 : list A) :
  List.find P (l1 ++ l2) =
    match List.find P l1 with Some x => Some x | None => List.find P l2 end.
Proof.
  induction l1 as [|x l1 IH]; [done|]. simpl. by destruct (P x).
Qed.

Lemma findRoot_first_body (n : Node) :
  findRoot n = List.find body_with_child (all_nodes n) ≫= FirstChild.
Proof.
  induction n as [t d a kids IH] using Node_ind.
  rewrite all_nodes_unfold. cbn [findRoot Children List.find].
  unfold body_with_child at 1. cbn [Data Children].
  destruct (String.eqb d "body") eqn:Hd; cbn [andb].
  - destruct kids as [|c kids]; [done|].
    rewrite bool_decide_eq_true_2 by done. done.
  - induction IH as [|c kids Hc _ IHk]; [done|].
    cbn [flat_map]. rewrite find_app, Hc.
    destruct (List.find body_with_child (all_nodes c)) as [b|] eqn:Hb; [|apply IHk].
    apply find_some in Hb as [_ Hb]. unfold body_with_child in Hb.
    apply andb_true_iff in Hb as [_ Hb]. apply bool_decide_eq_true in Hb.
    cbn [mbind option_bind]. unfold FirstChild. by destruct (Children b).
Qed.

Lemma firstNonWhiteSpaceChild_element (n : Node) :
  Type_ n = ElementNode → Type_ (firstNonWhiteSpaceChild n) = ElementNode.
Proof.
  intros Hn. unfold firstNonWhiteSpaceChild.
  destruct (firstElement (Children n)) as [c|] eqn:Hc; [|done].
  induction (Children n) as [|x l IH]; [done|].
  cbn [firstElement] in Hc. case_decide; [by injection Hc as <-|by apply IH].
Qed.


Lemma strip_go_plain (r : Node) (attrs : list Attribute) :
  (∀ a, a ∈ attrs → Key a ≠ StripMeAttr) → strip_go r attrs = r.
Proof.
  induction attrs as [|a attrs IH]; intros Hk; [done|].
  cbn [strip_go]. rewrite eqb_bool_decide, bool_decide_eq_false_2.
  - apply IH. intros a' Ha'. apply Hk. by right.
  - apply Hk. by left.
Qed.


Lemma strip_go_element (r : Node) (attrs : list Attribute) :
  Type_ r = ElementNode → Type_ (strip_go r attrs) = ElementNode.
Proof.
  intros Hr. induction attrs as [|a attrs IH]; [done|].
  cbn [strip_go]. destruct (String.eqb (Key a) StripMeAttr); [|done].
  destruct (String.eqb _ "tbody"); by repeat apply firstNonWhiteSpaceChild_element.
Qed.

Lemma head_error (n : Node) (p : ptr) (depth : nat) (v v' : visitorData) (e : error) :
  head n p depth v = (v', Some e) → e = no_src.
Proof.
  unfold head. destruct (ignoreSubtree v); [done|].
  destruct (Type_ n); try done.
  - by destruct (negb _).
  - destruct depth; [done|]. destruct (String.eqb _ "tomato"); [|done].
    destruct (String.eqb _ ""); [|done]. by intros [= _ <-].
Qed.

(** The only error of a traversal is the one of [head]. *)
Lemma traverse_error (n : Node) :
  ∀ (p : ptr) (depth : nat) (v v' : visitorData) (e : error),
    traverse n p depth v = (v', Some e) → e = no_src.
Proof.
  induction n as [t d a kids IH] using Node_ind. intros p depth v v' e.
  rewrite traverse_unfold. cbn [Children].
  destruct (head _ _ _ _) as [v1 [e1|]] eqn:Hh.
  - intros [= _ <-]. by apply head_error in Hh.
  - clear Hh. generalize 0%nat. revert v1.
    induction IH as [|c kids Hc _ IHk]; intros v1 i; [done|].
    cbn [traverse_children].
    destruct (traverse c _ _ _) as [v2 [e2|]] eqn:Hc2.
    + intros [= _ <-]. by apply Hc in Hc2.
    + apply IHk.
Qed.

(** C5, as amended. The loader looks for the first node of the
    document that is named [body] and has a child, and takes the first
    child of that node, of whatever type; the compilation fails with the
    error of the empty template exactly when there is no such node;
    otherwise the visit starts at depth 0, on that child or on what
    [strip] makes of it, which is an element whenever the child is
    one. *)
Theorem root_is_first_child_of_body (doc : Node) (fileName : string) (v : visitorData) :
  findRoot doc = List.find body_with_child (all_nodes doc) ≫= FirstChild ∧
  (findRoot doc = None ↔
     walk_doc fileName doc v = (v, Some ("Template cannot be empty: " +:+ fileName))) ∧
  (∀ r, findRoot doc = Some r →
     walk_doc fileName doc v = traverse (strip_go r (Attr r)) [] 0 v ∧
     (Type_ r = ElementNode → Type_ (strip_go r (Attr r)) = ElementNode) ∧
     ((∀ a, a ∈ Attr r → Key a ≠ "_stripme") → strip_go r (Attr r) = r)) ∧
  (∀ kids, findRoot (document kids) = hd_error kids).
Proof.
  split_and!.
  - apply findRoot_first_body.
  - unfold walk_doc. destruct (findRoot doc) as [r|] eqn:Hr; cbn [strip traverse_root].
    + split; [done|]. intros Hw. by apply traverse_error in Hw.
    + done.
  - intros r Hr. unfold walk_doc. rewrite Hr. cbn [strip traverse_root].
    split_and!; [done|apply strip_go_element|apply strip_go_plain].
  - intros [|c kids]; reflexivity.
Qed.


End Root.

Section Run.
Context `{!Platform}.

Lemma events_unfold (n : Node) (p : ptr) (depth : nat) :
  events n p depth =
    Enter p n depth :: events_children (Children n) p 0 depth ++ [Exit p n depth].
Proof.
  destruct n as [t d a kids]. cbn [events Children]. f_equal. f_equal.
  generalize 0%nat. induction kids as [|c kids IH]; intros i; [done|].
  cbn [events_children]. by rewrite IH.
Qed.

Lemma run_app (l1 l2 : list event) (v : visitorData) :
  run (l1 ++ l2) v =
    match run l1 v with
    | (v', Some err) => (v', Some err)
    | (v', None) => run l2 v'
    end.
Proof.
  revert v. induction l1 as [|e l1 IH]; intros v; [done|].
  cbn [run app]. destruct (exec e v) as [v' [err|]]; [done|apply IH].
Qed.

Lemma traverse_children_run (cs : list Node) (p : ptr) (depth : nat) :
  Forall (λ c, ∀ p depth v, traverse c p depth v = run (events c p depth) v) cs →
  ∀ i v, traverse_children cs p i depth v = run (events_children cs p i depth) v.
Proof.
  induction 1 as [|c cs Hc _ IH]; intros i v; [done|].
  cbn [traverse_children events_children]. rewrite run_app, <- Hc.
  destruct (traverse c _ _ v) as [v' [err|]]; [done|apply IH].
Qed.

(** The traversal is the run of its calls. *)
Lemma traverse_run (n : Node) :
  ∀ p depth v, traverse n p depth v = run (events n p depth) v.
Proof.
  induction n as [t d a kids IH] using Node_ind. intros p depth v.
  rewrite traverse_unfold, events_unfold. cbn [run exec Children].
  destruct (head _ p depth v) as [v1 [err|]]; [done|].
  rewrite run_app, <- (traverse_children_run kids p depth IH).
  by destruct (traverse_children _ _ _ _ _) as [v2 [err|]].
Qed.

Lemma exited_app (q : ptr) (l1 l2 : list event) :
  exited q (l1 ++ l2) = exited q l1 || exited q l2.
Proof. apply existsb_app. Qed.

Lemma open_in_app (U : ptr → bool) (ctx l1 l2 : list event) :
  open_in U ctx (l1 ++ l2) = open_in U ctx l1 ++ open_in U ctx l2.
Proof. unfold open_in. by rewrite filter_app, fmap_app. Qed.

Lemma open_in_nil (U : ptr → bool) (ctx l : list event) :
  (∀ e, e ∈ l → opens U ctx e = false) → open_in U ctx l = [].
Proof.
  intros Hl. unfold open_in.
  induction l as [|e l IH]; [done|]. rewrite filter_cons, decide_False.
  - apply IH. intros e' He'. apply Hl. by right.
  - rewrite Hl; [done|by left].
Qed.

Lemma open_in_ext (U : ptr → bool) (ctx ctx' l : list event) :
  (∀ e, e ∈ l → opens U ctx e = opens U ctx' e) → open_in U ctx l = open_in U ctx' l.
Proof.
  intros Hl. unfold open_in. f_equal.
  induction l as [|e l IH]; [done|]. rewrite !filter_cons, Hl by by left.
  rewrite IH; [done|]. intros e' He'. apply Hl. by right.
Qed.

Lemma events_children_lookup (cs : list Node) (p : ptr) (i : nat) (depth : nat) e :
  e ∈ events_children cs p i depth ↔
  ∃ j c, cs !! j = Some c ∧ e ∈ events c (p ++ [i + j]%nat) (S depth).
Proof.
  revert i. induction cs as [|c cs IH]; intros i; cbn [events_children].
  - split; [by intros ?%elem_of_nil|]. by intros (j & c & Hc & _).
  - rewrite elem_of_app, IH. split.
    + intros [Hx|(j & c' & Hc & Hx)].
      * exists 0%nat, c. by rewrite Nat.add_0_r.
      * exists (S j), c'. split; [done|]. by replace (i + S j)%nat with (S i + j)%nat by lia.
    + intros ([|j] & c' & Hc & Hx).
      * left. simpl in Hc. injection Hc as ->. by rewrite Nat.add_0_r in Hx.
      * right. exists j, c'. split; [done|].
        by replace (S i + j)%nat with (i + S j)%nat by lia.
Qed.

(** Every call of the traversal of a subtree is on a node of it. *)
Lemma events_prefix (n : Node) :
  ∀ p depth e, e ∈ events n p depth → p `prefix_of` ptr_of e.
Proof.
  induction n as [t d a kids IH] using Node_ind. intros p depth e.
  rewrite events_unfold, elem_of_cons, elem_of_app, list_elem_of_singleton.
  intros [->|[He| ->]]; [done| |done]. cbn [Children] in He.
  apply events_children_lookup in He as (j & c & Hc & He).
  rewrite Forall_lookup in IH. apply (IH j c Hc) in He.
  etrans; [|exact He]. by apply prefix_app_r.
Qed.

Lemma events_children_prefix (cs : list Node) (p : ptr) (i : nat) (depth : nat) e :
  e ∈ events_children cs p i depth → ∃ j, (i ≤ j)%nat ∧ (p ++ [j]) `prefix_of` ptr_of e.
Proof.
  intros (j & c & _ & He)%events_children_lookup.
  exists (i + j)%nat. split; [lia|]. by apply events_prefix in He.
Qed.

(** Every node that the traversal of a subtree enters it leaves. *)
Lemma exited_elem (q : ptr) (m : Node) (dm : nat) (l : list event) :
  Exit q m dm ∈ l → exited q l = true.
Proof.
  intros Hin. apply existsb_exists. exists (Exit q m dm).
  split; [by apply list_elem_of_In|]. by apply bool_decide_eq_true.
Qed.

Lemma events_exit (n : Node) :
  ∀ p depth q m dm, Enter q m dm ∈ events n p depth → Exit q m dm ∈ events n p depth.
Proof.
  induction n as [t d a kids IH] using Node_ind. intros p depth q m dm.
  rewrite !events_unfold, !elem_of_cons, !elem_of_app, !list_elem_of_singleton.
  intros [Heq|[He|?]]; [|cbn [Children] in He|done].
  - injection Heq as -> -> ->. right. by right.
  - right. left. cbn [Children].
    apply events_children_lookup in He as (j & c & Hc & He).
    rewrite Forall_lookup in IH. specialize (IH j c Hc _ _ _ _ _ He).
    apply events_children_lookup. by exists j, c.
Qed.

Lemma events_exited (n : Node) (p : ptr) (depth : nat) (q : ptr) (m : Node) (dm : nat) :
  Enter q m dm ∈ events n p depth → exited q (events n p depth) = true.
Proof. intros He. by apply (exited_elem q m dm), events_exit. Qed.

Lemma exited_false (q : ptr) (l : list event) :
  (∀ q' m dm, Exit q' m dm ∈ l → q' ≠ q) → exited q l = false.
Proof.
  intros Hl. apply not_true_is_false. intros (e & Hin & He)%existsb_exists.
  apply list_elem_of_In in Hin. destruct e as [|q' m dm]; [done|].
  apply bool_decide_eq_true in He. by apply (Hl _ _ _ Hin).
Qed.

End Run.

Lemma prefix_of_app_cases {A} (l l1 l2 : list A) :
  l `prefix_of` l1 ++ l2 →
  l `prefix_of` l1 ∨ ∃ l', l' ≠ [] ∧ l = l1 ++ l' ∧ l' `prefix_of` l2.
Proof.
  revert l. induction l1 as [|x l1 IH]; intros l Hl.
  - destruct l as [|y l]; [left; by apply prefix_nil|].
    right. by exists (y :: l).
  - destruct l as [|y l]; [left; by apply prefix_nil|].
    simpl in Hl. pose proof (prefix_cons_inv_1 _ _ _ _ Hl) as ->.
    apply prefix_cons_inv_2, IH in Hl as [Hl|(l' & Hne & -> & Hl)].
    + left. by apply prefix_cons.
    + right. by exists l'.
Qed.

Lemma child_ptr_inj (p q : ptr) (i j : nat) :
  (p ++ [i]) `prefix_of` q → (p ++ [j]) `prefix_of` q → i = j.
Proof.
  intros [k ->] [k' Hk]. rewrite <- !app_assoc in Hk.
  apply app_inv_head in Hk. by injection Hk.
Qed.

Lemma child_ptr_ne (p : ptr) (i : nat) (q : ptr) : (p ++ [i]) `prefix_of` q → q ≠ p.
Proof.
  intros [k ->] Hk. apply (f_equal length) in Hk.
  rewrite !length_app in Hk. simpl in Hk. lia.
Qed.

Section Written.
Context `{!Platform}.

Lemma preorder_self (n : Node) (p : ptr) (depth : nat) :
  p ∈ (preorder n p depth).*1.*1.
Proof. rewrite preorder_unfold. by left. Qed.

Lemma preorder_child (n c : Node) (p : ptr) (depth j : nat) (q : ptr) :
  reference n depth = false → Children n !! j = Some c →
  (p ++ [j]) `prefix_of` q →
  q ∈ (preorder n p depth).*1.*1 ↔ q ∈ (preorder c (p ++ [j]) (S depth)).*1.*1.
Proof.
  intros Href Hc Hq. rewrite preorder_unfold, Href. cbn [fmap list_fmap fst].
  rewrite elem_of_cons. split.
  - intros [->|Hin]; [by apply child_ptr_ne in Hq|].
    apply list_elem_of_fmap in Hin as ([q1 d1] & -> & Hin).
    apply list_elem_of_fmap in Hin as ([[q2 n2] d2] & [= -> ->] & Hin).
    apply preorder_children_lookup in Hin as (j' & c' & Hc' & Hin).
    cbn [fst] in *. pose proof (preorder_prefix _ _ _ _ Hin) as Hpre.
    cbn [fst] in Hpre. pose proof (child_ptr_inj _ _ _ _ Hq Hpre) as Hj.
    cbn [Nat.add] in Hj, Hin. subst j'. rewrite Hc in Hc'. injection Hc' as <-.
    apply list_elem_of_fmap. exists (q2, n2). split; [done|].
    apply list_elem_of_fmap. by exists (q2, n2, d2).
  - intros Hin. right.
    apply list_elem_of_fmap in Hin as ([q1 d1] & -> & Hin).
    apply list_elem_of_fmap in Hin as ([[q2 n2] d2] & [= -> ->] & Hin).
    apply list_elem_of_fmap. exists (q2, n2). split; [done|].
    apply list_elem_of_fmap. exists (q2, n2, d2). split; [done|].
    apply preorder_children_lookup. by exists j, c.
Qed.

Lemma flat_map_nil {A B} (f : A → list B) (l : list A) :
  (∀ x, x ∈ l → f x = []) → flat_map f l = [].
Proof.
  induction l as [|x l IH]; intros Hl; [done|]. cbn [flat_map].
  rewrite Hl by by left. apply IH. intros y Hy. apply Hl. by right.
Qed.

Lemma events_pieces_app (v : visitorData) (U : ptr → bool) (l1 l2 : list event) :
  events_pieces v U (l1 ++ l2) = events_pieces v U l1 ++ events_pieces v U l2.
Proof. apply flat_map_app. Qed.

Lemma events_pieces_config (v v' : visitorData) (U : ptr → bool) (l : list event) :
  same_config v v' → events_pieces v' U l = events_pieces v U l.
Proof.
  intros Hc. apply flat_map_ext. intros [q m dm|q m dm]; [|done].
  cbn [event_pieces]. by rewrite (head_pieces_config v v').
Qed.

(** Below a reference no call writes. *)
Lemma events_pieces_suppressed (v : visitorData) (U : ptr → bool) (l : list event) :
  (∀ e, e ∈ l → U (ptr_of e) = false) → events_pieces v U l = [].
Proof.
  intros Hl. apply flat_map_nil. intros e He. specialize (Hl e He).
  destruct e as [q m dm|q m dm]; cbn [event_pieces ptr_of] in *; by rewrite Hl.
Qed.

(** The pieces of a tree are those that the calls of its traversal
    write, one call after the other. *)
Lemma tree_pieces_events (v : visitorData) (n : Node) :
  ∀ (p : ptr) (depth : nat) (U : ptr → bool),
    (∀ q, p `prefix_of` q → (U q = true ↔ q ∈ (preorder n p depth).*1.*1)) →
    tree_pieces v n depth = events_pieces v U (events n p depth).
Proof.
  induction n as [t dt a kids IH] using Node_ind. intros p depth U HU.
  set (n := MkNode t dt a kids) in *.
  assert (HUp : U p = true) by (apply HU; [done|apply preorder_self]).
  rewrite tree_pieces_unfold, events_unfold. change (Children n) with kids.
  unfold events_pieces. cbn [flat_map]. rewrite flat_map_app. cbn [flat_map event_pieces].
  rewrite HUp, app_nil_r. cbn [andb]. f_equal. f_equal.
  destruct (reference n depth) eqn:Href.
  - symmetry. apply events_pieces_suppressed. intros e He.
    destruct (events_children_prefix _ _ _ _ _ He) as (j & _ & Hj).
    apply not_true_is_false. intros HUe. apply HU in HUe.
    + rewrite preorder_unfold, Href in HUe. cbn [fmap list_fmap fst] in HUe.
      apply list_elem_of_singleton in HUe. by apply child_ptr_ne in Hj.
    + etrans; [|exact Hj]. by apply prefix_app_r.
  - assert (Hkids : ∀ cs i,
              Forall (λ c, ∀ p depth U,
                        (∀ q, p `prefix_of` q →
                              (U q = true ↔ q ∈ (preorder c p depth).*1.*1)) →
                        tree_pieces v c depth = events_pieces v U (events c p depth))
                cs →
              (∀ j c, cs !! j = Some c → ∀ q, (p ++ [i + j]%nat) `prefix_of` q →
                 (U q = true ↔ q ∈ (preorder c (p ++ [i + j]%nat) (S depth)).*1.*1)) →
              flat_map (λ c, tree_pieces v c (S depth)) cs =
              flat_map (event_pieces v U) (events_children cs p i depth)).
    { intros cs. induction cs as [|c cs IHc]; intros i Hall Hc; [done|].
      apply Forall_cons in Hall as [Hhd Hall].
      cbn [flat_map events_children]. rewrite flat_map_app. f_equal.
      - apply Hhd. intros q Hq. specialize (Hc 0%nat c eq_refl q).
        rewrite Nat.add_0_r in Hc. by apply Hc.
      - apply IHc; [done|]. intros j c' Hc' q Hq. specialize (Hc (S j) c' Hc' q).
        replace (i + S j)%nat with (S i + j)%nat in Hc by lia. by apply Hc. }
    apply Hkids; [done|]. intros j c Hc q Hq. cbn [Nat.add] in *. rewrite HU.
    + by apply (preorder_child n c).
    + etrans; [|exact Hq]. by apply prefix_app_r.
Qed.

Lemma tree_pieces_root_events (v : visitorData) (root : Node) :
  tree_pieces v root 0 = events_pieces v (unsuppressed root) (events root [] 0).
Proof.
  apply tree_pieces_events. intros q _. unfold unsuppressed. apply bool_decide_eq_true.
Qed.

Lemma after_head_dom (v : visitorData) (n : Node) (p : ptr) (depth : nat) :
  domConstruction (after_head v n p depth) =
    domConstruction v +:+ pieces_text (head_pieces v n depth).
Proof. unfold after_head. by destruct (nested n depth). Qed.

End Written.

Section Invariant.
Context `{!Platform}.

Lemma run_suppressed (l : list event) (v : visitorData) (t : ptr) :
  ignoreSubtree v = true → last (appendStack v) = Some t →
  (∀ e, e ∈ l → ptr_of e ≠ t) → run l v = (v, None).
Proof.
  intros Hi Ht. induction l as [|e l IH]; intros Hl; [done|].
  cbn [run]. assert (exec e v = (v, None)) as ->.
  { destruct e as [q m dm|q m dm]; cbn [exec].
    - by apply head_suppressed.
    - rewrite tail_keep; [done|]. intros q' Hq' Heq. rewrite Ht in Hq'.
      injection Hq' as Hq'. apply (Hl (Exit q m dm)); [by left|]. cbn [ptr_of]. congruence. }
  apply IH. intros e' He'. apply Hl. by right.
Qed.

Lemma open_in_complete (U : ptr → bool) (ctx : list event) (n : Node) (p : ptr)
    (depth : nat) :
  (∀ e, e ∈ events n p depth → e ∈ ctx) → open_in U ctx (events n p depth) = [].
Proof.
  intros Hsub. apply open_in_nil. intros [q m dm|q m dm] He; [|done].
  cbn [opens]. rewrite (exited_elem q m dm); [by rewrite andb_false_r|].
  by apply Hsub, events_exit.
Qed.

Lemma open_in_complete_children (U : ptr → bool) (ctx : list event) (cs : list Node)
    (p : ptr) (i : nat) (depth : nat) :
  (∀ e, e ∈ events_children cs p i depth → e ∈ ctx) →
  open_in U ctx (events_children cs p i depth) = [].
Proof.
  intros Hsub. apply open_in_nil. intros [q m dm|q m dm] He; [|done].
  cbn [opens]. rewrite (exited_elem q m dm); [by rewrite andb_false_r|].
  apply Hsub. apply events_children_lookup in He as (j & c & Hc & He).
  apply events_children_lookup. exists j, c. split; [done|]. by apply events_exit.
Qed.

Lemma run_prefix_ok (l1 l2 : list event) (v v' : visitorData) :
  run (l1 ++ l2) v = (v', None) → ∃ v1, run l1 v = (v1, None) ∧ run l2 v1 = (v', None).
Proof.
  rewrite run_app. destruct (run l1 v) as [v1 [err|]]; [done|]. intros Hr. by exists v1.
Qed.

Lemma run_events_grown (c : Node) (p : ptr) (depth : nat) (v v' : visitorData) :
  ignoreSubtree v = false → fresh p (appendStack v) →
  run (events c p depth) v = (v', None) → v' = grown v c depth.
Proof.
  intros Hi Hf. rewrite <- traverse_run.
  destruct (traverse_grown c p depth v Hi Hf) as [Hok Hbad].
  destruct (accepted c depth).
  - rewrite Hok by done. by intros [= <-].
  - destruct (Hbad eq_refl) as [v1 ->]. done.
Qed.

End Invariant.

Section Invariant2.
Context `{!Platform}.

Lemma stack_follows_nil (U : ptr → bool) (before : list event) (v : visitorData) :
  stack_follows U before [] v v.
Proof.
  split_and!.
  - by rewrite app_nil_r.
  - intros pre0 q m dm v1 Hp. by destruct pre0.
  - by rewrite sapp_nil_r.
  - intros k. rewrite app_nil_r. cbn [events_pieces flat_map depth_after open_in].
    by rewrite Nat.add_0_r.
Qed.

Lemma follows_children (cs : list Node) (p : ptr) (depth : nat) :
  Forall follows_at cs →
  ∀ (i : nat) (v : visitorData) (U : ptr → bool) (before : list event),
    ignoreSubtree v = false → (∀ j, fresh (p ++ [j]) (appendStack v)) →
    (∀ e j, e ∈ before → (i ≤ j)%nat → ¬ (p ++ [j]) `prefix_of` ptr_of e) →
    (∀ j c, cs !! j = Some c → ∀ q, (p ++ [i + j]%nat) `prefix_of` q →
       (U q = true ↔ q ∈ (preorder c (p ++ [i + j]%nat) (S depth)).*1.*1)) →
    ∀ pre v', pre `prefix_of` events_children cs p i depth → run pre v = (v', None) →
      stack_follows U before pre v v'.
Proof.
  induction 1 as [|c cs Hc _ IH]; intros i v U before Hi Hf Hbefore HU pre v' Hpre Hrun.
  - apply prefix_nil_inv in Hpre as ->. injection Hrun as <-. apply stack_follows_nil.
  - cbn [events_children] in Hpre.
    apply prefix_of_app_cases in Hpre as [Hpre|(pre2 & Hne & -> & Hpre)].
    + apply (Hc (p ++ [i]) (S depth) v U before); try done.
      * intros e He. by apply (Hbefore e i).
      * intros q Hq. specialize (HU 0%nat c eq_refl q).
        rewrite Nat.add_0_r in HU. by apply HU.
    + apply run_prefix_ok in Hrun as (vc & Hrc & Hr2).
      assert (Hvc : vc = grown v c (S depth)) by by apply (run_events_grown c (p ++ [i])).
      assert (Hsub : ∀ e, e ∈ events c (p ++ [i]) (S depth) →
                          ¬ ∃ j, (S i ≤ j)%nat ∧ (p ++ [j]) `prefix_of` ptr_of e).
      { intros e He (j & Hj & Hpj). apply events_prefix in He.
        pose proof (child_ptr_inj _ _ _ _ He Hpj). lia. }
      assert (Hwc : tree_pieces v c (S depth) = events_pieces v U (events c (p ++ [i]) (S depth))).
      { apply tree_pieces_events. intros q Hq. specialize (HU 0%nat c eq_refl q).
        rewrite Nat.add_0_r in HU. by apply HU. }
      assert (Hopen : open_in U (before ++ events c (p ++ [i]) (S depth) ++ pre2)
                        (events c (p ++ [i]) (S depth) ++ pre2)
                      = open_in U ((before ++ events c (p ++ [i]) (S depth)) ++ pre2) pre2).
      { rewrite <- app_assoc, open_in_app. rewrite open_in_complete; [done|].
        intros e He. apply elem_of_app. right. apply elem_of_app. by left. }
      destruct (IH (S i) vc U (before ++ events c (p ++ [i]) (S depth))) with
        (pre := pre2) (v' := v') as (Hst & Hlast & Hdom & Hdep); try done.
      * by rewrite Hvc.
      * intros j. rewrite Hvc. apply Hf.
      * intros e j [He|He]%elem_of_app Hj.
        -- apply (Hbefore e j He). lia.
        -- intros Hpj. apply (Hsub e He). by exists j.
      * intros j c' Hc' q Hq. specialize (HU (S j) c' Hc' q).
        replace (i + S j)%nat with (S i + j)%nat in HU by lia. by apply HU.
      * split_and!.
        -- rewrite Hst, Hvc, Hopen. unfold grown. by state_fields.
        -- intros pre0 q m dm v1 Heq Hr0 Hn HUq.
           destruct (exists_last Hne) as (pre2' & x & ->).
           rewrite app_assoc in Heq. apply app_inj_tail in Heq as [<- ->].
           apply run_prefix_ok in Hr0 as (vc' & Hrc' & Hr0).
           rewrite Hrc in Hrc'. injection Hrc' as <-.
           by apply (Hlast pre2' q m dm v1).
        -- rewrite Hdom, (events_pieces_config v vc) by (rewrite Hvc; apply grown_config).
           rewrite Hvc. unfold grown. state_fields.
           by rewrite events_pieces_app, pieces_text_app, Hwc, sapp_assoc.
        -- intros k. rewrite events_pieces_app, depth_after_app, <- Hwc, tree_pieces_matched.
           cbn [mbind option_bind]. rewrite Hopen.
           rewrite <- (events_pieces_config v vc) by (rewrite Hvc; apply grown_config).
           apply Hdep.
Qed.

End Invariant2.

Section Invariant3.
Context `{!Platform}.

(** The invariant holds along the traversal of every subtree. *)
Lemma follows_node (n : Node) : follows_at n.
Proof.
  induction n as [t dt a kids IH] using Node_ind.
  intros p depth v U before Hi Hf Hbefore HU pre v' Hpre Hrun.
  set (n := MkNode t dt a kids) in *.
  rewrite events_unfold in Hpre. change (Children n) with kids in Hpre.
  destruct pre as [|e pre']; [injection Hrun as <-; apply stack_follows_nil|].
  pose proof (prefix_cons_inv_1 _ _ _ _ Hpre) as ->.
  apply prefix_cons_inv_2 in Hpre. cbn [run exec] in Hrun.
  (* the call of [head] *)
  assert (Hsrc : reference n depth = true → getAttr n "src" ≠ "").
  { intros Href Hs. destruct (head_no_src n p depth v Hi Href Hs) as [v1 Hv1].
    by rewrite Hv1 in Hrun. }
  rewrite head_after in Hrun by done.
  set (v1 := after_head v n p depth) in *.
  assert (Hst1 : appendStack v1 = appendStack v ++ (if nested n depth then [p] else [])).
  { unfold v1, after_head. destruct (nested n depth); state_fields; by rewrite ?app_nil_r. }
  assert (HUp : U p = true) by (apply HU; [done|apply preorder_self]).
  assert (Hstrict : ∀ e, e ∈ events_children kids p 0 depth → ptr_of e ≠ p).
  { intros e (j & _ & He)%events_children_prefix. by apply child_ptr_ne in He. }
  (* the calls on the children *)
  assert (Hkids : ∀ pre2 v2, pre2 `prefix_of` events_children kids p 0 depth →
            run pre2 v1 = (v2, None) →
            stack_follows U (before ++ [Enter p n depth]) pre2 v1 v2).
  { intros pre2 v2 Hpre2 Hrun2. destruct (reference n depth) eqn:Href.
    - (* below a reference *)
      assert (Hn : nested n depth = true ∧ is_tomato n = true).
      { unfold reference in Href. by apply andb_true_iff in Href. }
      destruct Hn as [Hn Ht].
      assert (Hin : ∀ e, e ∈ pre2 → e ∈ events_children kids p 0 depth).
      { intros e He. destruct Hpre2 as [k ->]. apply elem_of_app. by left. }
      assert (Hnot : ∀ e, e ∈ pre2 → U (ptr_of e) = false).
      { intros e He. apply Hin in He.
        destruct (events_children_prefix _ _ _ _ _ He) as (j & _ & Hj).
        apply not_true_is_false. intros HUe. apply HU in HUe.
        - rewrite preorder_unfold, Href in HUe. cbn [fmap list_fmap fst] in HUe.
          apply list_elem_of_singleton in HUe. by apply child_ptr_ne in Hj.
        - etrans; [|exact Hj]. by apply prefix_app_r. }
      assert (Hnone : open_in U ((before ++ [Enter p n depth]) ++ pre2) pre2 = []).
      { apply open_in_nil. intros [q m dm|q m dm] He; [|done]. cbn [opens].
        pose proof (Hnot _ He) as Hq. cbn [ptr_of] in Hq.
        rewrite Hq. by rewrite andb_false_r. }
      rewrite (run_suppressed pre2 v1 p) in Hrun2.
      + injection Hrun2 as <-. split_and!.
        * by rewrite Hnone, app_nil_r.
        * intros pre0 q m dm v3 -> _ _ HUq.
          assert (U (ptr_of (Exit q m dm)) = false) as Hq.
          { apply Hnot. apply elem_of_app. right. by left. }
          cbn [ptr_of] in Hq. congruence.
        * rewrite events_pieces_suppressed by done. by rewrite sapp_nil_r.
        * intros k. rewrite events_pieces_suppressed by done. rewrite Hnone.
          cbn [depth_after length]. by rewrite Nat.add_0_r.
      + unfold v1, after_head. rewrite Hn. by state_fields.
      + rewrite Hst1, Hn. by rewrite last_snoc.
      + intros e He. by apply Hstrict, Hin.
    - (* below any other node *)
      apply (follows_children kids p depth IH 0 v1 U (before ++ [Enter p n depth]));
        try done.
      + unfold v1, after_head. destruct (nested n depth) eqn:Hn; state_fields; [|done].
        unfold reference in Href. by rewrite Hn in Href.
      + intros j. rewrite Hst1. destruct (nested n depth).
        * by apply fresh_child_pushed.
        * rewrite app_nil_r. by apply fresh_child.
      + intros e j [He|He]%elem_of_app _ Hpj.
        * apply (Hbefore e He). etrans; [|exact Hpj]. by apply prefix_app_r.
        * apply list_elem_of_singleton in He as ->. by apply child_ptr_ne in Hpj.
      + intros j c Hc q Hq. cbn [Nat.add] in *. rewrite HU.
        * by apply (preorder_child n c).
        * etrans; [|exact Hq]. by apply prefix_app_r. }
  assert (Hctx : ∀ pre2, before ++ Enter p n depth :: pre2
                         = (before ++ [Enter p n depth]) ++ pre2).
  { intros pre2. by rewrite <- app_assoc. }
  assert (Hcfg : ∀ l, events_pieces v1 U l = events_pieces v U l).
  { intros l. apply events_pieces_config, after_head_config. }
  apply prefix_of_app_cases in Hpre as [Hpre|(x & Hne & -> & Hx)].
  - (* among the calls on the children *)
    destruct (Hkids pre' v' Hpre Hrun) as (Hst & Hlast & Hdom & Hdep).
    assert (Hopen : open_in U (before ++ Enter p n depth :: pre') (Enter p n depth :: pre')
                    = (if nested n depth then [p] else []) ++
                      open_in U ((before ++ [Enter p n depth]) ++ pre') pre').
    { change (Enter p n depth :: pre') with ([Enter p n depth] ++ pre') at 2.
      rewrite open_in_app. f_equal; [|by rewrite <- Hctx].
      unfold open_in. cbn [filter list_filter opens].
      rewrite HUp, andb_true_r.
      rewrite exited_false.
      * rewrite andb_true_r. by destruct (nested n depth).
      * intros q m dm [He|He]%elem_of_app.
        -- intros ->. by apply (Hbefore _ He).
        -- apply elem_of_cons in He as [?|He]; [done|].
           apply (Hstrict (Exit q m dm)). destruct Hpre as [k ->].
           apply elem_of_app. by left. }
    split_and!.
    + by rewrite Hst, Hst1, Hopen, <- app_assoc.
    + intros pre0 q m dm v3 Heq Hr0 Hn HUq.
      destruct pre0 as [|e0 pre0]; [done|]. injection Heq as <- ->.
      cbn [run exec] in Hr0. rewrite head_after in Hr0 by done.
      by apply (Hlast pre0 q m dm v3).
    + rewrite Hdom, Hcfg. unfold v1. rewrite after_head_dom.
      change (Enter p n depth :: pre') with ([Enter p n depth] ++ pre').
      rewrite events_pieces_app, pieces_text_app, sapp_assoc. f_equal. f_equal. f_equal.
      unfold events_pieces. cbn [flat_map event_pieces]. by rewrite HUp, app_nil_r.
    + intros k. rewrite Hopen.
      change (Enter p n depth :: pre') with ([Enter p n depth] ++ pre') at 1.
      rewrite events_pieces_app, depth_after_app.
      change (events_pieces v U [Enter p n depth])
        with (event_pieces v U (Enter p n depth) ++ []).
      cbn [event_pieces]. rewrite HUp, app_nil_r.
      rewrite depth_after_head_pieces. cbn [mbind option_bind].
      rewrite <- Hcfg, Hdep. f_equal. rewrite length_app.
      destruct (nested n depth); cbn [length]; lia.
  - (* the call of [tail] *)
    assert (x = [Exit p n depth]) as ->.
    { destruct x as [|e x]; [done|].
      pose proof (prefix_cons_inv_1 _ _ _ _ Hx) as ->.
      apply prefix_cons_inv_2, prefix_nil_inv in Hx as ->. done. }
    apply run_prefix_ok in Hrun as (v2 & Hr2 & Hr3).
    cbn [run exec] in Hr3. injection Hr3 as <-.
    destruct (Hkids _ v2 (reflexivity _) Hr2) as [Hst _].
    rewrite open_in_complete_children in Hst.
    2:{ intros e He. apply elem_of_app. by right. }
    rewrite app_nil_r, Hst1 in Hst.
    assert (Hall : open_in U (before ++ events n p depth) (events n p depth) = []).
    { apply open_in_complete. intros e He. apply elem_of_app. by right. }
    rewrite events_unfold in Hall. change (Children n) with kids in Hall.
    assert (Hw : events_pieces v U (Enter p n depth :: events_children kids p 0 depth
                                ++ [Exit p n depth])
                 = head_pieces v n depth ++ events_pieces v U (events_children kids p 0 depth) ++
                   (if nested n depth then [Close] else [])).
    { change (Enter p n depth :: events_children kids p 0 depth ++ [Exit p n depth])
        with ([Enter p n depth] ++ events_children kids p 0 depth ++ [Exit p n depth]).
      rewrite !events_pieces_app.
      change (events_pieces v U [Enter p n depth])
        with (event_pieces v U (Enter p n depth) ++ []).
      change (events_pieces v U [Exit p n depth])
        with (event_pieces v U (Exit p n depth) ++ []).
      cbn [event_pieces]. by rewrite HUp, !app_nil_r. }
    destruct (Hkids _ v2 (reflexivity _) Hr2) as (_ & _ & Hdom & Hdep).
    rewrite open_in_complete_children in Hdep.
    2:{ intros e He. apply elem_of_app. by right. }
    split_and!.
    + rewrite Hall, app_nil_r. destruct (nested n depth).
      * by rewrite (tail_pop _ _ _ _ (appendStack v)).
      * rewrite app_nil_r in Hst. rewrite tail_keep; [done|].
        intros q Hq. rewrite Hst in Hq. by apply (fresh_last p q (appendStack v)).
    + intros pre0 q m dm v3 Heq Hr0 Hn HUq.
      change (Enter p n depth :: events_children kids p 0 depth ++ [Exit p n depth])
        with ((Enter p n depth :: events_children kids p 0 depth) ++ [Exit p n depth])
        in Heq.
      apply app_inj_tail in Heq as [<- [= <- <- <-]].
      cbn [run exec] in Hr0. rewrite head_after in Hr0 by done.
      fold v1 in Hr0. rewrite Hr2 in Hr0. injection Hr0 as <-.
      rewrite Hst, Hn. by rewrite last_snoc.
    + rewrite Hw, !pieces_text_app, <- Hcfg. unfold v1 in Hdom.
      rewrite after_head_dom in Hdom. destruct (nested n depth).
      * rewrite (tail_pop _ _ _ _ (appendStack v)) by done. state_fields.
        by rewrite Hdom, !sapp_assoc.
      * rewrite app_nil_r in Hst. rewrite tail_keep.
        -- rewrite Hdom, !sapp_assoc. unfold pieces_text at 3.
           cbn [fmap list_fmap sconcat foldr]. by rewrite sapp_nil_r.
        -- intros q Hq. rewrite Hst in Hq. by apply (fresh_last p q (appendStack v)).
    + intros k. rewrite Hall, Hw, depth_after_app, depth_after_head_pieces.
      cbn [mbind option_bind length]. rewrite depth_after_app, <- Hcfg, Hdep.
      cbn [mbind option_bind length]. rewrite !Nat.add_0_r.
      by destruct (nested n depth).
Qed.

End Invariant3.

Section Discipline.
Context `{!Platform}.

Lemma open_in_elem (U : ptr → bool) (pre : list event) (q : ptr) :
  q ∈ open_in U pre pre ↔
  ∃ m dm, Enter q m dm ∈ pre ∧ nested m dm = true ∧ U q = true ∧
          ∀ m' dm', Exit q m' dm' ∉ pre.
Proof.
  unfold open_in. rewrite list_elem_of_fmap. split.
  - intros (e & -> & He). apply list_elem_of_filter in He as [Ho He].
    destruct e as [q m dm|q m dm]; [|done]. cbn [opens ptr_of] in *.
    apply andb_true_iff in Ho as [Ho Hx]. apply andb_true_iff in Ho as [Hn HU].
    exists m, dm. split_and!; try done.
    intros m' dm' Hin. apply (exited_elem q m' dm') in Hin. by rewrite Hin in Hx.
  - intros (m & dm & Hin & Hn & HU & Hx). exists (Enter q m dm). split; [done|].
    apply list_elem_of_filter. split; [|done]. cbn [opens].
    rewrite Hn, HU, exited_false; [done|]. intros q' m' dm' Hin' ->. by apply (Hx m' dm').
Qed.

(** C10. Along a traversal that succeeds, after any number of its
    calls, the stack holds the nested elements that are not suppressed
    and have been entered and not left, in the order of their entry, the
    buffer has grown by the pieces that these calls write, and as many
    append calls are open in these pieces as the stack has nodes; the
    call that leaves such a node finds it on top of the stack, pops it,
    writes the closing parenthesis and clears the flag; and at the end
    the stack is empty, the flag is clear and the append calls that the
    traversal has written into the construction buffer are matched. *)
Theorem append_stack_discipline (root : Node) (v vend : visitorData) :
  ignoreSubtree v = false → appendStack v = [] →
  traverse root [] 0 v = (vend, None) →
  traverse root [] 0 v = run (events root [] 0) v ∧
  (∀ pre, pre `prefix_of` events root [] 0 →
     ∃ v', run pre v = (v', None) ∧
           appendStack v' = open_in (unsuppressed root) pre pre ∧
           appendStack v' `sublist_of` ptr_of <$> pre ∧
           (∀ q, q ∈ appendStack v' ↔
              ∃ m dm, Enter q m dm ∈ pre ∧ nested m dm = true ∧
                      unsuppressed root q = true ∧ ∀ m' dm', Exit q m' dm' ∉ pre) ∧
           domConstruction v' =
             domConstruction v +:+ pieces_text (events_pieces v (unsuppressed root) pre) ∧
           depth_after 0 (events_pieces v (unsuppressed root) pre) =
             Some (length (appendStack v'))) ∧
  (∀ pre q m dm,
     pre ++ [Exit q m dm] `prefix_of` events root [] 0 →
     nested m dm = true → unsuppressed root q = true →
     ∃ v1 st, run pre v = (v1, None) ∧ appendStack v1 = st ++ [q] ∧
              run (pre ++ [Exit q m dm]) v =
                (with_ignoreSubtree false (dom_append ")" (with_appendStack st v1)), None)) ∧
  appendStack vend = [] ∧ ignoreSubtree vend = false ∧
  domConstruction vend =
    domConstruction v +:+
    pieces_text (events_pieces v (unsuppressed root) (events root [] 0)) ∧
  matched (events_pieces v (unsuppressed root) (events root [] 0)).
Proof.
  intros Hi Hs Ht.
  assert (Hrun : run (events root [] 0) v = (vend, None)) by by rewrite <- traverse_run.
  assert (Hfresh : fresh [] (appendStack v)) by (rewrite Hs; constructor).
  assert (Hfollows : ∀ pre v', pre `prefix_of` events root [] 0 →
            run pre v = (v', None) → stack_follows (unsuppressed root) [] pre v v').
  { intros pre v' Hpre Hr.
    apply (follows_node root [] 0%nat v (unsuppressed root) []); try done.
    - intros e He. by apply elem_of_nil in He.
    - intros q _. unfold unsuppressed. apply bool_decide_eq_true. }
  assert (Hok : ∀ pre, pre `prefix_of` events root [] 0 → ∃ v', run pre v = (v', None)).
  { intros pre [rest Hrest]. rewrite Hrest in Hrun.
    apply run_prefix_ok in Hrun as (v' & Hv' & _). by exists v'. }
  split_and!.
  - apply traverse_run.
  - intros pre Hpre. destruct (Hok pre Hpre) as [v' Hv']. exists v'.
    destruct (Hfollows pre v' Hpre Hv') as (Hst & _ & Hdom & Hdep). rewrite Hs in Hst.
    cbn [app] in Hst, Hdep. split_and!; [done|done| | |done|].
    + rewrite Hst. unfold open_in. apply fmap_sublist, sublist_filter.
    + intros q. rewrite Hst. apply open_in_elem.
    + by rewrite Hdep, Hst.
  - intros pre q m dm Hpre Hn HU.
    destruct (Hok _ Hpre) as [v' Hv'].
    destruct (Hfollows _ v' Hpre Hv') as (_ & Hlast & _).
    pose proof Hv' as Hv1. apply run_prefix_ok in Hv1 as (v1 & Hv1 & _).
    specialize (Hlast pre q m dm v1 eq_refl Hv1 Hn HU).
    apply last_Some in Hlast as [st Hst]. exists v1, st. split_and!; [done|done|].
    rewrite run_app, Hv1. cbn [run exec]. by rewrite (tail_pop _ _ _ _ st).
  - destruct (traverse_grown root [] 0 v Hi Hfresh) as [Hacc Hbad].
    destruct (accepted root 0); [|destruct (Hbad eq_refl) as [? Hv']; congruence].
    rewrite Hacc in Ht by done. injection Ht as <-. by unfold grown; state_fields.
  - destruct (traverse_grown root [] 0 v Hi Hfresh) as [Hacc Hbad].
    destruct (accepted root 0); [|destruct (Hbad eq_refl) as [? Hv']; congruence].
    rewrite Hacc in Ht by done. injection Ht as <-. by unfold grown; state_fields.
  - destruct (traverse_grown root [] 0 v Hi Hfresh) as [Hacc Hbad].
    destruct (accepted root 0); [|destruct (Hbad eq_refl) as [? Hv']; congruence].
    rewrite Hacc in Ht by done. injection Ht as <-.
    by rewrite <- tree_pieces_root_events.
  - rewrite <- tree_pieces_root_events. apply tree_pieces_matched.
Qed.

End Discipline.

Lemma stake_full (s : string) (n : nat) : (String.length s ≤ n)%nat → stake n s = s.
Proof.
  revert n. induction s as [|c s IH]; intros n Hn; destruct n; simpl in *; try done; try lia.
  f_equal. apply IH. lia.
Qed.

Lemma stake_app (d s : string) : stake (String.length d) (d +:+ s) = d.
Proof.
  induction d as [|c d IH]; [by destruct s|]. rewrite sapp_cons. simpl. by rewrite IH.
Qed.

Lemma length_sdrop (k : nat) (s : string) :
  String.length (sdrop k s) = (String.length s - k)%nat.
Proof.
  revert s. induction k as [|k IH]; intros s; [simpl; lia|].
  destruct s as [|c s]; [done|]. simpl. apply IH.
Qed.

Lemma length_sapp (a b : string) :
  String.length (a +:+ b) = (String.length a + String.length b)%nat.
Proof. induction a as [|c a IH]; [done|]. rewrite sapp_cons. simpl. by rewrite IH. Qed.

Lemma HasPrefix_nil (c : ascii) (pat : string) :
  GoStrings.HasPrefix "" (String c pat) = false.
Proof. done. Qed.

(** A pattern that is not empty is found before the end of the text. *)
Lemma LastIndex_from_lt (i acc : Z) (s : string) (c : ascii) (pat : string) :
  GoStrings.LastIndex_from i acc s (String c pat) = acc ∨
  i ≤ GoStrings.LastIndex_from i acc s (String c pat) < i + len s.
Proof.
  revert i acc. induction s as [|x s IH]; intros i acc.
  - left. cbn [GoStrings.LastIndex_from]. by rewrite HasPrefix_nil.
  - cbn [GoStrings.LastIndex_from].
    assert (Hl : len (String x s) = 1 + len s ∧ 0 ≤ len s) by (unfold len; simpl; lia).
    destruct (GoStrings.HasPrefix (String x s) (String c pat)).
    + destruct (IH (i + 1) i) as [->|H]; right; lia.
    + destruct (IH (i + 1) acc) as [->|H]; [by left|right; lia].
Qed.

Lemma slice_from (s : string) (k : Z) :
  0 ≤ k ≤ len s → slice s k (len s) = Some (sdrop (Z.to_nat k) s).
Proof.
  intros Hk. unfold slice.
  rewrite (proj2 (Z.leb_le 0 k)), (proj2 (Z.leb_le k (len s))), Z.leb_refl by lia.
  cbn [andb]. f_equal. apply stake_full. rewrite length_sdrop. unfold len in *. lia.
Qed.

(** X1. [getViewName] returns on every file name: none of its three
    slice expressions goes out of range, and the function returns what
    the model without the checks computes. *)
Theorem getViewName_never_panics (fileName : string) :
  getViewName_go fileName = Some (getViewName fileName).
Proof.
  unfold getViewName_go, getViewName.
  set (r := GoStrings.LastIndex fileName "/").
  assert (Hr : r = -1 ∨ 0 ≤ r < len fileName).
  { destruct (LastIndex_from_lt 0 (-1) fileName "/" "") as [H|H]; [by left|right].
    unfold r, GoStrings.LastIndex. lia. }
  set (k := if r <? 0 then 0 else r + 1).
  assert (Hk : 0 ≤ k ≤ len fileName).
  { unfold k. destruct (Z.ltb_spec r 0); unfold len in *; lia. }
  rewrite (slice_from fileName k Hk).
  set (w := GoStrings.Replace (sdrop (Z.to_nat k) fileName) ".htmto" "" 1).
  assert (∃ c rest, w +:+ "View" = String c rest) as (c & rest & ->).
  { destruct w as [|c w']; [by exists "V"%char, "iew"|].
    exists c, (w' +:+ "View"). apply sapp_cons. }
  assert (Hlen : len (String c rest) = 1 + len rest) by (unfold len; simpl; lia).
  assert (slice (String c rest) 0 1 = Some (String c "")) as ->.
  { unfold slice. rewrite Hlen.
    rewrite (proj2 (Z.leb_le 0 1)), (proj2 (Z.leb_le 1 (1 + len rest)))
      by (unfold len; lia). done. }
  assert (Hs : slice (String c rest) 1 (1 + len rest) = Some rest).
  { rewrite <- Hlen. rewrite slice_from by (unfold len in *; lia). done. }
  rewrite Hlen, Hs. done.
Qed.

Lemma getViewName_suffix (fileName : string) :
  ∃ d, getViewName fileName = d +:+ "View".
Proof.
  unfold getViewName.
  set (w := GoStrings.Replace _ ".htmto" "" 1).
  destruct w as [|c w']; [by exists ""|].
  rewrite sapp_cons. exists (GoStrings.ToUpper1 c +:+ w'). by rewrite sapp_assoc.
Qed.

(** X2. A name made by [getViewName] ends in [View], so that
    [debugIdFromViewName] stays in range on it and returns the name
    without that ending. *)
Theorem debugId_of_view_name (fileName : string) :
  ∃ d, getViewName fileName = d +:+ "View" ∧
       debugIdFromViewName_go (getViewName fileName) = Some d ∧
       debugIdFromViewName (getViewName fileName) = d.
Proof.
  destruct (getViewName_suffix fileName) as [d ->]. exists d. split; [done|].
  assert (Hl : String.length (d +:+ "View") = (String.length d + 4)%nat)
    by by rewrite length_sapp.
  split.
  - unfold debugIdFromViewName_go, slice, len. rewrite Hl. cbn [String.length].
    rewrite (proj2 (Z.leb_le 0 0)), (proj2 (Z.leb_le 0 _)), (proj2 (Z.leb_le _ _)) by lia.
    cbn [andb sdrop Z.to_nat]. f_equal.
    replace (Z.to_nat _) with (String.length d) by lia. apply stake_app.
  - unfold debugIdFromViewName. rewrite Hl.
    replace (String.length d + 4 - 4)%nat with (String.length d) by lia. apply stake_app.
Qed.

Lemma no_slash_LastIndex (base : string) :
  all_bytes (λ x, negb (bool_decide (x = slash))) base = true →
  GoStrings.LastIndex base "/" = -1.
Proof. intros Hb. by apply (LastIndex_from_absent 0 (-1) slash base). Qed.

(** X3. The class name is made from the part of the path after its last
    slash: the directories of a template do not show in its name, and two
    templates of the same file name get the same class name. *)
Theorem getViewName_ignores_directory (dir base : string) :
  all_bytes (λ x, negb (bool_decide (x = slash))) base = true →
  getViewName (dir +:+ "/" +:+ base) = getViewName base.
Proof.
  intros Hb. change (dir +:+ "/" +:+ base) with (dir +:+ String slash base).
  unfold getViewName. rewrite (no_slash_LastIndex base Hb).
  assert (GoStrings.LastIndex (dir +:+ String slash base) "/" = len dir) as ->.
  { unfold GoStrings.LastIndex.
    etrans; [apply (LastIndex_from_last 0 (-1) slash dir base Hb)|lia]. }
  replace (len dir <? 0) with false by (symmetry; apply Z.ltb_ge; unfold len; lia).
  replace (-1 <? 0) with true by done.
  replace (Z.to_nat (len dir + 1)) with (S (String.length dir)) by (unfold len; lia).
  assert (sdrop (S (String.length dir)) (dir +:+ String slash base) = base) as ->.
  { clear Hb. induction dir as [|c d IH]; [done|]. rewrite sapp_cons. simpl. exact IH. }
  done.
Qed.

Lemma indent_loop_spaces (depth : nat) (acc : string) :
  indent_loop depth acc = acc +:+ spaces (2 * depth).
Proof.
  revert acc. induction depth as [|d IH]; intros acc; [by rewrite sapp_nil_r|].
  cbn [indent_loop]. rewrite IH, sapp_assoc. f_equal.
  replace (2 * S d)%nat with (S (S (2 * d))) by lia. done.
Qed.

Lemma length_spaces (n : nat) : String.length (spaces n) = n.
Proof. induction n as [|n IH]; [done|]. simpl. by rewrite IH. Qed.

(** X4. The indentation at a depth is a newline and four spaces, and
    two more for every level. *)
Theorem indent_spaces (depth : nat) :
  indent depth = nl +:+ spaces (2 * depth + 4) ∧
  String.length (indent depth) = (2 * depth + 5)%nat ∧
  indent (S depth) = indent depth +:+ "  ".
Proof.
  assert (H : ∀ d, indent d = nl +:+ spaces (2 * d + 4)).
  { intros d. unfold indent. rewrite indent_loop_spaces. f_equal.
    replace (2 * d + 4)%nat with (S (S (S (S (2 * d))))) by lia. done. }
  assert (Hs : ∀ n, spaces n +:+ "  " = spaces (n + 2)).
  { induction n as [|n IH]; [done|]. cbn [spaces Nat.add]. by rewrite sapp_cons, IH. }
  split_and!; [apply H| |].
  - rewrite H, length_sapp, length_spaces. simpl. lia.
  - rewrite !H, sapp_assoc, Hs. do 2 f_equal. lia.
Qed.

Lemma escape_quotes_app (a b : string) :
  escape_quotes (a +:+ b) = escape_quotes a +:+ escape_quotes b.
Proof.
  induction a as [|c a IH]; [done|]. rewrite sapp_cons. cbn [escape_quotes].
  case_decide; rewrite IH; [by rewrite sapp_assoc|by rewrite sapp_cons].
Qed.

(** X5. [escapeText] works byte by byte: a single quote becomes a
    backslash and the quote, every other byte stays as it is (a backslash
    too, which is not escaped), so that the function goes through
    concatenation and leaves a text without quotes unchanged. *)
Theorem escapeText_bytes (c : ascii) (a b : string) :
  escapeText "" = "" ∧
  escapeText (String c a) =
    (if decide (c = "'"%char) then "\'" else String c "") +:+ escapeText a ∧
  escapeText (a +:+ b) = escapeText a +:+ escapeText b ∧
  (all_bytes (λ x, negb (bool_decide (x = "'"%char))) a = true ↔ escapeText a = a).
Proof.
  rewrite !escapeText_escape_quotes. split_and!.
  - done.
  - cbn [escape_quotes]. unfold quote. by case_decide.
  - apply escape_quotes_app.
  - induction a as [|x a IH]; [done|].
    cbn [all_bytes escape_quotes]. unfold quote in *. case_decide as Hx.
    + rewrite bool_decide_eq_true_2 by done. cbn [negb andb]. split; [done|].
      intros Heq. apply (f_equal String.length) in Heq.
      rewrite length_sapp in Heq. simpl in Heq.
      assert (String.length a ≤ String.length (escape_quotes a))%nat; [|lia].
      clear. induction a as [|y a IH]; [done|]. cbn [escape_quotes].
      case_decide; [rewrite length_sapp|]; simpl; lia.
    + rewrite bool_decide_eq_false_2 by done. cbn [negb andb]. rewrite IH.
      split; [by intros ->|]. by intros [= ->].
Qed.

(** ** Attributes and the calls of the visitor *)

Lemma getAttr_go_first (l1 l2 : list Attribute) (a : Attribute) (k : string) :
  Key a = k → (∀ b, b ∈ l1 → Key b ≠ k) → getAttr_go (l1 ++ a :: l2) k = Val a.
Proof.
  intros Ha. induction l1 as [|b l1 IH]; intros Hl1; cbn [getAttr_go app].
  - by rewrite eqb_bool_decide, bool_decide_eq_true_2.
  - rewrite eqb_bool_decide, bool_decide_eq_false_2 by (apply Hl1; by left).
    apply IH. intros b' Hb'. apply Hl1. by right.
Qed.

Lemma getAttr_go_found (attrs : list Attribute) (k : string) :
  getAttr_go attrs k ≠ "" →
  ∃ l1 a l2, attrs = l1 ++ a :: l2 ∧ Key a = k ∧ (∀ b, b ∈ l1 → Key b ≠ k) ∧
             getAttr_go attrs k = Val a.
Proof.
  induction attrs as [|b attrs IH]; [done|]. cbn [getAttr_go].
  rewrite eqb_bool_decide. case_bool_decide as Hb.
  - intros _. exists [], b, attrs. split_and!; try done. by intros ? ?%elem_of_nil.
  - intros (l1 & a & l2 & -> & Ha & Hl1 & Hv)%IH.
    exists (b :: l1), a, l2. split_and!; try done.
    intros b' [->|Hb']%elem_of_cons; [done|by apply Hl1].
Qed.

(** X6. [getAttr] returns the value of the first attribute of the key,
    and the empty text when the node has none; [hasAttr] says yes exactly
    when that first attribute has a value that is not empty, so that an
    attribute with an empty value counts as missing. *)
Theorem getAttr_first_match (n : Node) (k : string) :
  (∀ l1 a l2, Attr n = l1 ++ a :: l2 → Key a = k → (∀ b, b ∈ l1 → Key b ≠ k) →
     getAttr n k = Val a) ∧
  ((∀ a, a ∈ Attr n → Key a ≠ k) → getAttr n k = "") ∧
  (hasAttr n k = true ↔
     ∃ l1 a l2, Attr n = l1 ++ a :: l2 ∧ Key a = k ∧ (∀ b, b ∈ l1 → Key b ≠ k) ∧
                Val a ≠ "").
Proof.
  unfold hasAttr, getAttr. split_and!.
  - intros l1 a l2 -> Ha Hl1. by apply getAttr_go_first.
  - apply getAttr_go_absent.
  - rewrite negb_true_iff, eqb_bool_decide, bool_decide_eq_false. split.
    + intros Hne. destruct (getAttr_go_found _ _ Hne) as (l1 & a & l2 & Heq & Ha & Hl1 & Hv).
      exists l1, a, l2. split_and!; try done. by rewrite <- Hv.
    + intros (l1 & a & l2 & -> & Ha & Hl1 & Hv). by rewrite (getAttr_go_first l1 l2 a k).
Qed.

Section Calls.
Context `{!Platform}.

(** X7. On the root element [head] writes the call of the super
    constructor, [this], the debug id when it is forced and the root has
    none of its own, and the attributes; it pushes nothing, queues no
    field, leaves the flag clear and returns no error, whatever the tag
    and the attributes of the root: a marker on the root gives no field,
    and a root named [tomato] is no reference. The name of the view has
    the four bytes that [debugIdFromViewName] cuts off, as every name
    made by [getViewName] has. *)
Theorem head_root_element (n : Node) (p : ptr) (v : visitorData) :
  Type_ n = ElementNode → ignoreSubtree v = false →
  (4 ≤ String.length (viewName v))%nat →
  head n p 0 v =
    (dom_append
       (indent 0 +:+ "super(doc.createElement('" +:+ ToLower (Data n) +:+ "'));" +:+ nl +:+
        indent 0 +:+ "this" +:+
        (if forceDebugIds v && negb (hasAttr n "debug-id")
         then ".setAttr('debug-id', '" +:+
              escapeText (debugIdFromViewName (viewName v)) +:+ "')"
         else "") +:+
        sconcat (setAttr_call <$> transferred n)) v, None) ∧
  refs (head n p 0 v).1 = refs v ∧
  appendStack (head n p 0 v).1 = appendStack v ∧
  ignoreSubtree (head n p 0 v).1 = false.
Proof.
  intros Hty Hi _.
  rewrite head_after; [|done|].
  2:{ unfold reference, nested. cbn [Nat.eqb negb]. by rewrite andb_false_r. }
  unfold after_head, nested, head_pieces. rewrite Hty. cbn [Nat.eqb negb andb].
  rewrite andb_false_r. split_and!; try done.
  f_equal. f_equal. unfold pieces_text, root_text, setAttr_call, attrs_text, DebugIdAttr.
  cbn [fmap list_fmap sconcat foldr piece_text fst snd].
  rewrite sapp_nil_r, escapeText_escape_quotes. done.
Qed.

(** X8. On an element below the root that is no reference, [head] opens
    an append call with the factory call for the tag, assigns it to the
    field when the node carries the marker, and sets the attributes; it
    pushes the node, queues the field with the base class as its type,
    and leaves the flag clear. *)
Theorem head_nested_element (n : Node) (p : ptr) (d : nat) (v : visitorData) :
  Type_ n = ElementNode → ToLower (Data n) ≠ "tomato" → ignoreSubtree v = false →
  ∃ v', head n p (S d) v = (v', None) ∧
    domConstruction v' =
      domConstruction v +:+ indent (S d) +:+ ".append(" +:+
      (if String.eqb (getAttr n "_ref") "" then ""
       else "this." +:+ getAttr n "_ref" +:+ " = ") +:+
      ViewFactory (options v) +:+ "('" +:+ ToLower (Data n) +:+ "', doc)" +:+
      sconcat (setAttr_call <$> transferred n) ∧
    appendStack v' = appendStack v ++ [p] ∧
    ignoreSubtree v' = false ∧
    refs v' =
      refs v ++ (if String.eqb (getAttr n "_ref") "" then []
                 else [getAttr n "_ref" +:+ ": " +:+ ViewBaseClass (options v)]) ∧
    options v' = options v ∧ output v' = output v ∧ cssText v' = cssText v.
Proof.
  intros Hty Htag Hi.
  assert (Ht : is_tomato n = false).
  { unfold is_tomato. by rewrite eqb_bool_decide, bool_decide_eq_false_2. }
  assert (Hn : nested n (S d) = true).
  { unfold nested. by rewrite bool_decide_eq_true_2. }
  exists (after_head v n p (S d)). split.
  { apply head_after; [done|]. unfold reference. by rewrite Ht, andb_false_r. }
  unfold after_head. rewrite Hn, Ht. state_fields.
  unfold head_pieces, marked, marker, field_decl, declared_type, construct_text,
    attrs_text, FieldRefAttr, marker.
  rewrite Hty, Ht. split_and!; try done.
  - destruct (String.eqb (getAttr n "_ref") ""); cbn [negb app];
      unfold pieces_text; cbn [fmap list_fmap sconcat foldr piece_text];
      by rewrite ?sapp_nil_r, ?sapp_assoc.
  - by destruct (String.eqb (getAttr n "_ref") "").
Qed.

(** [head] reads the kind, the name and the attributes of a node,
    not its children. *)
Lemma transferAttrs_go_label (n m : Node) (attrs : list Attribute) (v : visitorData) :
  Data n = Data m → transferAttrs_go n attrs v = transferAttrs_go m attrs v.
Proof.
  intros Hd. revert v. induction attrs as [|a attrs IH]; intros v; [done|].
  cbn [transferAttrs_go]. rewrite Hd. by destruct (_ || _).
Qed.

Lemma head_label (n m : Node) (p : ptr) (depth : nat) (v : visitorData) :
  Type_ n = Type_ m → Data n = Data m → Attr n = Attr m →
  head n p depth v = head m p depth v.
Proof.
  intros Ht Hd Ha. unfold head, hasAttr, getAttr, transferAttrs.
  rewrite Ht, Hd, Ha.
  destruct (ignoreSubtree v); [done|]. destruct (Type_ m); try done.
  destruct depth.
  - apply (f_equal (λ x, (x, @None error))). by apply transferAttrs_go_label.
  - repeat match goal with
           | |- context [if ?b then _ else _] => destruct b
           end; try done;
      apply (f_equal (λ x, (x, @None error))); by apply transferAttrs_go_label.
Qed.

Lemma traverse_children_suppressed (cs : list Node) (p : ptr) (depth : nat) :
  ∀ (i : nat) (v : visitorData),
    ignoreSubtree v = true → last (appendStack v) = Some p →
    traverse_children cs p i depth v = (v, None).
Proof.
  induction cs as [|c cs IH]; intros i v Hi Hs; [done|].
  cbn [traverse_children]. rewrite traverse_suppressed; [by apply IH|done|].
  intros q Hq. rewrite Hs in Hq. injection Hq as <-.
  intros Hp. by apply child_ptr_ne in Hp.
Qed.

(** X9. The children of a nested-template reference are never looked
    at: the traversal of a reference is that of the same element without
    children, in what it writes and in the error it returns. *)
Theorem reference_children_ignored (d : string) (a : list Attribute) (kids : list Node)
    (p : ptr) (depth : nat) (v : visitorData) :
  ToLower d = "tomato" → ignoreSubtree v = false →
  traverse (MkNode ElementNode d a kids) p (S depth) v =
  traverse (MkNode ElementNode d a []) p (S depth) v.
Proof.
  intros Htag Hi. rewrite !traverse_unfold. cbn [Children traverse_children].
  rewrite (head_label (MkNode ElementNode d a kids) (MkNode ElementNode d a [])) by done.
  set (m := MkNode ElementNode d a []).
  destruct (head m p (S depth) v) as [v1 [e|]] eqn:Hh; [done|].
  assert (Href : reference m (S depth) = true).
  { unfold reference, nested, is_tomato, m. cbn [Type_ Data].
    by rewrite bool_decide_eq_true_2, Htag. }
  assert (Hsrc : getAttr m "src" ≠ "").
  { intros Hs. destruct (head_no_src m p (S depth) v Hi Href Hs) as [v' Hv'].
    by rewrite Hv' in Hh. }
  rewrite head_after in Hh by done. injection Hh as <-.
  rewrite traverse_children_suppressed; [done| |].
  - unfold after_head. unfold reference in Href.
    apply andb_true_iff in Href as [-> ->]. by state_fields.
  - unfold after_head. unfold reference in Href.
    apply andb_true_iff in Href as [-> _]. state_fields. by rewrite last_snoc.
Qed.

(** X10. A traversal from a fresh visitor fails exactly when it comes
    to a reference without a source: an element below the root that is
    named [tomato], is not below another reference, and has no [src] or
    an empty one. This is the only error of a traversal. *)
Theorem traverse_fails_on_missing_source (root : Node) (v : visitorData) :
  ignoreSubtree v = false → appendStack v = [] →
  (4 ≤ String.length (viewName v))%nat →
  ((traverse root [] 0 v).2 = None ↔
     ∀ q n d, (q, n, d) ∈ preorder root [] 0 → Type_ n = ElementNode → d ≠ 0%nat →
              ToLower (Data n) = "tomato" → getAttr n "src" ≠ "") ∧
  (∀ e, (traverse root [] 0 v).2 = Some e →
        e = "Tomato element with no 'src' attribute!").
Proof.
  intros Hi Hs _.
  assert (Hf : fresh [] (appendStack v)) by (rewrite Hs; constructor).
  destruct (traverse_grown root [] 0 v Hi Hf) as [Hok Hbad].
  assert (Hacc : accepted root 0 = true ↔
            ∀ q n d, (q, n, d) ∈ preorder root [] 0 → Type_ n = ElementNode →
                     d ≠ 0%nat → ToLower (Data n) = "tomato" → getAttr n "src" ≠ "").
  { rewrite (accepted_preorder root [] 0), forallb_forall. split.
    - intros Hall q n d Hin Hty Hd Htag Hsrc.
      apply list_elem_of_In, Hall in Hin. apply negb_true_iff in Hin.
      unfold dangling, reference, nested, is_tomato in Hin. cbn [fst snd] in Hin.
      rewrite bool_decide_eq_true_2, Htag, Hsrc in Hin by done.
      destruct d; [done|]. done.
    - intros Hall [[q n] d] Hin%list_elem_of_In. apply negb_true_iff.
      apply not_true_is_false. unfold dangling, reference, nested, is_tomato.
      cbn [fst snd]. rewrite !andb_true_iff, bool_decide_eq_true, negb_true_iff.
      rewrite Nat.eqb_neq, !eqb_bool_decide, !bool_decide_eq_true.
      intros [[[Hty Hd] Htag] Hsrc]. by apply (Hall q n d). }
  split.
  - rewrite <- Hacc. destruct (accepted root 0).
    + by rewrite Hok.
    + destruct (Hbad eq_refl) as [v' ->]. done.
  - intros e He. destruct (traverse root [] 0 v) as [v' r] eqn:Ht. cbn [snd] in He.
    subst r. by apply traverse_error in Ht.
Qed.

End Calls.

Lemma extends_refl (v : visitorData) : extends v v.
Proof.
  repeat split; try done; [exists ""; by rewrite sapp_nil_r|exists []; by rewrite app_nil_r].
Qed.

Lemma extends_trans (v1 v2 v3 : visitorData) : extends v1 v2 → extends v2 v3 → extends v1 v3.
Proof.
  intros (Ho & Hc & Hn & Hu & Hf & [t Ht] & [r Hr]) (Ho' & Hc' & Hn' & Hu' & Hf' & [t' Ht'] & [r' Hr']).
  repeat split; try congruence.
  - exists (t +:+ t'). by rewrite Ht', Ht, sapp_assoc.
  - exists (r ++ r'). by rewrite Hr', Hr, app_assoc.
Qed.

Lemma extends_dom_append (text : string) (v0 v : visitorData) :
  extends v0 v → extends v0 (dom_append text v).
Proof.
  intros H. apply (extends_trans _ v); [done|].
  repeat split; try done; [by exists text|exists []; by rewrite app_nil_r].
Qed.

Lemma extends_appendStack (st : list ptr) (v0 v : visitorData) :
  extends v0 v → extends v0 (with_appendStack st v).
Proof.
  intros H. apply (extends_trans _ v); [done|].
  repeat split; try done; [exists ""; by rewrite sapp_nil_r|exists []; by rewrite app_nil_r].
Qed.

Lemma extends_ignoreSubtree (b : bool) (v0 v : visitorData) :
  extends v0 v → extends v0 (with_ignoreSubtree b v).
Proof.
  intros H. apply (extends_trans _ v); [done|].
  repeat split; try done; [exists ""; by rewrite sapp_nil_r|exists []; by rewrite app_nil_r].
Qed.

Lemma extends_refs (decls : list string) (v0 v : visitorData) :
  extends v0 v → extends v0 (with_refs (refs v ++ decls) v).
Proof.
  intros H. apply (extends_trans _ v); [done|].
  repeat split; try done; [exists ""; by rewrite sapp_nil_r|by exists decls].
Qed.

Lemma extends_emitAttr (ns k val : string) (v0 v : visitorData) :
  extends v0 v → extends v0 (emitAttr ns k val v).
Proof. intros H. unfold emitAttr. by apply extends_dom_append. Qed.

Section Frame.
Context `{!Platform}.

Lemma extends_transferAttrs (n : Node) (v0 v : visitorData) :
  extends v0 v → extends v0 (transferAttrs n v).
Proof. intros Hv. rewrite transferAttrs_text. by apply extends_dom_append. Qed.

Ltac extends_step :=
  lazymatch goal with
  | |- extends _ (transferAttrs _ _) => apply extends_transferAttrs
  | |- extends _ (emitAttr _ _ _ _) => apply extends_emitAttr
  | |- extends _ (dom_append _ _) => apply extends_dom_append
  | |- extends _ (with_appendStack _ _) => apply extends_appendStack
  | |- extends _ (with_ignoreSubtree _ _) => apply extends_ignoreSubtree
  | |- extends _ (with_refs (refs ?v ++ _) ?v) => apply extends_refs
  | |- extends ?v ?v => apply extends_refl
  end.

Lemma head_extends (n : Node) (p : ptr) (depth : nat) (v : visitorData) :
  extends v (head n p depth v).1.
Proof.
  unfold head. destruct (ignoreSubtree v); [apply extends_refl|].
  destruct (Type_ n); cbn [fst]; try apply extends_refl.
  - destruct (negb _); cbn [fst]; repeat extends_step.
  - destruct depth; cbn zeta.
    + destruct (_ && _); cbn [fst]; repeat extends_step.
    + repeat match goal with
             | |- context [if ?b then _ else _] => destruct b
             end; cbn [fst]; repeat extends_step.
Qed.

Lemma tail_extends (n : Node) (p : ptr) (depth : nat) (v : visitorData) :
  extends v (tail n p depth v).
Proof.
  unfold tail. destruct (last (appendStack v)); [|apply extends_refl].
  case_decide; repeat extends_step.
Qed.

(** X11. Whatever the tree and the state of the visitor, and whether or
    not it fails, a traversal leaves the options, the style text, the
    name of the view, the output and the debug switch as they are, and
    only appends to the construction buffer and to the queue of
    fields. The name of the view has the four bytes that
    [debugIdFromViewName] cuts off. *)
Theorem traverse_extends (n : Node) (p : ptr) (depth : nat) (v : visitorData) :
  (4 ≤ String.length (viewName v))%nat →
  options (traverse n p depth v).1 = options v ∧
  cssText (traverse n p depth v).1 = cssText v ∧
  viewName (traverse n p depth v).1 = viewName v ∧
  output (traverse n p depth v).1 = output v ∧
  forceDebugIds (traverse n p depth v).1 = forceDebugIds v ∧
  (∃ text, domConstruction (traverse n p depth v).1 = domConstruction v +:+ text) ∧
  (∃ decls, refs (traverse n p depth v).1 = refs v ++ decls).
Proof.
  intros _. change (extends v (traverse n p depth v).1).
  revert p depth v. induction n as [t d a kids IH] using Node_ind. intros p depth v.
  rewrite traverse_unfold. cbn [Children].
  pose proof (head_extends (MkNode t d a kids) p depth v) as Hh.
  destruct (head _ p depth v) as [v1 [e|]]; [done|]. cbn [fst] in Hh.
  assert (Hk : ∀ i v1, extends v1 (traverse_children kids p i depth v1).1).
  { clear Hh v1. induction IH as [|c kids Hc _ IHk]; intros i v1; [apply extends_refl|].
    cbn [traverse_children]. specialize (Hc (p ++ [i]) (S depth) v1).
    destruct (traverse c _ _ v1) as [v2 [e|]]; [done|].
    eapply extends_trans; [exact Hc|apply IHk]. }
  specialize (Hk 0%nat v1).
  destruct (traverse_children kids p 0 depth v1) as [v2 [e|]]; cbn [fst] in *.
  - by eapply extends_trans.
  - eapply extends_trans; [exact Hh|]. eapply extends_trans; [exact Hk|].
    apply tail_extends.
Qed.

(** X12. A node that is neither an element nor a text (a comment, a
    doctype) and has no children leaves no trace: its traversal changes
    nothing, unless the node itself is on top of the stack. *)
Theorem traverse_other_node (n : Node) (p : ptr) (depth : nat) (v : visitorData) :
  Type_ n ≠ ElementNode → Type_ n ≠ TextNode → Children n = [] →
  last (appendStack v) ≠ Some p →
  traverse n p depth v = (v, None).
Proof.
  intros He Ht Hc Hs. rewrite traverse_unfold, Hc. cbn [traverse_children].
  assert (head n p depth v = (v, None)) as ->.
  { unfold head. destruct (ignoreSubtree v); [done|]. by destruct (Type_ n). }
  rewrite tail_keep; [done|]. intros q Hq ->. by apply Hs.
Qed.

End Frame.

(** ** The two output files *)

Lemma enum_keys (views : gmap string View) (enum : list string) :
  enum ≡ₚ (map_to_list views).*1 → ∀ k, k ∈ enum ↔ is_Some (views !! k).
Proof.
  intros Henum k. rewrite Henum, list_elem_of_fmap. split.
  - intros ([k' c] & -> & Hk). apply elem_of_map_to_list in Hk. by eexists.
  - intros [c Hc]. exists (k, c). split; [done|]. by apply elem_of_map_to_list.
Qed.

Lemma aggregate_ok (views : gmap string View) (opts : GeneratorOptions) (enum : list string) :
  enum ≡ₚ (map_to_list views).*1 →
  aggregate enum views opts =
    Ok (EmitPreamble opts "" +:+ sconcat (view_chunk views <$> sort_Strings enum),
        sconcat (css_chunk views <$> sort_Strings enum)).
Proof.
  intros Henum. unfold aggregate. rewrite concatViews_ok; [done|].
  apply Forall_forall. intros k Hk. apply (enum_keys views enum Henum).
  by rewrite <- (sort_Strings_perm enum).
Qed.

Lemma sapp_empty (a b : string) : a +:+ b = "" ↔ a = "" ∧ b = "".
Proof.
  split; [|by intros [-> ->]]. destruct a as [|c a]; [done|]. by rewrite sapp_cons.
Qed.

Lemma sconcat_empty (l : list string) : sconcat l = "" ↔ Forall (λ s, s = "") l.
Proof.
  induction l as [|s l IH]; [by split; [constructor|]|].
  cbn [sconcat foldr]. fold (sconcat l). rewrite Forall_cons, <- IH. apply sapp_empty.
Qed.

(** X13. The aggregation of the units of a map returns: the view text
    begins with the import line, which is all of it when there are no
    units, and the style sheet is empty exactly when no unit has style
    text. *)
Theorem aggregate_import_and_styles (views : gmap string View) (opts : GeneratorOptions)
    (enum : list string) :
  enum ≡ₚ (map_to_list views).*1 →
  ∃ rest css,
    aggregate enum views opts =
      Ok ("import { " +:+ ViewBaseClass opts +:+ ", " +:+ ViewFactory opts +:+
          " } from '" +:+ ImportLocation opts +:+ "';" +:+ rest, css) ∧
    (views = ∅ → rest = "" ∧ css = "") ∧
    (css = "" ↔ ∀ k c, views !! k = Some c → CssText c = "").
Proof.
  intros Henum. rewrite (aggregate_ok views opts enum Henum).
  exists (sconcat (view_chunk views <$> sort_Strings enum)),
         (sconcat (css_chunk views <$> sort_Strings enum)).
  split_and!.
  - unfold EmitPreamble. by rewrite !sapp_assoc.
  - intros ->. rewrite map_to_list_empty in Henum. apply Permutation_nil_r in Henum as ->.
    done.
  - rewrite sconcat_empty, Forall_fmap, Forall_forall. split.
    + intros Hall k c Hc. specialize (Hall k). cbn in Hall. unfold css_chunk in Hall.
      rewrite Hc in Hall. rewrite eqb_bool_decide in Hall.
      case_bool_decide as He; [done|]. cbn [negb] in Hall.
      assert (Hk : k ∈ sort_Strings enum).
      { rewrite sort_Strings_perm. apply (enum_keys views enum Henum). by eexists. }
      apply Hall in Hk. apply sapp_empty in Hk as [Hk _]. done.
    + intros Hall k _. cbn. unfold css_chunk. destruct (views !! k) as [c|] eqn:Hc; [|done].
      by rewrite (Hall k c Hc).
Qed.

Lemma slice_no_dot (outFile : string) :
  all_bytes (λ x, negb (bool_decide (x = dot))) outFile = true →
  slice outFile 0 (GoStrings.LastIndex outFile ".") = None.
Proof.
  intros Hd. unfold GoStrings.LastIndex.
  assert (GoStrings.LastIndex_from 0 (-1) outFile "." = -1) as ->
    by apply (LastIndex_from_absent 0 (-1) dot outFile Hd).
  done.
Qed.

Lemma writeFileIfChanged_locked (fs fs' : FileSystem) (filename data : string) r :
  writeFileIfChanged fs filename data = (fs', r) → locked fs' = locked fs.
Proof.
  unfold writeFileIfChanged, WriteFile.
  destruct (existingFileContentMatches fs filename data); [by intros [= <- _]|].
  case_decide; by intros [= <- _].
Qed.

Lemma writeFileIfChanged_refused (fs : FileSystem) (filename data : string) :
  filename ∈ locked fs → ReadFile fs filename ≠ Some data →
  ∃ err, writeFileIfChanged fs filename data = (fs, Some err).
Proof.
  intros Hl Hr. rewrite writeFileIfChanged_differs by done.
  unfold WriteFile. rewrite decide_True by done. by eexists.
Qed.

Lemma writeFileIfChanged_allowed (fs : FileSystem) (filename data : string) :
  filename ∉ locked fs → ∃ fs', writeFileIfChanged fs filename data = (fs', None).
Proof.
  intros Hl. unfold writeFileIfChanged, WriteFile.
  destruct (existingFileContentMatches fs filename data); [by eexists|].
  rewrite decide_False by done. by eexists.
Qed.

Section Files.
Context (filepath_Dir : string → string).

(** X14. An output path without a dot makes [writeTomatoOutput] panic:
    the position of the last dot is [-1], which is no bound of a slice.
    This happens once the texts are made and the directory is there,
    and before anything is written. *)
Theorem writeTomatoOutput_needs_a_dot (enum : list string) (outFile : string)
    (views : gmap string View) (opts : GeneratorOptions) (fs : FileSystem) :
  enum ≡ₚ (map_to_list views).*1 →
  MkdirAll fs (filepath_Dir outFile) = None →
  all_bytes (λ x, negb (bool_decide (x = "."%char))) outFile = true →
  writeTomatoOutput filepath_Dir enum outFile views opts fs = (fs, Panic).
Proof.
  intros Henum Hm Hd. unfold writeTomatoOutput.
  by rewrite (aggregate_ok views opts enum Henum), Hm, (slice_no_dot outFile Hd).
Qed.

(** X15. The errors of [writeTomatoOutput]. When the directory cannot
    be made, nothing is written. When the style sheet cannot be
    written, the output file is not written either. When the output
    file cannot be written, the style sheet has been written already and
    stays. *)
Theorem writeTomatoOutput_errors (enum : list string) (outFile : string)
    (views : gmap string View) (opts : GeneratorOptions) (fs : FileSystem) :
  enum ≡ₚ (map_to_list views).*1 →
  (∀ err, MkdirAll fs (filepath_Dir outFile) = Some err →
     writeTomatoOutput filepath_Dir enum outFile views opts fs = (fs, Err err)) ∧
  (∀ stem viewText css,
     MkdirAll fs (filepath_Dir outFile) = None →
     slice outFile 0 (GoStrings.LastIndex outFile ".") = Some stem →
     aggregate enum views opts = Ok (viewText, css) →
     (stem +:+ ".scss" ∈ locked fs → ReadFile fs (stem +:+ ".scss") ≠ Some css →
        ∃ err, writeTomatoOutput filepath_Dir enum outFile views opts fs = (fs, Err err)) ∧
     (stem +:+ ".scss" ∉ locked fs → stem +:+ ".scss" ≠ outFile →
      outFile ∈ locked fs → ReadFile fs outFile ≠ Some viewText →
        ∃ fs1 err,
          writeTomatoOutput filepath_Dir enum outFile views opts fs = (fs1, Err err) ∧
          contents fs1 !! (stem +:+ ".scss") = Some css ∧
          contents fs1 !! outFile = contents fs !! outFile)).
Proof.
  intros Henum. split.
  - intros err Hm. unfold writeTomatoOutput.
    by rewrite (aggregate_ok views opts enum Henum), Hm.
  - intros stem viewText css Hm Hs Ha. unfold writeTomatoOutput.
    rewrite Ha, Hm, Hs. split.
    + intros Hl Hr. destruct (writeFileIfChanged_refused fs _ css Hl Hr) as [err ->].
      by exists err.
    + intros Hl Hne Hlo Hr.
      destruct (writeFileIfChanged_allowed fs (stem +:+ ".scss") css Hl) as [fs1 H1].
      rewrite H1.
      assert (Hc1 : contents fs1 !! outFile = contents fs !! outFile).
      { by apply (writeFileIfChanged_other fs fs1 (stem +:+ ".scss") css outFile None). }
      destruct (writeFileIfChanged_frame _ _ _ _ _ H1) as (Hu1 & Hl1 & _).
      destruct (writeFileIfChanged_refused fs1 outFile viewText) as [err H2].
      { by rewrite Hl1. }
      { unfold ReadFile in Hr |- *. by rewrite Hu1, Hc1. }
      rewrite H2. exists fs1, err. split_and!; [done| |done].
      by apply (writeFileIfChanged_holds fs).
Qed.

(** X16. After a run of [writeTomatoOutput] that succeeds, the output
    file holds the view text of the aggregation and, when it has a path
    of its own, the style sheet file holds the style text, also when
    that is empty; every other file holds what it held. When the two paths
    are the same, the file holds the view text and the style text is
    lost. *)
Theorem writeTomatoOutput_writes_the_texts (enum : list string) (outFile : string)
    (views : gmap string View) (opts : GeneratorOptions) (fs fs' : FileSystem) :
  writeTomatoOutput filepath_Dir enum outFile views opts fs = (fs', Ok tt) →
  ∃ viewText css stem,
    aggregate enum views opts = Ok (viewText, css) ∧
    slice outFile 0 (GoStrings.LastIndex outFile ".") = Some stem ∧
    contents fs' !! outFile = Some viewText ∧
    (stem +:+ ".scss" ≠ outFile → contents fs' !! (stem +:+ ".scss") = Some css) ∧
    (∀ other, other ≠ outFile → other ≠ stem +:+ ".scss" →
       contents fs' !! other = contents fs !! other).
Proof.
  unfold writeTomatoOutput.
  destruct (aggregate enum views opts) as [[viewText css]| |]; try done.
  destruct (MkdirAll fs _); [done|].
  destruct (slice outFile 0 _) as [stem|]; [|done].
  destruct (writeFileIfChanged fs _ css) as [fs1 [e|]] eqn:H1; [done|].
  destruct (writeFileIfChanged fs1 outFile viewText) as [fs2 [e|]] eqn:H2; [done|].
  intros [= <-]. exists viewText, css, stem. split_and!; try done.
  - by apply (writeFileIfChanged_holds fs1).
  - intros Hne. rewrite (writeFileIfChanged_other _ _ _ _ _ _ H2) by done.
    by apply (writeFileIfChanged_holds fs).
  - intros other Ho Hc. rewrite (writeFileIfChanged_other _ _ _ _ _ _ H2) by done.
    by apply (writeFileIfChanged_other _ _ _ _ _ _ H1).
Qed.

Lemma writeFileIfChanged_refines (fsA fsA' fsB : FileSystem) (filename data : string) :
  WriteFile fsA filename data = (fsA', None) →
  contents fsB = contents fsA → locked fsB = locked fsA →
  written fsB `sublist_of` written fsA →
  ∃ fsB', writeFileIfChanged fsB filename data = (fsB', None) ∧
          contents fsB' = contents fsA' ∧ locked fsB' = locked fsA' ∧
          written fsB' `sublist_of` written fsA'.
Proof.
  unfold WriteFile. case_decide as Hl; [done|]. intros [= <-] Hc Hk Hw.
  unfold writeFileIfChanged.
  destruct (existingFileContentMatches fsB filename data) eqn:He.
  - exists fsB. split_and!; try done; cbn [contents locked written].
    + apply existingFileContentMatches_iff, ReadFile_contents in He.
      rewrite Hc in He |- *. by rewrite insert_id.
    + by apply sublist_inserts_r.
  - unfold WriteFile. rewrite decide_False by by rewrite Hk.
    eexists. split_and!; try done; cbn [contents locked written].
    + by rewrite Hc.
    + by apply sublist_app.
Qed.

(** X17. The later [writeTomatoOutput], which writes a file only when
    its content changes, against the earlier one, which always writes:
    whenever the earlier one succeeds, the later one succeeds and leaves
    every file with the same content, with no write that the earlier
    one does not make. *)
Theorem writeTomatoOutput_refines_unconditional (enum : list string) (outFile : string)
    (views : gmap string View) (opts : GeneratorOptions) (fs fs1 : FileSystem) :
  writeTomatoOutput_unconditional filepath_Dir enum outFile views opts fs = (fs1, Ok tt) →
  ∃ stem fs2,
    slice outFile 0 (GoStrings.LastIndex outFile ".") = Some stem ∧
    written fs1 = written fs ++ [stem +:+ ".scss"; outFile] ∧
    writeTomatoOutput filepath_Dir enum outFile views opts fs = (fs2, Ok tt) ∧
    contents fs2 = contents fs1 ∧
    written fs2 `sublist_of` written fs1.
Proof.
  unfold writeTomatoOutput_unconditional, writeTomatoOutput.
  destruct (aggregate enum views opts) as [[viewText css]| |]; try done.
  destruct (MkdirAll fs _); [done|].
  destruct (slice outFile 0 _) as [stem|]; [|done].
  destruct (WriteFile fs _ css) as [fsa [e|]] eqn:H1; [done|].
  destruct (WriteFile fsa outFile viewText) as [fsb [e|]] eqn:H2; [done|].
  intros [= <-].
  destruct (writeFileIfChanged_refines fs fsa fs _ css H1) as (fsa' & -> & Hc & Hl & Hw);
    try done.
  destruct (writeFileIfChanged_refines fsa fsb fsa' _ viewText H2) as (fsb' & -> & Hc' & Hl' & Hw');
    try done.
  exists stem, fsb'. split_and!; try done.
  unfold WriteFile in H1, H2. repeat case_decide; try done.
  injection H1 as <-. injection H2 as <-. cbn [written]. by rewrite <- app_assoc.
Qed.

End Files.

Lemma stake_sdrop (k : nat) (s : string) : stake k s +:+ sdrop k s = s.
Proof.
  revert s. induction k as [|k IH]; intros s; [done|].
  destruct s as [|c s]; [done|]. cbn [stake sdrop]. by rewrite sapp_cons, IH.
Qed.

Lemma HasSuffix_iff (s suffix : string) :
  GoStrings.HasSuffix s suffix = true ↔ ∃ base, s = base +:+ suffix.
Proof.
  unfold GoStrings.HasSuffix. rewrite andb_true_iff, Z.leb_le, eqb_bool_decide,
    bool_decide_eq_true. split.
  - intros [_ Hs]. remember (String.length s - String.length suffix)%nat as k.
    exists (stake k s). rewrite <- Hs. by rewrite stake_sdrop.
  - intros [base ->]. unfold len. rewrite length_sapp. split; [lia|].
    replace (String.length base + String.length suffix - String.length suffix)%nat
      with (String.length base) by lia.
    apply sdrop_app.
Qed.

Lemma Walk_go_ok (visits : list visit) (l : list string) :
  Forall (λ x, visit_err x = None) visits →
  Walk_go visits l = (l ++ (visit_path <$> filter (λ x, is_template x = true) visits), None).
Proof.
  intros Hall. revert l. induction Hall as [|x visits Hx _ IH]; intros l.
  - by rewrite app_nil_r.
  - cbn [Walk_go]. unfold collect_visit. rewrite Hx. rewrite filter_cons.
    fold (is_template x). destruct (is_template x).
    + rewrite decide_True by done. rewrite IH, fmap_cons, <- app_assoc. done.
    + rewrite decide_False by done. apply IH.
Qed.

Lemma Walk_go_error (pre post : list visit) (x : visit) (err : error) (l : list string) :
  Forall (λ y, visit_err y = None) pre → visit_err x = Some err →
  (Walk_go (pre ++ x :: post) l).2 = Some err.
Proof.
  intros Hall Hx. revert l. induction Hall as [|y pre Hy _ IH]; intros l.
  - cbn [app Walk_go]. unfold collect_visit. by rewrite Hx.
  - cbn [app Walk_go]. unfold collect_visit. rewrite Hy.
    destruct (_ && _); apply IH.
Qed.

Lemma Forall_or_first {A} (P : A → Prop) (l : list A) :
  (∀ x, P x ∨ ¬ P x) →
  Forall P l ∨ ∃ pre x post, l = pre ++ x :: post ∧ Forall P pre ∧ ¬ P x.
Proof.
  intros Hdec. induction l as [|y l [IH|(pre & x & post & -> & Hpre & Hx)]].
  - left. constructor.
  - destruct (Hdec y) as [Hy|Hy].
    + left. by constructor.
    + right. exists [], y, l. by split_and!.
  - destruct (Hdec y) as [Hy|Hy].
    + right. exists (y :: pre), x, post. split_and!; [done|by constructor|done].
    + right. exists [], y, (pre ++ x :: post). by split_and!.
Qed.

Section Collect.
Context (filepath_Walk : string → list visit).

(** X18. [collectTomatoFiles] returns the paths of the entries of the
    walk that are no directories and whose name ends in [.htmto], in
    the order of the walk, when the walk meets no error; the first
    error of the walk, on whatever entry, is returned in place of the
    list. *)
Theorem collectTomatoFiles_collects (root : string) :
  (∀ x, is_template x = true ↔
        visit_isDir x = false ∧ ∃ base, visit_name x = base +:+ ".htmto") ∧
  (∀ files, collectTomatoFiles filepath_Walk root = inr files ↔
     Forall (λ x, visit_err x = None) (filepath_Walk root) ∧
     files = visit_path <$> filter (λ x, is_template x = true) (filepath_Walk root)) ∧
  (∀ pre x post err,
     filepath_Walk root = pre ++ x :: post →
     Forall (λ y, visit_err y = None) pre → visit_err x = Some err →
     collectTomatoFiles filepath_Walk root = inl err).
Proof.
  split_and!.
  - intros x. unfold is_template. rewrite andb_true_iff, negb_true_iff, HasSuffix_iff. done.
  - intros files. unfold collectTomatoFiles.
    destruct (Forall_or_first (λ x, visit_err x = None) (filepath_Walk root))
      as [Hall|(pre & x & post & Heq & Hpre & Hx)].
    { intros x. destruct (visit_err x); [by right|by left]. }
    + rewrite (Walk_go_ok _ [] Hall). cbn [app]. split.
      * by intros [= <-].
      * by intros [_ ->].
    + destruct (visit_err x) as [err|] eqn:Hxe; [|done].
      pose proof (Walk_go_error pre post x err [] Hpre Hxe) as Hw. rewrite <- Heq in Hw.
      destruct (Walk_go _ _) as [l r]. cbn [snd] in Hw. subst r. split; [done|].
      intros [Hall _]. rewrite Heq in Hall. apply Forall_app in Hall as [_ Hall].
      apply Forall_cons in Hall as [Hall _]. congruence.
  - intros pre x post err Heq Hpre Hx. unfold collectTomatoFiles.
    pose proof (Walk_go_error pre post x err [] Hpre Hx) as Hw. rewrite <- Heq in Hw.
    destruct (Walk_go _ _) as [l r]. cbn [snd] in Hw. by subst r.
Qed.

End Collect.

(** X19. The command hands [MakeTomatoGenerator] no language that it
    refuses: [getLanguage] panics on every name but [ts], and for [ts]
    the generator is made. *)
Theorem getLanguage_supported (language : string) (opts : GeneratorOptions) :
  (getLanguage language = Panic ↔ language ≠ "ts") ∧
  (∀ l, getLanguage language = Ok l → language = "ts" ∧ MakeTomatoGenerator l opts = inr opts) ∧
  (∀ l, l ≠ TypeScript → MakeTomatoGenerator l opts = inl "Language not supported").
Proof.
  unfold getLanguage, MakeTomatoGenerator. rewrite eqb_bool_decide. split_and!.
  - case_bool_decide; cbn [negb]; split; try done; try (intros; congruence).
  - intros l. case_bool_decide; cbn [negb]; [|done]. by intros [= <-].
  - intros l Hl. by rewrite (proj2 (Z.eqb_neq l TypeScript)).
Qed.

Section Views.
Context `{!Platform}.
Context (filepath_Walk : string → list visit).
Context (filepath_Dir : string → string).
Context (range_keys : gmap string View → list string).

Lemma GenerateViews_go_ok (opts : GeneratorOptions) (fdi : bool) (files : list string) :
  ∀ views,
    Forall (λ f, ∃ u, generateView opts f fdi = Ok u) files →
    ∃ views', GenerateViews_go opts files fdi views = Ok views' ∧
      ∀ f, (f ∈ files →
              ∃ view css, generateView opts f fdi = Ok (view, css) ∧
                          views' !! f = Some (MkView view css)) ∧
           (f ∉ files → views' !! f = views !! f).
Proof.
  induction files as [|g files IH]; intros views Hall.
  - exists views. split; [done|]. intros f. split; [by intros ?%elem_of_nil|done].
  - apply Forall_cons in Hall as [[[view css] Hg] Hall]. cbn [GenerateViews_go].
    rewrite Hg. destruct (IH (<[g := MkView view css]> views) Hall) as (views' & -> & Hv).
    exists views'. split; [done|]. intros f. split.
    + intros Hf. destruct (decide (f ∈ files)) as [Hin|Hin]; [by apply Hv|].
      apply elem_of_cons in Hf as [->|Hf]; [|done].
      exists view, css. split; [done|].
      rewrite (proj2 (Hv g)) by done. apply lookup_insert_eq.
    + intros Hf. apply not_elem_of_cons in Hf as [Hne Hf].
      rewrite (proj2 (Hv f)) by done. by apply lookup_insert_ne.
Qed.

Lemma GenerateViews_go_fails (opts : GeneratorOptions) (fdi : bool)
    (pre post : list string) (f : string) :
  Forall (λ g, ∃ u, generateView opts g fdi = Ok u) pre →
  (∀ u, generateView opts f fdi ≠ Ok u) →
  ∀ views,
    GenerateViews_go opts (pre ++ f :: post) fdi views =
      match generateView opts f fdi with
      | Ok _ => Ok views
      | Err err => Err err
      | Panic => Panic
      end.
Proof.
  intros Hpre Hf. induction Hpre as [|g pre [[view css] Hg] _ IH]; intros views.
  - cbn [app GenerateViews_go].
    destruct (generateView opts f fdi) as [[view css]| |]; [|done..]. by destruct (Hf (view, css)).
  - cbn [app GenerateViews_go]. rewrite Hg, IH.
    destruct (generateView opts f fdi) as [u| |]; [|done..]. by destruct (Hf u).
Qed.

Lemma GenerateViews_ok_all (opts : GeneratorOptions) (files : list string) (fdi : bool)
    (views : gmap string View) :
  GenerateViews opts files fdi = Ok views →
  ∀ f, f ∈ files → ∃ u, generateView opts f fdi = Ok u.
Proof.
  intros Hv f Hf.
  destruct (Forall_or_first (λ g, ∃ u, generateView opts g fdi = Ok u) files)
    as [Hall|(pre & g & post & -> & Hpre & Hg)].
  { intros g. destruct (generateView opts g fdi) as [u| |].
    - left. by exists u.
    - right. by intros [? ?].
    - right. by intros [? ?]. }
  - rewrite Forall_forall in Hall. by apply Hall.
  - unfold GenerateViews in Hv. rewrite GenerateViews_go_fails in Hv; [|done|].
    + destruct (generateView opts g fdi) as [u| |]; [|done..]. destruct Hg. by exists u.
    + intros u Hu. apply Hg. by exists u.
Qed.

(** X20. [GenerateViews] compiles the files in the order of the list
    and stops at the first one that fails, with its error and no map;
    when every file compiles, the map holds the unit of each file under
    its path and nothing else. *)
Theorem GenerateViews_all_or_first_error (opts : GeneratorOptions) (files : list string)
    (fdi : bool) :
  ((∀ f, f ∈ files → ∃ u, generateView opts f fdi = Ok u) →
     ∃ views, GenerateViews opts files fdi = Ok views ∧
       ∀ f, (f ∈ files →
               ∃ view css, generateView opts f fdi = Ok (view, css) ∧
                           views !! f = Some (MkView view css)) ∧
            (f ∉ files → views !! f = None)) ∧
  (∀ pre f post err,
     files = pre ++ f :: post →
     (∀ g, g ∈ pre → ∃ u, generateView opts g fdi = Ok u) →
     generateView opts f fdi = Err err →
     GenerateViews opts files fdi = Err err) ∧
  (∀ views, GenerateViews opts files fdi = Ok views →
     ∀ f, f ∈ files → ∃ u, generateView opts f fdi = Ok u).
Proof.
  split_and!.
  - intros Hall. apply Forall_forall in Hall.
    destruct (GenerateViews_go_ok opts fdi files ∅ Hall) as (views & Hv & Hl).
    exists views. split; [done|]. intros f. split; [apply Hl|].
    intros Hf. by rewrite (proj2 (Hl f)).
  - intros pre f post err -> Hpre Hf. unfold GenerateViews.
    rewrite GenerateViews_go_fails; [by rewrite Hf|by apply Forall_forall|].
    intros u. by rewrite Hf.
  - apply GenerateViews_ok_all.
Qed.

(** X21. [GenerateTomatoes] writes nothing unless the walk succeeds,
    the language is TypeScript and every template compiles: whenever it
    leaves a file system other than the one it found, all of these hold,
    and what it did is the run of [writeTomatoOutput] on the units. A
    language that is not supported is reported only after the walk. *)
Theorem GenerateTomatoes_all_or_nothing (viewDir outFile : string) (language : Language)
    (opts : GeneratorOptions) (fdi : bool) (fs : FileSystem) :
  (∀ fs' r,
     GenerateTomatoes filepath_Walk filepath_Dir range_keys viewDir outFile language opts
       fdi fs = (fs', r) →
     fs' ≠ fs →
     ∃ files views,
       collectTomatoFiles filepath_Walk viewDir = inr files ∧
       language = TypeScript ∧
       GenerateViews opts files fdi = Ok views ∧
       (∀ f, f ∈ files → ∃ u, generateView opts f fdi = Ok u) ∧
       writeTomatoOutput filepath_Dir (range_keys views) outFile views opts fs = (fs', r)) ∧
  (∀ files, collectTomatoFiles filepath_Walk viewDir = inr files →
     language ≠ TypeScript →
     GenerateTomatoes filepath_Walk filepath_Dir range_keys viewDir outFile language opts
       fdi fs = (fs, Err "Language not supported")) ∧
  (∀ err, collectTomatoFiles filepath_Walk viewDir = inl err →
     GenerateTomatoes filepath_Walk filepath_Dir range_keys viewDir outFile language opts
       fdi fs = (fs, Err err)).
Proof.
  unfold GenerateTomatoes, MakeTomatoGenerator. split_and!.
  - intros fs' r. destruct (collectTomatoFiles _ _) as [err|files]; [by intros [= <- _]|].
    destruct (Z.eqb_spec language TypeScript) as [->|Hl]; [|by intros [= <- _]].
    destruct (GenerateViews opts files fdi) as [views| |] eqn:Hv;
      [|by intros [= <- _]..].
    intros Hw Hne. exists files, views. split_and!; try done.
    by apply (GenerateViews_ok_all opts files fdi views).
  - intros files -> Hl. by rewrite (proj2 (Z.eqb_neq language TypeScript)).
  - by intros err ->.
Qed.

End Views.

(** ** The style block and the unwrapped root *)

Lemma Index_from_absent (j j' : Z) (t pat : string) :
  0 ≤ j → 0 ≤ j' → GoStrings.Index_from j t pat = -1 → GoStrings.Index_from j' t pat = -1.
Proof.
  revert j j'. induction t as [|x t IH]; intros j j' Hj Hj'; cbn [GoStrings.Index_from];
    destruct (GoStrings.HasPrefix _ pat); try done; try lia.
  apply IH; lia.
Qed.

Lemma Index_from_skip (j : Z) (x c : ascii) (t pat : string) :
  x ≠ c → GoStrings.Index_from j (String x t) (String c pat) =
          GoStrings.Index_from (j + 1) t (String c pat).
Proof. intros Hx. cbn [GoStrings.Index_from]. by rewrite HasPrefix_other. Qed.

Lemma HasPrefix_same (c : ascii) (s pat : string) :
  GoStrings.HasPrefix (String c s) (String c pat) = GoStrings.HasPrefix s pat.
Proof.
  unfold GoStrings.HasPrefix; simpl. by destruct (ascii_dec c c).
Qed.

Lemma HasPrefix_empty (s : string) : GoStrings.HasPrefix s "" = true.
Proof. by destruct s. Qed.

(** Where the pattern does not occur, the scan for its last occurrence
    keeps what it has. *)
Lemma LastIndex_from_none (i acc j : Z) (t pat : string) :
  0 ≤ j → GoStrings.Index_from j t pat = -1 → GoStrings.LastIndex_from i acc t pat = acc.
Proof.
  revert i acc j. induction t as [|x t IH]; intros i acc j Hj;
    cbn [GoStrings.Index_from GoStrings.LastIndex_from];
    destruct (GoStrings.HasPrefix _ pat); try done; try lia.
  apply IH. lia.
Qed.

(** The last occurrence of the pattern is the one after which it does
    not occur again. *)
Lemma LastIndex_from_found (i acc : Z) (a : string) (x : ascii) (t pat : string) :
  GoStrings.HasPrefix (String x t) pat = true →
  GoStrings.Index_from 0 t pat = -1 →
  GoStrings.LastIndex_from i acc (a +:+ String x t) pat = i + len a.
Proof.
  intros Hp Hn. revert i acc. induction a as [|y a IH]; intros i acc.
  - change ("" +:+ String x t) with (String x t).
    cbn [GoStrings.LastIndex_from]. rewrite Hp.
    rewrite (LastIndex_from_none (i + 1) i 0 t pat) by done. unfold len. simpl. lia.
  - rewrite sapp_cons. cbn [GoStrings.LastIndex_from]. rewrite IH.
    unfold len. simpl. lia.
Qed.

(** X22. A file text of the form markup, [<style>], style text,
    [</style>] and a rest, in which [<style>] does not occur again after
    the opening and [</style>] does not occur in the rest, is split into
    the style text and the markup; the rest after the closing delimiter
    is dropped. *)
Theorem slurpCss_round_trip (markup css post : string) :
  GoStrings.Index (css +:+ "</style>" +:+ post) "<style>" = -1 →
  GoStrings.Index post "</style>" = -1 →
  slurpCss (markup +:+ "<style>" +:+ css +:+ "</style>" +:+ post) = Ok (Some css, markup).
Proof.
  intros Hopen Hclose. unfold GoStrings.Index in *.
  set (R := css +:+ "</style>" +:+ post) in *.
  set (text := markup +:+ "<style>" +:+ R).
  assert (Hstart : GoStrings.LastIndex text "<style>" = len markup).
  { unfold GoStrings.LastIndex, text.
    change ("<style>" +:+ R)
      with (String "<" (String "s" (String "t" (String "y" (String "l" (String "e"
              (String ">" R))))))).
    rewrite LastIndex_from_found; [lia| |].
    - by rewrite !HasPrefix_same, HasPrefix_empty.
    - rewrite !Index_from_skip by done. by apply (Index_from_absent 0). }
  assert (Hend : GoStrings.LastIndex text "</style>" = len markup + 7 + len css).
  { unfold GoStrings.LastIndex, text, R.
    replace (markup +:+ "<style>" +:+ css +:+ "</style>" +:+ post)
      with ((markup +:+ "<style>" +:+ css) +:+
            String "<" (String "/" (String "s" (String "t" (String "y" (String "l"
              (String "e" (String ">" post))))))))
      by by rewrite !sapp_assoc.
    rewrite LastIndex_from_found.
    - unfold len. rewrite !length_sapp. simpl. lia.
    - by rewrite !HasPrefix_same, HasPrefix_empty.
    - rewrite !Index_from_skip by done. by apply (Index_from_absent 0). }
  destruct (slurpCss_cases text) as (_ & Hcut & _). cbn zeta in Hcut.
  rewrite Hstart, Hend in Hcut. rewrite Hcut by (unfold len; lia).
  f_equal. f_equal.
  - f_equal. replace (Z.to_nat (len markup + 7)) with (String.length (markup +:+ "<style>"))
      by (rewrite length_sapp; unfold len; simpl; lia).
    replace (Z.to_nat (len markup + 7 + len css - (len markup + 7)))
      with (String.length css) by (unfold len; lia).
    unfold text. rewrite <- sapp_assoc, sdrop_app. unfold R. apply stake_app.
  - replace (Z.to_nat (len markup)) with (String.length markup) by (unfold len; lia).
    apply stake_app.
Qed.

Lemma strip_go_unwraps (r : Node) (attrs : list Attribute) :
  (∃ a, a ∈ attrs ∧ Key a = "_stripme") →
  strip_go r attrs =
    let c := firstNonWhiteSpaceChild r in
    if String.eqb (Data c) "tbody" then firstNonWhiteSpaceChild c else c.
Proof.
  intros (a & Ha & Hk). induction attrs as [|b attrs IH]; [by apply elem_of_nil in Ha|].
  cbn [strip_go]. unfold StripMeAttr. rewrite eqb_bool_decide. case_bool_decide as Hb; [done|].
  apply IH. apply elem_of_cons in Ha as [->|Ha]; [done|done].
Qed.

Section Strip.
Context `{!Platform}.

(** X23. What [strip] makes of a root that carries the unwrap marker.
    It is replaced by its first element child, and by the first element
    child of that when it is named [tbody]. Where there is no element
    child the node stays: a marked root without one is compiled itself,
    and the marker is then set as an attribute of the view; a table
    body without one becomes the root. [strip] returns [nil] for [nil]
    only. *)
Theorem strip_marked_root (r : Node) :
  (∃ a, a ∈ Attr r ∧ Key a = "_stripme") →
  (∃ root, strip (Some r) = Some root) ∧
  (firstElement (Children r) = None → Data r ≠ "tbody" →
     strip (Some r) = Some r ∧
     ∀ a, a ∈ Attr r → Key a = "_stripme" → Namespace a = "" →
          ("_stripme", Val a) ∈ transferred r) ∧
  (∀ c, firstElement (Children r) = Some c → Data c ≠ "tbody" →
     strip (Some r) = Some c) ∧
  (∀ c row, firstElement (Children r) = Some c → Data c = "tbody" →
     firstElement (Children c) = Some row → strip (Some r) = Some row) ∧
  (∀ c, firstElement (Children r) = Some c → Data c = "tbody" →
     firstElement (Children c) = None → strip (Some r) = Some c).
Proof.
  intros Hm. cbn [strip]. rewrite (strip_go_unwraps r (Attr r) Hm). cbn zeta.
  unfold firstNonWhiteSpaceChild. split_and!.
  - by eexists.
  - intros -> Hd. rewrite eqb_bool_decide, bool_decide_eq_false_2 by done.
    split; [done|]. intros a Ha Hk Hn. unfold transferred.
    apply list_elem_of_fmap. exists a. split.
    + unfold emitted_key. rewrite Hk, Hn. cbn zeta. by repeat case_decide.
    + apply list_elem_of_filter. split; [|done]. unfold kept. rewrite Hk.
      rewrite bool_decide_eq_false_2 by (intros [?|?]; done).
      rewrite (bool_decide_eq_false_2 ("_stripme" = "src")) by done.
      by rewrite andb_false_r.
  - intros c -> Hd. by rewrite eqb_bool_decide, bool_decide_eq_false_2.
  - intros c row -> Hd Hrow. by rewrite eqb_bool_decide, bool_decide_eq_true_2, Hrow.
  - intros c -> Hd Hnone. by rewrite eqb_bool_decide, bool_decide_eq_true_2, Hnone.
Qed.

End Strip.

Section Layout.
Context `{!Platform}.

(** ** The text of a class and of an element *)

(** X24. The text of a view: after what the output holds already, the
    header of the class, one line for each queued field declaration,
    followed by one empty line when there is any, the constructor with
    the construction buffer as its body, and the closing brace. *)
Theorem generateView_of_layout (v : visitorData) :
  generateView_of v =
    output v +:+ nl +:+ "export class " +:+ viewName v +:+ " extends " +:+
    ViewBaseClass (options v) +:+ " {" +:+
    sconcat ((λ d, nl +:+ "  " +:+ d +:+ ";") <$> refs v) +:+
    (if decide (refs v = []) then "" else nl) +:+
    nl +:+ "  constructor(doc: Document = document) {" +:+
    domConstruction v +:+ ";" +:+ nl +:+ "  }" +:+ nl +:+ "}" +:+ nl.
Proof.
  unfold generateView_of, getView, emitPostamble, emitDomConstruction,
    emitElementRefs, emitPreamble.
  rewrite emitElementRefs_go_text. state_fields. unfold decls_text.
  rewrite !sapp_assoc. do 7 f_equal. by destruct (refs v).
Qed.

Lemma tree_pieces_text (v : visitorData) (k : Node) (depth : nat) :
  Type_ k = TextNode → Children k = [] →
  pieces_text (tree_pieces v k depth) = appendText_call k ∧ accepted k depth = true.
Proof.
  intros Ht Hc. rewrite tree_pieces_unfold, accepted_unfold, Hc.
  unfold reference, nested, head_pieces. rewrite Ht.
  rewrite bool_decide_eq_false_2 by done. cbn [andb flat_map app forallb].
  split; [|done]. unfold pieces_text, text_call, appendText_call.
  cbn [fmap list_fmap sconcat foldr piece_text]. rewrite sapp_nil_r.
  rewrite eqb_bool_decide, escapeText_escape_quotes, Replace_newlines.
  case_decide as Hd; [by rewrite bool_decide_eq_true_2|by rewrite bool_decide_eq_false_2].
Qed.

(** X25. An element below the root that is no reference and has text
    children only is one complete append call: the factory call, the
    attributes, one [appendText] for each text that is not blank, and
    the closing parenthesis. The stack and the flag are as before. *)
Theorem traverse_element_with_texts (d : string) (a : list Attribute) (kids : list Node)
    (p : ptr) (depth : nat) (v : visitorData) :
  ToLower d ≠ "tomato" →
  Forall (λ k, Type_ k = TextNode ∧ Children k = []) kids →
  ignoreSubtree v = false → fresh p (appendStack v) →
  ∃ v', traverse (MkNode ElementNode d a kids) p (S depth) v = (v', None) ∧
    domConstruction v' =
      domConstruction v +:+ indent (S depth) +:+ ".append(" +:+
      (if String.eqb (getAttr_go a "_ref") "" then ""
       else "this." +:+ getAttr_go a "_ref" +:+ " = ") +:+
      ViewFactory (options v) +:+ "('" +:+ ToLower d +:+ "', doc)" +:+
      sconcat (setAttr_call <$> transferred (MkNode ElementNode d a kids)) +:+
      sconcat (appendText_call <$> kids) +:+ ")" ∧
    appendStack v' = appendStack v ∧ ignoreSubtree v' = false.
Proof.
  intros Htag Hkids Hi Hf. set (n := MkNode ElementNode d a kids).
  assert (Ht : is_tomato n = false).
  { unfold is_tomato, n. cbn [Data]. by rewrite eqb_bool_decide, bool_decide_eq_false_2. }
  assert (Hn : nested n (S depth) = true) by done.
  assert (Hacc : accepted n (S depth) = true).
  { rewrite accepted_unfold. unfold reference. rewrite Ht, andb_false_r.
    apply forallb_forall. intros k Hk%list_elem_of_In.
    rewrite Forall_forall in Hkids. destruct (Hkids k Hk) as [Hty Hc].
    by apply tree_pieces_text. }
  destruct (traverse_grown n p (S depth) v Hi Hf) as [Hok _].
  exists (grown v n (S depth)). split; [by apply Hok|].
  unfold grown. state_fields. split; [|done].
  rewrite tree_pieces_unfold. unfold reference. rewrite Ht, Hn, andb_false_r.
  rewrite !pieces_text_app. f_equal.
  assert (Hk : pieces_text (flat_map (λ c, tree_pieces v c (S (S depth))) kids)
               = sconcat (appendText_call <$> kids)).
  { clear -Hkids. induction Hkids as [|k kids [Hty Hc] _ IH]; [done|].
    cbn [flat_map fmap list_fmap sconcat foldr]. rewrite pieces_text_app, IH.
    by rewrite (proj1 (tree_pieces_text v k _ Hty Hc)). }
  change (Children n) with kids. rewrite Hk.
  unfold head_pieces, marked, marker, construct_text, attrs_text, FieldRefAttr, getAttr.
  cbn [Type_ Attr Data n]. fold n. rewrite Ht.
  destruct (String.eqb (getAttr_go a "_ref") ""); cbn [negb app];
    unfold pieces_text; cbn [fmap list_fmap sconcat foldr piece_text];
    by rewrite ?sapp_nil_r, ?sapp_assoc.
Qed.

End Layout.

Lemma indexOf_from_absent (i : Z) (l : list JS.jsstring) (x : JS.jsstring) :
  x ∉ l → JS.indexOf_from i l x = -1.
Proof.
  revert i. induction l as [|y l IH]; intros i Hx; [done|].
  apply not_elem_of_cons in Hx as [Hne Hx]. cbn [JS.indexOf_from].
  rewrite decide_False by done. by apply IH.
Qed.

Lemma indexOf_from_first (i : Z) (l1 l2 : list JS.jsstring) (x : JS.jsstring) :
  x ∉ l1 → JS.indexOf_from i (l1 ++ x :: l2) x = i + Z.of_nat (length l1).
Proof.
  revert i. induction l1 as [|y l1 IH]; intros i Hx; cbn [app JS.indexOf_from length].
  - rewrite decide_True by done. lia.
  - apply not_elem_of_cons in Hx as [Hne Hx]. rewrite decide_False by done.
    rewrite IH by done. lia.
Qed.

Lemma indexOf_found (l : list JS.jsstring) (x : JS.jsstring) :
  x ∈ l → (JS.indexOf l x =? -1) = false.
Proof.
  intros Hx. apply list_elem_of_split_l in Hx as (l1 & l2 & -> & Hl1).
  unfold JS.indexOf. rewrite indexOf_from_first by done. apply Z.eqb_neq. lia.
Qed.

Lemma indexOf_absent (l : list JS.jsstring) (x : JS.jsstring) :
  x ∉ l → (JS.indexOf l x =? -1) = true.
Proof. intros Hx. unfold JS.indexOf. by rewrite indexOf_from_absent. Qed.

Lemma split_go_cons (s cur : JS.jsstring) : ∃ t l, JS.split_go s cur = t :: l.
Proof.
  revert cur. induction s as [|x s IH]; intros cur; cbn [JS.split_go]; [by eexists _, _|].
  destruct (x =? 32)%N; [by eexists _, _|apply IH].
Qed.

Lemma join_cons (sep x : JS.jsstring) (y : JS.jsstring) (l : list JS.jsstring) :
  JS.join sep (x :: y :: l) = x ++ sep ++ JS.join sep (y :: l).
Proof. done. Qed.

(** Joining the pieces of a split gives the string back. *)
Lemma join_split_go (s cur : JS.jsstring) : JS.join JS.space (JS.split_go s cur) = cur ++ s.
Proof.
  revert cur. induction s as [|x s IH]; intros cur; cbn [JS.split_go].
  - by rewrite app_nil_r.
  - destruct (N.eqb_spec x 32) as [->|Hx].
    + destruct (split_go_cons s []) as (t & l & Hs). rewrite Hs, join_cons, <- Hs, IH. done.
    + rewrite IH, <- app_assoc. done.
Qed.

Lemma split_go_spaceless (s cur : JS.jsstring) :
  spaceless cur → Forall spaceless (JS.split_go s cur).
Proof.
  revert cur. induction s as [|x s IH]; intros cur Hc; cbn [JS.split_go].
  - by repeat constructor.
  - destruct (N.eqb_spec x 32) as [->|Hx].
    + constructor; [done|]. apply IH. constructor.
    + apply IH. apply Forall_app. split; [done|]. by repeat constructor.
Qed.

Lemma split_go_app (t s cur : JS.jsstring) :
  spaceless t → JS.split_go (t ++ s) cur = JS.split_go s (cur ++ t).
Proof.
  intros Ht. revert cur. induction Ht as [|x t Hx _ IH]; intros cur.
  - by rewrite app_nil_r.
  - cbn [app JS.split_go]. rewrite (proj2 (N.eqb_neq x 32)) by done.
    rewrite IH, <- app_assoc. done.
Qed.

Lemma split_go_piece (t cur : JS.jsstring) :
  spaceless t → JS.split_go t cur = [cur ++ t].
Proof.
  intros Ht. rewrite <- (app_nil_r t) at 1. by rewrite split_go_app.
Qed.

(** Splitting what a join of pieces without spaces gives finds the
    pieces again. *)
Lemma split_join (l : list JS.jsstring) :
  Forall spaceless l → l ≠ [] → JS.split (JS.join JS.space l) = l.
Proof.
  unfold JS.split. induction 1 as [|x l Hx Hl IH]; [done|]. intros _.
  destruct l as [|y l].
  - cbn [JS.join]. by rewrite split_go_piece.
  - rewrite join_cons, split_go_app by done. cbn [app JS.space JS.split_go N.eqb Pos.eqb].
    by rewrite IH.
Qed.

Lemma split_go_space (s t cur : JS.jsstring) :
  JS.split_go (s ++ JS.space ++ t) cur = JS.split_go s cur ++ JS.split t.
Proof.
  revert cur. induction s as [|x s IH]; intros cur; cbn [app JS.space JS.split_go].
  - done.
  - destruct (x =? 32)%N; by rewrite IH.
Qed.

Lemma join_not_empty (sep x : JS.jsstring) (l : list JS.jsstring) :
  x ∈ l → x ≠ [] → JS.join sep l ≠ [].
Proof.
  induction l as [|y l IH]; [by intros ?%elem_of_nil|].
  intros Hx Hne. destruct l as [|z l].
  - apply list_elem_of_singleton in Hx as ->. done.
  - rewrite join_cons. apply elem_of_cons in Hx as [->|Hx].
    + by destruct y.
    + intros Heq. apply app_eq_nil in Heq as [_ Heq]. apply app_eq_nil in Heq as [_ Heq].
      by apply IH.
Qed.

Lemma Element_eta (e : JS.Element) : JS.MkElement (JS.classList e) (JS.className e) = e.
Proof. by destruct e. Qed.

Section ClassNames.
Context (classList_contains : JS.jsstring → JS.jsstring → bool).
Context (classList_add classList_remove : JS.jsstring → list JS.jsstring → JS.jsstring).
Context (classList_toggle : JS.jsstring → JS.jsstring → JS.jsstring).

Lemma hasClass_tokens (e : JS.Element) (c : JS.jsstring) :
  JS.classList e = false → JS.className e ≠ [] →
  JS.hasClass classList_contains e c = bool_decide (c ∈ JS.split (JS.className e)).
Proof.
  intros Hl Hn. unfold JS.hasClass. rewrite Hl, decide_False by done.
  case_bool_decide as Hc; [by rewrite indexOf_found|by rewrite indexOf_absent].
Qed.

Lemma hasClass_joined (b : bool) (l : list JS.jsstring) (c : JS.jsstring) :
  Forall spaceless l →
  (c ∉ l → JS.hasClass classList_contains (JS.MkElement false (JS.join JS.space l)) c = false) ∧
  (c ∈ l → c ≠ [] → JS.hasClass classList_contains (JS.MkElement false (JS.join JS.space l)) c = true).
Proof.
  intros Hl. unfold JS.hasClass. cbn [JS.classList JS.className]. split.
  - intros Hc. case_decide as Hj; [done|].
    rewrite split_join; [by rewrite indexOf_absent|done|].
    intros ->. by apply Hj.
  - intros Hc Hne. rewrite decide_False by by apply (join_not_empty _ c).
    rewrite split_join; [by rewrite indexOf_found|done|].
    intros ->. by apply elem_of_nil in Hc.
Qed.

Lemma removeClass_cases (e : JS.Element) (c : JS.jsstring) :
  JS.classList e = false → JS.className e ≠ [] →
  (c ∉ JS.split (JS.className e) → JS.removeClass classList_remove e [c] = e) ∧
  (∀ l1 l2, JS.split (JS.className e) = l1 ++ c :: l2 → c ∉ l1 →
     JS.className (JS.removeClass classList_remove e [c]) = JS.join JS.space (l1 ++ l2) ∧
     (c ∉ l2 → JS.hasClass classList_contains (JS.removeClass classList_remove e [c]) c = false) ∧
     (c ∈ l2 → c ≠ [] → JS.hasClass classList_contains (JS.removeClass classList_remove e [c]) c = true)).
Proof.
  intros Hl Hn. unfold JS.removeClass. rewrite Hl, decide_False by done.
  cbn [JS.removeClass_go]. split.
  - intros Hc. rewrite indexOf_absent by done. unfold JS.split, JS.setClass.
    rewrite join_split_go. cbn [app]. apply Element_eta.
  - intros l1 l2 Hs Hc. rewrite Hs, indexOf_found by (apply elem_of_app; right; by left).
    unfold JS.indexOf. rewrite indexOf_from_first by done.
    replace (Z.to_nat (0 + Z.of_nat (length l1))) with (length l1) by lia.
    rewrite delete_middle. unfold JS.setClass. rewrite Hl. cbn [JS.className].
    assert (Hsp : Forall spaceless (l1 ++ l2)).
    { assert (Hall : Forall spaceless (JS.split_go (JS.className e) []))
        by (apply split_go_spaceless; constructor).
      fold (JS.split (JS.className e)) in Hall. rewrite Hs in Hall.
      apply Forall_app in Hall as [H1 H2]. apply Forall_cons in H2 as [_ H2].
      by apply Forall_app. }
    destruct (hasClass_joined false (l1 ++ l2) c Hsp) as [Hno Hyes]. split_and!.
    + done.
    + intros Hc2. apply Hno. rewrite elem_of_app. by intros [?|?].
    + intros Hc2 Hne. apply Hyes; [|done]. apply elem_of_app. by right.
Qed.

(** X26. Without [classList], [removeClass] with one class takes the
    first occurrence of the class out of the class names and leaves the
    others: an element that has the class once does not have it
    afterwards, one that has it twice still has it, and one that does
    not have it is left as it is. *)
Theorem removeClass_first_occurrence (e : JS.Element) (c : JS.jsstring) :
  JS.classList e = false → JS.className e ≠ [] →
  (c ∉ JS.split (JS.className e) → JS.removeClass classList_remove e [c] = e) ∧
  (∀ l1 l2, JS.split (JS.className e) = l1 ++ c :: l2 → c ∉ l1 →
     JS.className (JS.removeClass classList_remove e [c]) = JS.join JS.space (l1 ++ l2) ∧
     (c ∉ l2 → JS.hasClass classList_contains (JS.removeClass classList_remove e [c]) c = false) ∧
     (c ∈ l2 → c ≠ [] → JS.hasClass classList_contains (JS.removeClass classList_remove e [c]) c = true)).
Proof. apply removeClass_cases. Qed.

Lemma addClass_cases (e : JS.Element) (c : JS.jsstring) :
  JS.classList e = false → spaceless c → c ≠ [] →
  JS.hasClass classList_contains (JS.addClass classList_add e [c]) c = true ∧
  (JS.hasClass classList_contains e c = true → JS.addClass classList_add e [c] = e) ∧
  (JS.hasClass classList_contains e c = false → JS.className e ≠ [] →
     JS.className (JS.addClass classList_add e [c]) = JS.className e ++ JS.space ++ c) ∧
  (JS.className e = [] → JS.className (JS.addClass classList_add e [c]) = c).
Proof.
  intros Hl Hsp Hne.
  assert (Hsc : JS.split c = [c]).
  { unfold JS.split. by rewrite split_go_piece. }
  destruct (decide (JS.className e = [])) as [Hn|Hn].
  - unfold JS.addClass at 1 3 4. rewrite Hl, !decide_True by done.
    unfold JS.setClass. rewrite Hl. cbn [JS.join JS.className]. split_and!; try done.
    + unfold JS.hasClass. cbn [JS.classList JS.className].
      rewrite decide_False by done. rewrite Hsc, indexOf_found; [done|by left].
    + unfold JS.hasClass. by rewrite Hl, decide_True.
  - unfold JS.addClass. rewrite Hl, !decide_False by done. cbn [JS.addClass_go JS.join].
    rewrite (hasClass_tokens e c Hl Hn).
    case_bool_decide as Hc.
    + rewrite indexOf_found by done. split_and!; try done.
      by rewrite (hasClass_tokens e c Hl Hn), bool_decide_eq_true_2.
    + rewrite indexOf_absent by done. unfold JS.setClass. rewrite Hl.
      cbn [JS.className]. split_and!; try done.
      unfold JS.hasClass. cbn [JS.classList JS.className].
      rewrite decide_False by (by destruct (JS.className e)).
      unfold JS.split. rewrite split_go_space, Hsc, indexOf_found; [done|].
      apply elem_of_app. right. by left.
Qed.

(** X27. Without [classList], [addClass] with one class that has no
    space in it and is not empty makes the element have the class: an
    element that has it already is left as it is, and otherwise the
    class is put at the end of the class names, after a space when
    there are any. *)
Theorem addClass_one (e : JS.Element) (c : JS.jsstring) :
  JS.classList e = false → spaceless c → c ≠ [] →
  JS.hasClass classList_contains (JS.addClass classList_add e [c]) c = true ∧
  (JS.hasClass classList_contains e c = true → JS.addClass classList_add e [c] = e) ∧
  (JS.hasClass classList_contains e c = false → JS.className e ≠ [] →
     JS.className (JS.addClass classList_add e [c]) = JS.className e ++ JS.space ++ c) ∧
  (JS.className e = [] → JS.className (JS.addClass classList_add e [c]) = c).
Proof. apply addClass_cases. Qed.

Lemma removeClass_gone (e : JS.Element) (c : JS.jsstring) :
  JS.classList e = false → NoDup (JS.split (JS.className e)) →
  JS.hasClass classList_contains (JS.removeClass classList_remove e [c]) c = false.
Proof.
  intros Hl Hnd. destruct (decide (JS.className e = [])) as [Hn|Hn].
  - unfold JS.removeClass. rewrite Hl, decide_True by done.
    unfold JS.hasClass. by rewrite Hl, decide_True.
  - destruct (removeClass_cases e c Hl Hn) as [Hno Hyes].
    destruct (decide (c ∈ JS.split (JS.className e))) as [Hc|Hc].
    + apply list_elem_of_split_l in Hc as (l1 & l2 & Hs & Hl1).
      destruct (Hyes l1 l2 Hs Hl1) as (_ & Hgone & _). apply Hgone.
      rewrite Hs in Hnd. apply NoDup_app in Hnd as (_ & _ & Hnd).
      by apply NoDup_cons in Hnd as [Hnd _].
    + rewrite Hno by done. rewrite hasClass_tokens by done. by apply bool_decide_eq_false.
Qed.

(** X28. Without [classList], for a class that has no space in it and
    is not empty, and an element whose class names are all different:
    [switchClass] makes the element have the class or not as it is
    told, and [toggleClass] turns having the class into not having it
    and back. *)
Theorem switchClass_and_toggleClass (e : JS.Element) (c : JS.jsstring) (on : bool) :
  JS.classList e = false → spaceless c → c ≠ [] →
  NoDup (JS.split (JS.className e)) →
  JS.hasClass classList_contains
    (JS.switchClass classList_add classList_remove e c on) c = on ∧
  JS.hasClass classList_contains
    (JS.toggleClass classList_contains classList_add classList_remove classList_toggle e c) c
  = negb (JS.hasClass classList_contains e c).
Proof.
  intros Hl Hsp Hne Hnd.
  destruct (addClass_cases e c Hl Hsp Hne) as (Hadd & _).
  pose proof (removeClass_gone e c Hl Hnd) as Hrem. split.
  - unfold JS.switchClass. by destruct on.
  - unfold JS.toggleClass. rewrite Hl.
    by destruct (JS.hasClass classList_contains e c).
Qed.

Lemma addClass_go_absent (classes c rest : list JS.jsstring) (e : JS.Element) :
  Forall (λ cn, cn ∉ classes) rest →
  JS.addClass_go classes c rest e =
    JS.setClass e (JS.className e ++
                   concat (replicate (length rest) (JS.space ++ JS.join JS.comma c))).
Proof.
  intros Hall. revert e. induction Hall as [|cn rest Hcn _ IH]; intros e.
  - cbn [JS.addClass_go length replicate concat]. rewrite app_nil_r.
    unfold JS.setClass. by rewrite Element_eta.
  - cbn [JS.addClass_go length replicate concat]. rewrite indexOf_absent by done.
    rewrite IH. unfold JS.setClass. cbn [JS.classList JS.className].
    by rewrite <- !app_assoc.
Qed.

Lemma split_go_repeat (n : nat) (t s cur : JS.jsstring) :
  spaceless t →
  JS.split_go (s ++ concat (replicate n (JS.space ++ t))) cur =
    JS.split_go s cur ++ replicate n t.
Proof.
  intros Ht. revert s cur. induction n as [|n IH]; intros s cur.
  - cbn [replicate concat]. by rewrite !app_nil_r.
  - cbn [replicate concat]. rewrite <- app_assoc, split_go_space.
    unfold JS.split. rewrite IH, (split_go_piece t) by done. done.
Qed.

Lemma join_comma (x y : JS.jsstring) (l : list JS.jsstring) :
  44%N ∈ JS.join JS.comma (x :: y :: l).
Proof. rewrite join_cons. apply elem_of_app. right. by left. Qed.

(** X29. Without [classList], [addClass] with several classes that the
    element does not have appends, once for each of them, a space and
    the whole list of the classes joined by commas, not the class. When
    the classes are two or more, without spaces and commas, the element
    then has none of them. *)
Theorem addClass_appends_the_array (e : JS.Element) (c : list JS.jsstring) :
  JS.classList e = false → JS.className e ≠ [] →
  Forall (λ cn, cn ∉ JS.split (JS.className e)) c →
  JS.className (JS.addClass classList_add e c) =
    JS.className e ++ concat (replicate (length c) (JS.space ++ JS.join JS.comma c)) ∧
  ((2 ≤ length c)%nat →
   Forall (λ cn, Forall (λ x, x ≠ 32%N ∧ x ≠ 44%N) cn) c →
   ∀ cn, cn ∈ c → JS.hasClass classList_contains (JS.addClass classList_add e c) cn = false).
Proof.
  intros Hl Hn Hall. unfold JS.addClass. rewrite Hl, decide_False by done.
  rewrite addClass_go_absent by done. unfold JS.setClass. rewrite Hl.
  cbn [JS.className]. split; [done|]. intros Hlen Hc cn Hcn.
  assert (Hj : spaceless (JS.join JS.comma c)).
  { clear -Hc. induction Hc as [|x l Hx Hl IH]; [constructor|].
    destruct l as [|y l]; [eapply Forall_impl; [exact Hx|naive_solver]|].
    rewrite join_cons. apply Forall_app. split; [eapply Forall_impl; [exact Hx|naive_solver]|].
    apply Forall_app. split; [by repeat constructor|done]. }
  unfold JS.hasClass. cbn [JS.classList JS.className].
  rewrite decide_False by (by destruct (JS.className e)).
  unfold JS.split. rewrite split_go_repeat by done.
  rewrite indexOf_absent; [done|]. rewrite elem_of_app. intros [Hin|Hin].
  - rewrite Forall_forall in Hall. by apply (Hall cn).
  - apply elem_of_replicate in Hin as [-> _].
    rewrite Forall_forall in Hc. specialize (Hc _ Hcn).
    destruct c as [|x [|y l]]; cbn [length] in Hlen; try lia.
    rewrite Forall_forall in Hc. destruct (Hc 44%N (join_comma x y l)) as [_ H44]. done.
Qed.

End ClassNames.

#[local] Existing Instance demo0.

Lemma root_is_first_child_of_body_witness :
  walk_doc "a.htmto" (document [element "div" [] []]) v0
  = traverse (element "div" [] []) [] 0 v0.
Proof.
  destruct (root_is_first_child_of_body (document [element "div" [] []]) "a.htmto" v0) as (_ & _ & Hr & _).
  destruct (Hr (element "div" [] [])) as (Hw & _ & _); [reflexivity|].
  exact Hw.
Defined.

(** C5, the claim as stated fails on a body that begins with text: the
    loader takes the text node for the root, not the first element child,
    and the visit starts on it; and a body with text only compiles,
    though it has no element child. *)
Lemma text_root_counterexample :
  let doc := document [text_node "hello"; element "div" [] []] in
  let doc2 := document [text_node "hello"] in
  claimed_root doc = Some (element "div" [] []) ∧
  strip (findRoot doc) = Some (text_node "hello") ∧
  walk_doc "a.htmto" doc v0
    = (dom_append ".appendText('hello')" v0, None) ∧
  claimed_root doc2 = None ∧
  walk_doc "a.htmto" doc2 v0
    = (dom_append ".appendText('hello')" v0, None).
Proof. vm_compute. done. Qed.



Lemma head_text_node_witness :
  head (text_node nbsp) [0%nat] 1 v0
  = (dom_append (".appendText('" +:+ nbsp +:+ "')") v0, None).
Proof.
  destruct (head_text_node (text_node nbsp) [0%nat] 1 v0)
    as (_ & Hn & _); [reflexivity..|].
  apply Hn. reflexivity.
Defined.

Lemma transferAttrs_calls_witness :
  let n := element "tomato" [MkAttr "" "src" "a.htmto"; MkAttr "" "_ref" "f";
                             MkAttr "" "_id" "it's"; MkAttr "xlink" "href" "#"] [] in
  transferAttrs n v0
  = dom_append (".setAttr('id', 'it\'s')" +:+ ".setAttr('xlink:href', '#')") v0.
Proof.
  intros n.
  destruct (transferAttrs_calls n v0) as (Ht & _).
  rewrite Ht. reflexivity.
Defined.

Lemma aggregate_in_path_order_witness :
  ∃ keys : list string,
    aggregate ["b.htmto"; "a.htmto"] views0 opts0 =
      Ok (EmitPreamble opts0 "" +:+ sconcat (view_chunk views0 <$> keys),
          sconcat (css_chunk views0 <$> keys)) ∧
    keys = ["a.htmto"; "b.htmto"].
Proof.
  destruct (aggregate_in_path_order views0 opts0 ["b.htmto"; "a.htmto"])
    as (keys & Hagg & Hperm & Hsorted & _).
  - vm_compute. apply perm_swap.
  - exists keys. split; [exact Hagg|].
    apply (Sorted_unique String.le); [by apply StronglySorted_Sorted| |].
    + repeat constructor.
    + rewrite Hperm. apply perm_swap.
Defined.

Lemma append_stack_discipline_witness :
  appendStack (fst (traverse panel [] 0 v0)) = [] ∧
  ignoreSubtree (fst (traverse panel [] 0 v0)) = false ∧
  matched (events_pieces v0 (unsuppressed panel) (events panel [] 0)).
Proof.
  destruct (append_stack_discipline panel v0 (fst (traverse panel [] 0 v0)))
    as (_ & _ & _ & Hs & Hi & _ & Hm); [reflexivity|reflexivity|by vm_compute|].
  split_and!; [exact Hs|exact Hi|exact Hm].
Defined.

(** ** Examples of the library models *)

Example Index_ex : GoStrings.Index "a<style>b<style>" "<style>" = 1.
Proof. reflexivity. Qed.

Example LastIndex_ex : GoStrings.LastIndex "a<style>b<style>" "<style>" = 9.
Proof. reflexivity. Qed.

Example LastIndex_none : GoStrings.LastIndex "abc" "<style>" = -1.
Proof. reflexivity. Qed.

Example Replace_first : GoStrings.Replace "a.htmtob.htmto" ".htmto" "" 1 = "ab.htmto".
Proof. reflexivity. Qed.

Example Replace_all : GoStrings.Replace "it's 'x'" "'" "\'" (-1) = "it\'s \'x\'".
Proof. reflexivity. Qed.

Example decode_nbsp : utf8.DecodeRuneInString nbsp = (160, 2%nat).
Proof. reflexivity. Qed.

Example decode_last_nbsp : utf8.DecodeLastRuneInString ("a" +:+ nbsp) = (160, 2%nat).
Proof. reflexivity. Qed.

Example trim_spaces :
  GoTrim.TrimFunc ("  " +:+ nbsp +:+ "a b" +:+ nl +:+ tab) unicode.IsSpace = "a b".
Proof. reflexivity. Qed.

#[local] Existing Instance demo0.

Lemma getViewName_ignores_directory_witness :
  getViewName ("views/widgets" +:+ "/" +:+ "button.htmto") = getViewName "button.htmto".
Proof. apply getViewName_ignores_directory. reflexivity. Defined.

Lemma head_root_element_witness :
  head (element "div" [MkAttr "" "_ref" "x"; MkAttr "" "class" "c"] []) [] 0 v0 =
    (dom_append (indent 0 +:+ "super(doc.createElement('div'));" +:+ nl +:+
                 indent 0 +:+ "this" +:+ ".setAttr('class', 'c')") v0, None) ∧
  refs (head (element "div" [MkAttr "" "_ref" "x"; MkAttr "" "class" "c"] []) [] 0 v0).1 = [].
Proof.
  destruct (head_root_element (element "div" [MkAttr "" "_ref" "x"; MkAttr "" "class" "c"] [])
              [] v0) as (Hh & Hr & _); [reflexivity|reflexivity|vm_compute; lia|].
  split; [exact Hh|exact Hr].
Defined.

Lemma head_nested_element_witness :
  ∃ v', head (element "span" [MkAttr "" "_ref" "title"] []) [0%nat] 1 v0 = (v', None) ∧
        domConstruction v' =
          indent 1 +:+ ".append(" +:+ "this.title = " +:+ "createView('span', doc)" ∧
        appendStack v' = [[0%nat]] ∧ refs v' = ["title: View"].
Proof.
  destruct (head_nested_element (element "span" [MkAttr "" "_ref" "title"] []) [0%nat] 0 v0)
    as (v' & Hh & Hd & Hs & _ & Hr & _); [reflexivity|discriminate|reflexivity|].
  exists v'. split_and!; [exact Hh|exact Hd|exact Hs|exact Hr].
Defined.

Lemma reference_children_ignored_witness :
  traverse (button_ref [element "b" [] [text_node "x"]]) [0%nat] 1 v0 =
  traverse (button_ref []) [0%nat] 1 v0.
Proof. apply reference_children_ignored; reflexivity. Defined.

Lemma traverse_fails_on_missing_source_witness :
  ((traverse panel [] 0 v0).2 = None ↔
     ∀ q n d, (q, n, d) ∈ preorder panel [] 0 → Type_ n = ElementNode → d ≠ 0%nat →
              ToLower (Data n) = "tomato" → getAttr n "src" ≠ "") ∧
  (∀ e, (traverse panel [] 0 v0).2 = Some e →
        e = "Tomato element with no 'src' attribute!").
Proof. apply traverse_fails_on_missing_source; [reflexivity|reflexivity|vm_compute; lia]. Defined.

Lemma traverse_extends_witness :
  options (traverse panel [] 0 v0).1 = options v0 ∧
  cssText (traverse panel [] 0 v0).1 = cssText v0 ∧
  viewName (traverse panel [] 0 v0).1 = viewName v0 ∧
  output (traverse panel [] 0 v0).1 = output v0 ∧
  forceDebugIds (traverse panel [] 0 v0).1 = forceDebugIds v0 ∧
  (∃ text, domConstruction (traverse panel [] 0 v0).1 = domConstruction v0 +:+ text) ∧
  (∃ decls, refs (traverse panel [] 0 v0).1 = refs v0 ++ decls).
Proof. apply traverse_extends. vm_compute. lia. Defined.

Lemma traverse_other_node_witness : traverse comment [0%nat] 1 v0 = (v0, None).
Proof. apply traverse_other_node; [discriminate|discriminate|reflexivity|discriminate]. Defined.

Lemma aggregate_import_and_styles_witness :
  ∃ rest css,
    aggregate ["b.htmto"; "a.htmto"] views0 opts0 =
      Ok ("import { " +:+ "View" +:+ ", " +:+ "createView" +:+
          " } from '" +:+ "../ts/src/view" +:+ "';" +:+ rest, css) ∧
    (views0 = ∅ → rest = "" ∧ css = "") ∧
    (css = "" ↔ ∀ k c, views0 !! k = Some c → CssText c = "").
Proof.
  apply (aggregate_import_and_styles views0 opts0 ["b.htmto"; "a.htmto"]).
  vm_compute. apply perm_swap.
Defined.

Lemma writeTomatoOutput_needs_a_dot_witness :
  writeTomatoOutput (λ _, "gen") ["b.htmto"; "a.htmto"] "gen/views" views0 opts0 fs0
  = (fs0, Panic).
Proof.
  apply writeTomatoOutput_needs_a_dot; [vm_compute; apply perm_swap|reflexivity|reflexivity].
Defined.

Lemma writeTomatoOutput_errors_witness :
  ∃ err,
    writeTomatoOutput (λ _, "gen") ["b.htmto"; "a.htmto"] "gen/views.ts" views0 opts0
      fs_locked = (fs_locked, Err err).
Proof.
  destruct (writeTomatoOutput_errors (λ _, "gen") ["b.htmto"; "a.htmto"] "gen/views.ts"
              views0 opts0 fs_locked) as [_ Hw]; [vm_compute; apply perm_swap|].
  edestruct (Hw "gen/views") as [Hcss _]; [reflexivity|reflexivity|vm_compute; reflexivity|].
  apply Hcss; [by vm_compute|discriminate].
Defined.

Lemma writeTomatoOutput_writes_the_texts_witness :
  ∃ viewText css stem,
    aggregate ["b.htmto"; "a.htmto"] views0 opts0 = Ok (viewText, css) ∧
    slice "gen/views.ts" 0 (GoStrings.LastIndex "gen/views.ts" ".") = Some stem ∧
    contents (writeTomatoOutput (λ _, "gen") ["b.htmto"; "a.htmto"] "gen/views.ts"
                views0 opts0 fs0).1 !! "gen/views.ts" = Some viewText ∧
    stem = "gen/views".
Proof.
  destruct (writeTomatoOutput_writes_the_texts (λ _, "gen") ["b.htmto"; "a.htmto"]
              "gen/views.ts" views0 opts0 fs0
              (writeTomatoOutput (λ _, "gen") ["b.htmto"; "a.htmto"] "gen/views.ts"
                 views0 opts0 fs0).1)
    as (viewText & css & stem & Ha & Hs & Hr & _); [by vm_compute|].
  exists viewText, css, stem. split_and!; [exact Ha|exact Hs|exact Hr|].
  vm_compute in Hs. by injection Hs.
Defined.

Lemma writeTomatoOutput_refines_unconditional_witness :
  ∃ fs2,
    writeTomatoOutput (λ _, "gen") ["b.htmto"; "a.htmto"] "gen/views.ts" views0 opts0 fs0
    = (fs2, Ok tt) ∧
    contents fs2 =
      contents (writeTomatoOutput_unconditional (λ _, "gen") ["b.htmto"; "a.htmto"]
                  "gen/views.ts" views0 opts0 fs0).1.
Proof.
  destruct (writeTomatoOutput_refines_unconditional (λ _, "gen") ["b.htmto"; "a.htmto"]
              "gen/views.ts" views0 opts0 fs0
              (writeTomatoOutput_unconditional (λ _, "gen") ["b.htmto"; "a.htmto"]
                 "gen/views.ts" views0 opts0 fs0).1)
    as (stem & fs2 & _ & _ & Hw & Hc & _); [by vm_compute|].
  exists fs2. split; [exact Hw|exact Hc].
Defined.

Lemma slurpCss_round_trip_witness :
  slurpCss ("<div></div>" +:+ "<style>" +:+ ".a { color: red }" +:+ "</style>" +:+ nl)
  = Ok (Some ".a { color: red }", "<div></div>").
Proof. apply slurpCss_round_trip; reflexivity. Defined.

Lemma strip_marked_root_witness : strip (Some marked_table) = Some row.
Proof.
  destruct (strip_marked_root marked_table) as (_ & _ & _ & Hrow & _).
  - exists (MkAttr "" "_stripme" ""). split; [by left|reflexivity].
  - apply (Hrow (element "tbody" [] [row]) row); reflexivity.
Defined.

Lemma traverse_element_with_texts_witness :
  ∃ v', traverse (element "p" [] [text_node "it's"; text_node " "]) [0%nat] 1 v0
        = (v', None) ∧
        domConstruction v' =
          indent 1 +:+ ".append(" +:+ "createView('p', doc)" +:+
          ".appendText('it\'s')" +:+ ")".
Proof.
  destruct (traverse_element_with_texts "p" [] [text_node "it's"; text_node " "]
              [0%nat] 0 v0) as (v' & Ht & Hd & _).
  - discriminate.
  - repeat constructor.
  - reflexivity.
  - constructor.
  - exists v'. split; [exact Ht|]. rewrite Hd. reflexivity.
Defined.

Lemma removeClass_first_occurrence_witness :
  JS.hasClass (λ _ _, false) (JS.removeClass (λ s _, s) twice [js "a"]) (js "a") = true.
Proof.
  destruct (removeClass_first_occurrence (λ _ _, false) (λ s _, s) twice (js "a"))
    as [_ Hfirst]; [reflexivity|discriminate|].
  destruct (Hfirst [] [js "b"; js "a"]) as (_ & _ & Hyes);
    [reflexivity|apply not_elem_of_nil|].
  apply Hyes; [|discriminate]. right. left.
Defined.

Lemma addClass_one_witness :
  JS.className (JS.addClass (λ s _, s) (JS.MkElement false (js "x")) [js "a"]) = js "x a".
Proof.
  destruct (addClass_one (λ _ _, false) (λ s _, s) (JS.MkElement false (js "x")) (js "a"))
    as (_ & _ & Hadd & _); [reflexivity|repeat constructor; discriminate|discriminate|].
  apply Hadd; [reflexivity|discriminate].
Defined.

Lemma switchClass_and_toggleClass_witness :
  JS.hasClass (λ _ _, false)
    (JS.toggleClass (λ _ _, false) (λ s _, s) (λ s _, s) (λ s _, s)
       (JS.MkElement false (js "a b")) (js "a")) (js "a") = false.
Proof.
  destruct (switchClass_and_toggleClass (λ _ _, false) (λ s _, s) (λ s _, s) (λ s _, s)
              (JS.MkElement false (js "a b")) (js "a") true) as [_ Ht].
  - reflexivity.
  - repeat constructor; discriminate.
  - discriminate.
  - vm_compute. repeat constructor; intros Hin;
      repeat (apply elem_of_cons in Hin as [Hin|Hin]; [discriminate|]);
      by apply elem_of_nil in Hin.
  - rewrite Ht. reflexivity.
Defined.

Lemma addClass_appends_the_array_witness :
  JS.className (JS.addClass (λ s _, s) (JS.MkElement false (js "x")) [js "a"; js "b"])
  = js "x a,b a,b" ∧
  JS.hasClass (λ _ _, false)
    (JS.addClass (λ s _, s) (JS.MkElement false (js "x")) [js "a"; js "b"]) (js "a") = false.
Proof.
  destruct (addClass_appends_the_array (λ _ _, false) (λ s _, s)
              (JS.MkElement false (js "x")) [js "a"; js "b"]) as [Hn Hhas].
  - reflexivity.
  - discriminate.
  - repeat constructor; vm_compute; intros Hin;
      repeat (apply elem_of_cons in Hin as [Hin|Hin]; [discriminate|]);
      by apply elem_of_nil in Hin.
  - split; [exact Hn|]. apply Hhas.
    + cbn [length]. lia.
    + repeat constructor; discriminate.
    + by left.
Defined.
